(** * Textile Studio: drawdown engines, weave validation, colour quantizer
    and palette clean-up, embedded from the TypeScript sources.

  Conventions of the embedding.
  - A JavaScript value that may be [undefined] or [NaN] is an [option]:
    a typed-array read out of range, [x % 0], arithmetic on [undefined].
  - Typed arrays ([Uint8Array], [Uint16Array], [Uint8ClampedArray]) are
    lists; [l !! i] is the read, [<[i:=v]> l] the write, which, like a
    typed-array write, does nothing out of range.
  - [for (let i = 0; i < n; i++)] is [JS.for_lt n body], a left fold of the
    body over [0 .. n-1] that threads the mutated state. *)

From Stdlib Require Import ZArith Lia Ascii.
From stdpp Require Import base numbers option list strings pretty gmap sorting.

Open Scope nat_scope.

(* ===================================================================== *)
(** * JavaScript helpers *)
(* ===================================================================== *)

Module JS.

(** [for (let i = 0; i < n; i++) body]: state passing over [0 .. n-1]. *)
Definition for_lt {St : Type} (n : nat) (body : nat → St → St) (st : St) : St :=
  fold_left (λ s i, body i s) (seq 0 n) st.

(** [a % b] on non-negative integers: [NaN] when [b] is [0]. *)
Definition rem (a b : nat) : option nat :=
  if b =? 0 then None else Some (a mod b).

(** [Math.floor(a / b) % 2 === 1]: [a / 0] is [Infinity] or [NaN], whose
    remainder is [NaN], and [NaN === 1] is false. *)
Definition oddQuotient (a b : nat) : bool :=
  if b =? 0 then false else (a / b) mod 2 =? 1.

(** Truthiness of a number read from a typed array: [undefined] and [0]
    are falsy, every other number is truthy. *)
Definition truthy (v : option nat) : bool :=
  match v with
  | Some (S _) => true
  | _ => false
  end.

(** Conversion of a number stored into a [Uint8Array]: modulo 256, [NaN]
    becomes [0]. *)
Definition toUint8 (v : option nat) : nat :=
  match v with
  | Some n => n mod 256
  | None => 0
  end.


(** The row-major double loop shared by the drawdown engines: cell
    [(x, y)] of a [W] x [H] grid is stored at [y * W + x]. *)
Definition fillGrid {A : Type} (W H : nat) (f : nat → nat → A) (d0 : list A) : list A :=
  for_lt H (λ y d, for_lt W (λ x d, <[y * W + x := f x y]> d) d) d0.

(** Loop invariant of [fillGrid]: the rows below [y] and the first [x]
    cells of row [y] hold their final value. *)
Definition filledUpTo {A : Type} (W H : nat) (f : nat → nat → A)
    (y x : nat) (d : list A) : Prop :=
  length d = W * H ∧
  ∀ x' y', x' < W → (y' < y ∨ (y' = y ∧ x' < x)) →
           d !! (y' * W + x') = Some (f x' y').


(** [for (let i = lo; i < hi; i++) body]. *)
Definition for_from {St : Type} (lo hi : nat) (body : nat → St → St) (st : St) : St :=
  fold_left (λ s i, body i s) (seq lo (hi - lo)) st.

(** Conversion of a number stored into a [Uint16Array]: modulo 65536,
    [undefined] and [NaN] become [0]. *)
Definition toUint16 (v : option nat) : nat :=
  match v with
  | Some n => n mod 2 ^ 16
  | None => 0
  end.

(** [a % b] on integers: the sign of the dividend, [NaN] when [b] is [0]. *)
Definition remZ (a b : Z) : option Z :=
  if (b =? 0)%Z then None else Some (Z.rem a b).

(** Conversion of an integer stored into a [Uint8Array]: modulo 256 into
    [0, 255], [NaN] becomes [0]. *)
Definition toUint8Z (v : option Z) : nat :=
  match v with
  | Some z => Z.to_nat (z mod 256)
  | None => 0
  end.

(** A double loop that stores [f i j] at index [ix i j], rows outermost. *)
Definition rectLoop {A : Type} (ix : nat → nat → nat) (f : nat → nat → A)
    (cw ch : nat) (d0 : list A) : list A :=
  for_lt ch (λ j d, for_lt cw (λ i d, <[ix i j := f i j]> d) d) d0.

(** The double loop that writes the [cw] x [ch] corner of a grid of row
    length [W]. *)
Definition fillRect {A : Type} (W cw ch : nat) (f : nat → nat → A) (d0 : list A) : list A :=
  for_lt ch (λ y d, for_lt cw (λ x d, <[y * W + x := f x y]> d) d) d0.

End JS.

(* ===================================================================== *)
(** * Dobby weave: model, drawdown, generators, validation *)
(* ===================================================================== *)

Module Weave.

Record Repeat := { warp : nat; weft : nat }.
Record Symmetry := { warpMirror : bool; weftMirror : bool }.
Record Loom := { maxHarness : nat; maxTreadle : nat; maxWarp : nat; maxWeft : nat }.

(** [WeaveModel] of types/weaveModel.ts.  [repeat] and [symmetry] are read
    through [?.] by the drawdown engine, hence optional here. *)
Record WeaveModel := {
  warpCount : nat;
  weftCount : nat;
  harnessCount : nat;
  treadleCount : nat;
  threading : list nat;
  treadling : list nat;
  tieUp : list nat;
  warpColors : list string;
  weftColors : list string;
  repeat : option Repeat;
  symmetry : option Symmetry;
  loom : Loom
}.

Definition set_threading (m : WeaveModel) (t : list nat) : WeaveModel :=
  {| warpCount := warpCount m; weftCount := weftCount m;
     harnessCount := harnessCount m; treadleCount := treadleCount m;
     threading := t; treadling := treadling m; tieUp := tieUp m;
     warpColors := warpColors m; weftColors := weftColors m;
     repeat := repeat m; symmetry := symmetry m; loom := loom m |}.

Definition set_treadling (m : WeaveModel) (t : list nat) : WeaveModel :=
  {| warpCount := warpCount m; weftCount := weftCount m;
     harnessCount := harnessCount m; treadleCount := treadleCount m;
     threading := threading m; treadling := t; tieUp := tieUp m;
     warpColors := warpColors m; weftColors := weftColors m;
     repeat := repeat m; symmetry := symmetry m; loom := loom m |}.

Definition set_tieUp (m : WeaveModel) (t : list nat) : WeaveModel :=
  {| warpCount := warpCount m; weftCount := weftCount m;
     harnessCount := harnessCount m; treadleCount := treadleCount m;
     threading := threading m; treadling := treadling m; tieUp := t;
     warpColors := warpColors m; weftColors := weftColors m;
     repeat := repeat m; symmetry := symmetry m; loom := loom m |}.

(** [repeat?.warp ?? 1], [repeat?.weft ?? 1]. *)
Definition repeatWarp (m : WeaveModel) : nat := from_option warp 1 (repeat m).
Definition repeatWeft (m : WeaveModel) : nat := from_option weft 1 (repeat m).

(** [symmetry?.warpMirror], [symmetry?.weftMirror] used as conditions. *)
Definition mirrorsWarp (m : WeaveModel) : bool := from_option warpMirror false (symmetry m).
Definition mirrorsWeft (m : WeaveModel) : bool := from_option weftMirror false (symmetry m).

Definition outWidth (m : WeaveModel) : nat := warpCount m * repeatWarp m.
Definition outHeight (m : WeaveModel) : nat := weftCount m * repeatWeft m.

(** The value written at output cell [(x, y)]: body of the inner loop of
    [generateDrawdown], up to the store. *)
Definition drawdownCell (m : WeaveModel) (x y : nat) : nat :=
  let baseX := JS.rem x (warpCount m) in
  let baseY := JS.rem y (weftCount m) in
  let baseX :=
    if mirrorsWarp m then
      if JS.oddQuotient x (warpCount m)
      then (λ bx, warpCount m - 1 - bx) <$> baseX
      else baseX
    else baseX in
  let baseY :=
    if mirrorsWeft m then
      if JS.oddQuotient y (weftCount m)
      then (λ by', weftCount m - 1 - by') <$> baseY
      else baseY
    else baseY in
  let harness := baseX ≫= (threading m !!.) in
  let treadle := baseY ≫= (treadling m !!.) in
  let tieUpIdx := h ← harness; t ← treadle; Some (h * treadleCount m + t) in
  let lift := tieUpIdx ≫= (tieUp m !!.) in
  if JS.truthy lift then 1 else 0.

(** [generateDrawdown]: a zero-filled [Uint8Array] of
    [outWidth * outHeight] cells, written row by row. *)
Definition generateDrawdown (m : WeaveModel) : list nat :=
  let drawdown := replicate (outWidth m * outHeight m) 0 in
  JS.for_lt (outHeight m) (λ y d,
    JS.for_lt (outWidth m) (λ x d,
      <[y * outWidth m + x := drawdownCell m x y]> d) d) drawdown.

(** [getDrawdownDimensions]. *)
Definition getDrawdownDimensions (m : WeaveModel) : nat * nat :=
  (warpCount m * repeatWarp m, weftCount m * repeatWeft m).

(** ** Generators (core/cad/weaveGenerators.ts) *)

(** [applyStraightDraw]: [threading[i] = i % harnessCount] for
    [i < warpCount], [treadling[i] = i % treadleCount] for [i < weftCount],
    stored into [Uint8Array]s in place. *)
Definition applyStraightDraw (m : WeaveModel) : WeaveModel :=
  let th := JS.for_lt (warpCount m) (λ i t,
              <[i := JS.toUint8 (JS.rem i (harnessCount m))]> t) (threading m) in
  let tr := JS.for_lt (weftCount m) (λ i t,
              <[i := JS.toUint8 (JS.rem i (treadleCount m))]> t) (treadling m) in
  set_treadling (set_threading m th) tr.

(** [applyPlainWeave]: fresh zeroed tie-up with
    [tieUp[i * treadleCount + i] = 1] for [i < min(harnessCount, treadleCount)]. *)
Definition applyPlainWeave (m : WeaveModel) : WeaveModel :=
  let tu := JS.for_lt (Nat.min (harnessCount m) (treadleCount m)) (λ i t,
              <[i * treadleCount m + i := 1]> t)
              (replicate (harnessCount m * treadleCount m) 0) in
  set_tieUp m tu.

(** [apply2x2Twill]: [tieUp[h * treadleCount + t] = ((h + t) % harnessCount < 2)]. *)
Definition apply2x2Twill (m : WeaveModel) : WeaveModel :=
  let tu := JS.for_lt (harnessCount m) (λ h tu,
              JS.for_lt (treadleCount m) (λ t tu,
                <[h * treadleCount m + t :=
                    match JS.rem (h + t) (harnessCount m) with
                    | Some pos => if pos <? 2 then 1 else 0
                    | None => 0
                    end]> tu) tu)
              (replicate (harnessCount m * treadleCount m) 0) in
  set_tieUp m tu.

(** [createDefaultWeaveModel] (weaveDefaults): straight draw, diagonal
    tie-up [h === t], repeat 1 x 1, no mirror, default loom. *)
Definition createDefaultWeaveModel (warp' weft' harness treadle : nat) : WeaveModel :=
  {| warpCount := warp'; weftCount := weft';
     harnessCount := harness; treadleCount := treadle;
     threading := JS.for_lt warp' (λ i t, <[i := JS.toUint8 (JS.rem i harness)]> t)
                    (replicate warp' 0);
     treadling := JS.for_lt weft' (λ i t, <[i := JS.toUint8 (JS.rem i treadle)]> t)
                    (replicate weft' 0);
     tieUp := JS.for_lt harness (λ h tu,
                JS.for_lt treadle (λ t tu,
                  <[h * treadle + t := if h =? t then 1 else 0]> tu) tu)
                (replicate (harness * treadle) 0);
     warpColors := replicate warp' "#1e3a5f"%string;
     weftColors := replicate weft' "#f5f5dc"%string;
     repeat := Some {| warp := 1; weft := 1 |};
     symmetry := Some {| warpMirror := false; weftMirror := false |};
     loom := {| maxHarness := 16; maxTreadle := 16; maxWarp := 4096; maxWeft := 4096 |} |}.

(** ** Validation (core/cad/weaveValidate.ts) *)

Definition harnessMsg (n cap : nat) : string :=
  "Harness count (" +:+ pretty n +:+ ") exceeds loom capacity (" +:+ pretty cap +:+ ")".
Definition treadleMsg (n cap : nat) : string :=
  "Treadle count (" +:+ pretty n +:+ ") exceeds loom capacity (" +:+ pretty cap +:+ ")".
Definition warpMsg (n cap : nat) : string :=
  "Warp count (" +:+ pretty n +:+ ") exceeds loom capacity (" +:+ pretty cap +:+ ")".
Definition weftMsg (n cap : nat) : string :=
  "Weft count (" +:+ pretty n +:+ ") exceeds loom capacity (" +:+ pretty cap +:+ ")".
Definition emptyTieUpMsg : string := "Tie-up is empty - no pattern will be generated".
Definition threadingMsg (pos : nat) : string :=
  "Threading at position " +:+ pretty pos +:+ " references invalid harness".
Definition treadlingMsg (pos : nat) : string :=
  "Treadling at position " +:+ pretty pos +:+ " references invalid treadle".

(** [if (cond) errors.push(msg)]. *)
Definition pushIf (cond : bool) (msg : string) (errors : list string) : list string :=
  if cond then errors ++ [msg] else errors.

(** The bounds loops
    [for (i = 0; i < count; i++) if (arr[i] >= limit) { errors.push(msg(i + 1)); break; }]
    started at index [i] with [todo] iterations left.  A read past the end
    of [arr] is [undefined], and [undefined >= limit] is false. *)
Fixpoint boundsLoop (msg : nat → string) (arr : list nat) (limit : nat)
    (i todo : nat) (errors : list string) : list string :=
  match todo with
  | 0 => errors
  | S todo' =>
      match arr !! i with
      | Some v =>
          if limit <=? v then errors ++ [msg (i + 1)]
          else boundsLoop msg arr limit (S i) todo' errors
      | None => boundsLoop msg arr limit (S i) todo' errors
      end
  end.

(** [validateWeave]. [tieUp.some(v => v === 1)] is [existsb]. *)
Definition validateWeave (m : WeaveModel) : list string :=
  let errors := [] in
  let errors := pushIf (maxHarness (loom m) <? harnessCount m)
                  (harnessMsg (harnessCount m) (maxHarness (loom m))) errors in
  let errors := pushIf (maxTreadle (loom m) <? treadleCount m)
                  (treadleMsg (treadleCount m) (maxTreadle (loom m))) errors in
  let errors := pushIf (maxWarp (loom m) <? warpCount m)
                  (warpMsg (warpCount m) (maxWarp (loom m))) errors in
  let errors := pushIf (maxWeft (loom m) <? weftCount m)
                  (weftMsg (weftCount m) (maxWeft (loom m))) errors in
  let hasTieUp := existsb (λ v, v =? 1) (tieUp m) in
  let errors := pushIf (negb hasTieUp) emptyTieUpMsg errors in
  let errors := boundsLoop threadingMsg (threading m) (harnessCount m)
                  0 (warpCount m) errors in
  let errors := boundsLoop treadlingMsg (treadling m) (treadleCount m)
                  0 (weftCount m) errors in
  errors.

(** [isWithinLoomLimits]. *)
Definition isWithinLoomLimits (m : WeaveModel) : bool :=
  length (validateWeave m) =? 0.

(** The validator as the specification words it: one optional message per
    check, concatenated in the order of the checks; the two range checks
    name the first offending position (1-based) among the first [count]
    entries.  The texts are written out here, apart from the definitions
    that [validateWeave] uses. *)
Definition optMsg (failed : bool) (msg : string) : list string :=
  if failed then [msg] else [].

Definition firstOffender (arr : list nat) (limit count : nat) : option nat :=
  fst <$> list_find (λ v, limit ≤ v) (take count arr).

Definition rangeMsg (msg : nat → string) (arr : list nat) (limit count : nat) : list string :=
  match firstOffender arr limit count with
  | Some i => [msg (i + 1)]
  | None => []
  end.

Definition validate_spec (m : WeaveModel) : list string :=
  optMsg (maxHarness (loom m) <? harnessCount m)
         ("Harness count (" +:+ pretty (harnessCount m)
          +:+ ") exceeds loom capacity (" +:+ pretty (maxHarness (loom m)) +:+ ")")
  ++ optMsg (maxTreadle (loom m) <? treadleCount m)
         ("Treadle count (" +:+ pretty (treadleCount m)
          +:+ ") exceeds loom capacity (" +:+ pretty (maxTreadle (loom m)) +:+ ")")
  ++ optMsg (maxWarp (loom m) <? warpCount m)
         ("Warp count (" +:+ pretty (warpCount m)
          +:+ ") exceeds loom capacity (" +:+ pretty (maxWarp (loom m)) +:+ ")")
  ++ optMsg (maxWeft (loom m) <? weftCount m)
         ("Weft count (" +:+ pretty (weftCount m)
          +:+ ") exceeds loom capacity (" +:+ pretty (maxWeft (loom m)) +:+ ")")
  ++ optMsg (negb (existsb (λ v, v =? 1) (tieUp m)))
         "Tie-up is empty - no pattern will be generated"
  ++ rangeMsg (λ pos, "Threading at position " +:+ pretty pos
                      +:+ " references invalid harness")
       (threading m) (harnessCount m) (warpCount m)
  ++ rangeMsg (λ pos, "Treadling at position " +:+ pretty pos
                      +:+ " references invalid treadle")
       (treadling m) (treadleCount m) (weftCount m).


(** Vocabulary of the range checks: every entry of [arr] at an index in
    [lo, hi) is below [limit]; [i] is the least index in [lo, hi) whose
    entry is not. *)
Definition inRange (arr : list nat) (limit lo hi : nat) : Prop :=
  ∀ j v, lo ≤ j < hi → arr !! j = Some v → v < limit.

Definition leastOffender (arr : list nat) (limit lo hi i : nat) : Prop :=
  lo ≤ i < hi ∧ (∃ v, arr !! i = Some v ∧ limit ≤ v) ∧ inRange arr limit lo i.

Definition defaultLoom : Loom :=
  {| maxHarness := 16; maxTreadle := 16; maxWarp := 4096; maxWeft := 4096 |}.

(** Concrete drafts. *)
Definition draft_2x2 : WeaveModel :=
  {| warpCount := 2; weftCount := 2; harnessCount := 2; treadleCount := 2;
     threading := [0; 1]; treadling := [1; 0]; tieUp := [0; 1; 1; 1];
     warpColors := []; weftColors := [];
     repeat := Some {| warp := 1; weft := 1 |};
     symmetry := Some {| warpMirror := false; weftMirror := false |};
     loom := defaultLoom |}.

Definition mirrored_draft : WeaveModel :=
  {| warpCount := 2; weftCount := 1; harnessCount := 2; treadleCount := 1;
     threading := [0; 1]; treadling := [0]; tieUp := [1; 0];
     warpColors := []; weftColors := [];
     repeat := Some {| warp := 2; weft := 1 |};
     symmetry := Some {| warpMirror := true; weftMirror := false |};
     loom := defaultLoom |}.

(** The default model of the editor (64 x 64, four shafts, four treadles)
    after the plain-weave and straight-draw generators. *)
Definition default_plain_straight : WeaveModel :=
  applyStraightDraw (applyPlainWeave (createDefaultWeaveModel 64 64 4 4)).

(** A draft with too many shafts for the loom, an empty tie-up and bad
    threading at positions 2 and 3. *)
Definition overloaded_draft : WeaveModel :=
  {| warpCount := 3; weftCount := 2; harnessCount := 20; treadleCount := 2;
     threading := [0; 25; 30]; treadling := [0; 1]; tieUp := replicate 40 0;
     warpColors := []; weftColors := [];
     repeat := Some {| warp := 1; weft := 1 |};
     symmetry := Some {| warpMirror := false; weftMirror := false |};
     loom := defaultLoom |}.


(** ** The other generators and tie-up builders *)


(** [applyBasket]: threads and picks in pairs,
    [threading[i] = floor(i / 2) % harnessCount], and the diagonal tie-up. *)
Definition applyBasket (m : WeaveModel) : WeaveModel :=
  let th := JS.for_lt (warpCount m) (λ i t,
              <[i := JS.toUint8 (JS.rem (i / 2) (harnessCount m))]> t) (threading m) in
  let tr := JS.for_lt (weftCount m) (λ i t,
              <[i := JS.toUint8 (JS.rem (i / 2) (treadleCount m))]> t) (treadling m) in
  let tu := JS.for_lt (Nat.min (harnessCount m) (treadleCount m)) (λ i t,
              <[i * treadleCount m + i := 1]> t)
              (replicate (harnessCount m * treadleCount m) 0) in
  set_tieUp (set_treadling (set_threading m th) tr) tu.

(** The entry that the point draws store at position [i] for [count]
    shafts (or treadles): [pos = i % (2 * count - 2)], then [pos] while it
    is below [count], else [count - 2 - (pos - count)]; a [NaN] position
    fails the comparison and stores [0]. *)
Definition pointEntry (count i : nat) : nat :=
  let pointWidth := (Z.of_nat count * 2 - 2)%Z in
  JS.toUint8Z
    (pos ← JS.remZ (Z.of_nat i) pointWidth;
     Some (if (pos <? Z.of_nat count)%Z then pos
           else (Z.of_nat count - 2 - (pos - Z.of_nat count))%Z)).

(** [applyHerringbone]: point threading, then the 2/2 twill tie-up. *)
Definition applyHerringbone (m : WeaveModel) : WeaveModel :=
  let th := JS.for_lt (warpCount m) (λ i t,
              <[i := pointEntry (harnessCount m) i]> t) (threading m) in
  apply2x2Twill (set_threading m th).

(** [applyDiamond]: point threading and point treadling, then the 2/2
    twill tie-up. *)
Definition applyDiamond (m : WeaveModel) : WeaveModel :=
  let th := JS.for_lt (warpCount m) (λ i t,
              <[i := pointEntry (harnessCount m) i]> t) (threading m) in
  let tr := JS.for_lt (weftCount m) (λ i t,
              <[i := pointEntry (treadleCount m) i]> t) (treadling m) in
  apply2x2Twill (set_treadling (set_threading m th) tr).


(** [createSatinTieUp] (weaveDefaults): on treadle [t] the one lift
    [tieUp[((t * skip) % harness) * treadle + t] = 1]; a store at a [NaN]
    index does nothing. *)
Definition createSatinTieUp (harness treadle skip : nat) : list nat :=
  JS.for_lt treadle (λ t tu,
    match JS.rem (t * skip) harness with
    | Some h => <[h * treadle + t := 1]> tu
    | None => tu
    end)
    (replicate (harness * treadle) 0).

(** The base coordinate of output coordinate [x] for a pattern of [count]
    threads, and the lift at a pair of base coordinates: the two halves of
    [drawdownCell]. *)
Definition baseCoord (mirror : bool) (count x : nat) : option nat :=
  if mirror then
    if JS.oddQuotient x count
    then (λ bx, count - 1 - bx) <$> JS.rem x count
    else JS.rem x count
  else JS.rem x count.

Definition liftAt (m : WeaveModel) (baseX baseY : option nat) : nat :=
  let harness := baseX ≫= (threading m !!.) in
  let treadle := baseY ≫= (treadling m !!.) in
  let tieUpIdx := h ← harness; t ← treadle; Some (h * treadleCount m + t) in
  let lift := tieUpIdx ≫= (tieUp m !!.) in
  if JS.truthy lift then 1 else 0.

(** Concrete drafts for the generators. *)
Definition blank_draft (warp' weft' harness treadle : nat) : WeaveModel :=
  {| warpCount := warp'; weftCount := weft';
     harnessCount := harness; treadleCount := treadle;
     threading := replicate warp' 0; treadling := replicate weft' 0;
     tieUp := replicate (harness * treadle) 0;
     warpColors := []; weftColors := [];
     repeat := Some {| warp := 1; weft := 1 |};
     symmetry := Some {| warpMirror := false; weftMirror := false |};
     loom := defaultLoom |}.

Definition tiled_draft : WeaveModel :=
  {| warpCount := 3; weftCount := 2; harnessCount := 3; treadleCount := 2;
     threading := [0; 1; 2]; treadling := [1; 0]; tieUp := [1; 0; 0; 1; 1; 1];
     warpColors := []; weftColors := [];
     repeat := Some {| warp := 3; weft := 3 |};
     symmetry := Some {| warpMirror := false; weftMirror := false |};
     loom := defaultLoom |}.

Definition mirrored_both_draft : WeaveModel :=
  {| warpCount := 3; weftCount := 2; harnessCount := 3; treadleCount := 2;
     threading := [0; 1; 2]; treadling := [1; 0]; tieUp := [1; 0; 0; 1; 1; 1];
     warpColors := []; weftColors := [];
     repeat := Some {| warp := 3; weft := 3 |};
     symmetry := Some {| warpMirror := true; weftMirror := true |};
     loom := defaultLoom |}.

End Weave.

(* ===================================================================== *)
(** * Jacquard drawdown *)
(* ===================================================================== *)

Module Jacquard.

(** [WeaveStructure] of types/jacquardModel.ts. *)
Record WeaveStructure := {
  id : string;
  name : string;
  harnessCount : nat;
  treadleCount : nat;
  threading : list nat;
  treadling : list nat;
  tieUp : list nat
}.

(** [JacquardModel], without the density and view fields, which no engine
    reads. *)
Record JacquardModel := {
  width : nat;
  height : nat;
  grid : list nat;
  structures : list WeaveStructure;
  warpColors : list string;
  weftColors : list string
}.

(** The lift of structure [s] at fabric position [(x, y)]. *)
Definition structureLift (s : WeaveStructure) (x y : nat) : nat :=
  let warpIdx := JS.rem x (length (threading s)) in
  let weftIdx := JS.rem y (length (treadling s)) in
  let harness := warpIdx ≫= (threading s !!.) in
  let treadle := weftIdx ≫= (treadling s !!.) in
  let tieUpIdx := h ← harness; t ← treadle; Some (h * treadleCount s + t) in
  let lift := tieUpIdx ≫= (tieUp s !!.) in
  if JS.truthy lift then 1 else 0.

(** The value written at cell [(x, y)]: [grid[cellIdx] ?? 0] selects the
    structure; a missing structure writes [1]. *)
Definition jacquardCell (m : JacquardModel) (x y : nat) : nat :=
  let cellIdx := y * width m + x in
  let structIdx := default 0 (grid m !! cellIdx) in
  match structures m !! structIdx with
  | None => 1
  | Some s => structureLift s x y
  end.

(** [generateJacquardDrawdown]. *)
Definition generateJacquardDrawdown (m : JacquardModel) : list nat :=
  let drawdown := replicate (width m * height m) 0 in
  JS.for_lt (height m) (λ y d,
    JS.for_lt (width m) (λ x d,
      <[y * width m + x := jacquardCell m x y]> d) d) drawdown.

(** Structures of core/cad/jacquardDefaults.ts. *)
Definition createPlainWeave : WeaveStructure :=
  {| id := "plain"; name := "Plain Weave"; harnessCount := 2; treadleCount := 2;
     threading := [0; 1]; treadling := [0; 1]; tieUp := [1; 0; 0; 1] |}.

Definition createWeftFaced : WeaveStructure :=
  {| id := "weft-faced"; name := "Weft Faced"; harnessCount := 2; treadleCount := 2;
     threading := [0; 1]; treadling := [0; 0]; tieUp := [0; 0; 1; 1] |}.


(** A 2 x 2 assignment whose second cell names a structure that does not
    exist. *)
Definition two_structure_model : JacquardModel :=
  {| width := 2; height := 2; grid := [0; 7; 1; 0];
     structures := [createPlainWeave; createWeftFaced];
     warpColors := []; weftColors := [] |}.


(** ** Structure statistics and the default model *)

Definition createTwillWeave : WeaveStructure :=
  {| id := "twill"; name := "2/2 Twill"; harnessCount := 4; treadleCount := 4;
     threading := [0; 1; 2; 3]; treadling := [0; 1; 2; 3];
     tieUp := [1; 1; 0; 0;  0; 1; 1; 0;  0; 0; 1; 1;  1; 0; 0; 1] |}.

Definition createSatinWeave : WeaveStructure :=
  {| id := "satin"; name := "5-Harness Satin"; harnessCount := 5; treadleCount := 5;
     threading := [0; 1; 2; 3; 4]; treadling := [0; 1; 2; 3; 4];
     tieUp := [1; 0; 0; 0; 0;  0; 0; 1; 0; 0;  0; 0; 0; 0; 1;
               0; 1; 0; 0; 0;  0; 0; 0; 1; 0] |}.

Definition createWarpFaced : WeaveStructure :=
  {| id := "warp-faced"; name := "Warp Faced"; harnessCount := 2; treadleCount := 2;
     threading := [0; 1]; treadling := [0; 1]; tieUp := [1; 1; 1; 1] |}.

(** [createDefaultJacquardModel]: the five structures, every cell on the
    plain weave (index 0). *)
Definition createDefaultJacquardModel (width' height' : nat) : JacquardModel :=
  {| width := width'; height := height';
     grid := replicate (width' * height') 0;
     structures := [createPlainWeave; createTwillWeave; createSatinWeave;
                    createWeftFaced; createWarpFaced];
     warpColors := replicate width' "#1e3a5f"%string;
     weftColors := replicate height' "#f5f5dc"%string |}.

(** [getStructureStats]: a [Map] from structure id to the number of cells
    that use it; every id starts at 0. *)
Definition getStructureStats (m : JacquardModel) : gmap string nat :=
  let stats := fold_left (λ st s, <[id s := 0]> st) (structures m) ∅ in
  JS.for_lt (length (grid m)) (λ i st,
    match grid m !! i ≫= (structures m !!.) with
    | Some s => <[id s := default 0 (st !! id s) + 1]> st
    | None => st
    end) stats.

(** The structure that cell [i] of the grid resolves to. *)
Definition cellStructure (m : JacquardModel) (i : nat) : option WeaveStructure :=
  grid m !! i ≫= (structures m !!.).

(** Number of cells among the first [n] whose structure has id [k]. *)
Definition cellsWithId (m : JacquardModel) (k : string) (n : nat) : nat :=
  length (filter (λ i, id <$> cellStructure m i = Some k) (seq 0 n)).

Definition three_region_model : JacquardModel :=
  {| width := 3; height := 2; grid := [0; 1; 1; 9; 0; 1];
     structures := [createPlainWeave; createTwillWeave; createSatinWeave];
     warpColors := []; weftColors := [] |}.

End Jacquard.

(* ===================================================================== *)
(** * Imaging: hex colours, k-means quantizer, colour reduction,
    colour merge and speck removal *)
(* ===================================================================== *)

Module Imaging.

(** An [ImageData]: [data] is the interleaved RGBA [Uint8ClampedArray].
    The browser only builds an [ImageData] whose buffer has
    [4 * width * height] bytes, each in [0, 255]. *)
Record ImageData := { width : nat; height : nat; data : list Z }.

Definition isByte (v : Z) : Prop := (0 ≤ v ≤ 255)%Z.

Definition wellFormed (img : ImageData) : Prop :=
  length (data img) = 4 * (width img * height img) ∧ Forall isByte (data img).

(** A colour whose channels are JavaScript integers. *)
Record RGB := { r : Z; g : Z; b : Z }.

(** A colour whose channels come out of [parseInt] and may be [NaN]. *)
Record ParsedRGB := { pr : option Z; pg : option Z; pb : option Z }.

(** Read of a byte that the [ImageData] invariant keeps in range. *)
Definition byteAt (d : list Z) (i : nat) : Z := default 0%Z (d !! i).

(** Conversion of a number stored into a [Uint8ClampedArray]:
    clamped to [0, 255]; [NaN] becomes [0]. *)
Definition toUint8Clamped (v : option Z) : Z :=
  match v with
  | Some z => Z.max 0 (Z.min 255 z)
  | None => 0%Z
  end.

(** The four stores of one pixel at byte offset [i], in the order the
    sources issue them. *)
Definition write4 (i : nat) (v0 v1 v2 v3 : Z) (o : list Z) : list Z :=
  <[i + 3 := v3]> (<[i + 2 := v2]> (<[i + 1 := v1]> (<[i := v0]> o))).

(** Number of iterations of [for (let i = 0; i < length; i += 4)]. *)
Definition pixelSteps (len : nat) : nat := (len + 3) / 4.

(** ** Strings: [rgbToHex] and [hexToRgb] *)

Definition isWhiteSpace (c : ascii) : bool :=
  let n := nat_of_ascii c in (n =? 32) || ((9 <=? n) && (n <=? 13)).

Fixpoint skipWhiteSpace (s : list ascii) : list ascii :=
  match s with
  | c :: s' => if isWhiteSpace c then skipWhiteSpace s' else s
  | [] => []
  end.

(** [s.trim()] on a string of ASCII characters, whose white space is the
    characters 9 to 13 and 32; the hex strings of a palette, written by
    [rgbToHex], hold no other character. *)
Definition trim (s : list ascii) : list ascii :=
  rev (skipWhiteSpace (rev (skipWhiteSpace s))).

(** [s.replace("#", "")]: the first occurrence only. *)
Fixpoint removeFirstHash (s : list ascii) : list ascii :=
  match s with
  | c :: s' => if Ascii.eqb c "#" then s' else c :: removeFirstHash s'
  | [] => []
  end.

(** [s.slice(from, to)] for [0 <= from <= to]. *)
Definition slice (from to : nat) (s : list ascii) : list ascii :=
  take (to - from) (drop from s).

Definition hexDigitValue (c : ascii) : option Z :=
  let n := nat_of_ascii c in
  if (48 <=? n) && (n <=? 57) then Some (Z.of_nat (n - 48))
  else if (65 <=? n) && (n <=? 70) then Some (Z.of_nat (n - 55))
  else if (97 <=? n) && (n <=? 102) then Some (Z.of_nat (n - 87))
  else None.

(** Value of the longest prefix of hexadecimal digits; [None] when it is
    empty. *)
Fixpoint hexPrefixValue (s : list ascii) (acc : option Z) : option Z :=
  match s with
  | c :: s' =>
      match hexDigitValue c with
      | Some d => hexPrefixValue s' (Some (16 * default 0 acc + d)%Z)
      | None => acc
      end
  | [] => acc
  end.

(** [parseInt(s, 16)]: leading white space, a sign, a [0x] prefix, then
    the longest prefix of hexadecimal digits; [NaN] without a digit. *)
Definition parseInt16 (s : list ascii) : option Z :=
  let s := skipWhiteSpace s in
  let '(sign, s) :=
    match s with
    | c :: s' =>
        if Ascii.eqb c "-" then ((-1)%Z, s')
        else if Ascii.eqb c "+" then (1%Z, s') else (1%Z, s)
    | [] => (1%Z, s)
    end in
  let s :=
    match s with
    | c0 :: cx :: s' =>
        if Ascii.eqb c0 "0" && (Ascii.eqb cx "x" || Ascii.eqb cx "X") then s' else s
    | _ => s
    end in
  (λ v, sign * v)%Z <$> hexPrefixValue s None.

(** [hexToRgb] (mergeColors and indexMap carry the same function). *)
Definition hexToRgb (hex : string) : ParsedRGB :=
  let h := trim (removeFirstHash (String.list_ascii_of_string hex)) in
  {| pr := parseInt16 (slice 0 2 h);
     pg := parseInt16 (slice 2 4 h);
     pb := parseInt16 (slice 4 6 h) |}.

Definition hexDigitChar (d : nat) : ascii :=
  if d <? 10 then ascii_of_nat (48 + d) else ascii_of_nat (87 + d).

Fixpoint hexDigitsOf (fuel n : nat) (acc : list ascii) : list ascii :=
  match fuel with
  | 0 => acc
  | S fuel' =>
      let acc := hexDigitChar (n mod 16) :: acc in
      if n / 16 =? 0 then acc else hexDigitsOf fuel' (n / 16) acc
  end.

(** [v.toString(16)] for an integer [v]. *)
Definition toString16 (v : Z) : list ascii :=
  let n := Z.to_nat (Z.abs v) in
  let digits := hexDigitsOf (S n) n [] in
  if (v <? 0)%Z then "-"%char :: digits else digits.

(** [s.padStart(2, "0")]. *)
Definition padStart2 (s : list ascii) : list ascii :=
  replicate (2 - length s) "0"%char ++ s.

Definition toUpperCase (c : ascii) : ascii :=
  let n := nat_of_ascii c in
  if (97 <=? n) && (n <=? 122) then ascii_of_nat (n - 32) else c.

(** [rgbToHex]. *)
Definition rgbToHex (c : RGB) : string :=
  let toHex := λ v, padStart2 (toString16 v) in
  String.string_of_list_ascii
    (toUpperCase <$> ("#"%char :: toHex (r c) ++ toHex (g c) ++ toHex (b c))).

Definition rgbPaletteToHex (palette : list RGB) : list string :=
  rgbToHex <$> palette.

(** ** The k-means quantizer (core/imaging/quantizeKMeans.ts) *)

(** A JavaScript number of the clustering loop: an integer, or the double
    nearest to the quotient [s / n] of two integers, [n > 0]. *)
Inductive Num :=
| Int (z : Z)
| Quot (s n : Z).

(** [Math.round].  For [0 <= s <= 255 * n] and the sample counts that fit
    an array, the double nearest to [s / n] lies on the same side of every
    half-integer as [s / n] itself (they are at least [1 / (2 n)] apart,
    far more than the spacing of doubles below 256), so rounding it half
    up is [floor ((2 s + n) / (2 n))]. *)
Definition round (x : Num) : Z :=
  match x with
  | Int z => z
  | Quot s n => ((2 * s + n) / (2 * n))%Z
  end.

Definition clampByte (x : Num) : Z := Z.max 0 (Z.min 255 (round x)).

Definition dist2 (p q : RGB) : Z :=
  let dr := (r p - r q)%Z in
  let dg := (g p - g q)%Z in
  let db := (b p - b q)%Z in
  (dr * dr + dg * dg + db * db)%Z.

(** [nearestCentroidIndex]: [bestD] starts at [+Infinity] ([None]). *)
Definition nearestCentroidIndex (p : RGB) (centroids : list RGB) : nat :=
  fst (JS.for_lt (length centroids) (λ i '(best, bestD),
         match centroids !! i with
         | Some c =>
             let d := dist2 p c in
             match bestD with
             | Some bd => if (d <? bd)%Z then (i, Some d) else (best, bestD)
             | None => (i, Some d)
             end
         | None => (best, bestD)
         end) (0, None)).

(** [QuantizeOptions]. *)
Record QuantizeOptions := {
  k : Z;
  maxIters : option nat;
  sampleStride : option nat
}.

Record QuantizeResult := {
  q_width : nat;
  q_height : nat;
  quantized : ImageData;
  palette : list RGB;
  counts : list nat
}.

(** Step 1, [for (let i = 0; i < data.length; i += 4 * stride)].  The loop
    makes no progress when [stride] is [0]; [fuel] bounds the iterations
    and [None] is a loop that has not finished within it. *)
Fixpoint collectSamples (fuel : nat) (d : list Z) (stride i : nat)
    (samples : list RGB) : option (list RGB) :=
  if length d <=? i then Some samples
  else
    match fuel with
    | 0 => None
    | S fuel' =>
        let a := byteAt d (i + 3) in
        if (a <? 20)%Z then collectSamples fuel' d stride (i + 4 * stride) samples
        else
          collectSamples fuel' d stride (i + 4 * stride)
            (samples ++ [{| r := byteAt d i; g := byteAt d (i + 1); b := byteAt d (i + 2) |}])
    end.

Definition black : RGB := {| r := 0; g := 0; b := 0 |}.

(** [pickInitialCentroids].  [rnd t] is the [t]-th draw of the random
    source, reduced into [0, samples.length) as [randomInt] does.  The
    loop ends only when the draws hit enough fresh indices; [None] is a
    loop that has not finished within [fuel] draws.  Called with a
    non-empty [samples] only, so [samples[0]] exists. *)
Fixpoint pickLoop (rnd : nat → nat) (fuel : nat) (samples : list RGB) (kk : nat)
    (t : nat) (centroids : list RGB) (used : gset nat) : option (list RGB) :=
  if (length centroids <? kk) && (size used <? length samples) then
    match fuel with
    | 0 => None
    | S fuel' =>
        let idx := rnd t mod length samples in
        if decide (idx ∈ used) then pickLoop rnd fuel' samples kk (S t) centroids used
        else pickLoop rnd fuel' samples kk (S t)
               (centroids ++ [default black (samples !! idx)]) ({[idx]} ∪ used)
    end
  else Some centroids.

Definition pickInitialCentroids (rnd : nat → nat) (fuel : nat)
    (samples : list RGB) (kk : nat) : option (list RGB) :=
  centroids ← pickLoop rnd fuel samples kk 0 [] ∅;
  Some (centroids ++ replicate (kk - length centroids) (default black (samples !! 0))).

(** The per-cluster sums of one k-means pass. *)
Record Sums := { sumR : list Z; sumG : list Z; sumB : list Z; count : list nat }.

Definition accumulate (samples centroids : list RGB) (kk : nat) : Sums :=
  fold_left (λ s p,
      let idx := nearestCentroidIndex p centroids in
      {| sumR := alter (Z.add (r p)) idx (sumR s);
         sumG := alter (Z.add (g p)) idx (sumG s);
         sumB := alter (Z.add (b p)) idx (sumB s);
         count := alter S idx (count s) |})
    samples
    {| sumR := replicate kk 0%Z; sumG := replicate kk 0%Z;
       sumB := replicate kk 0%Z; count := replicate kk 0 |}.

(** The exact value of the test [dist2(c, nc) > 5] for
    [nc = (sr / n, sg / n, sb / n)]; the source evaluates it in doubles,
    and the two can differ when the exact distance is 5.  It serves as one
    instance of the parameter [moved] in closed examples, on inputs whose
    centroids do not move at all. *)
Definition movedExactly (c : RGB) (sr sg sb : Z) (n : nat) : bool :=
  let n := Z.of_nat n in
  (5 * n * n <? (r c * n - sr) ^ 2 + (g c * n - sg) ^ 2 + (b c * n - sb) ^ 2)%Z.

(** One update: [next] and the number of centroids that moved.  [moved] is
    the floating-point test [dist2(c, nc) > 5]. *)
Definition updateCentroids (moved : RGB → Z → Z → Z → nat → bool)
    (centroids : list RGB) (s : Sums) : list (Num * Num * Num) * nat :=
  (imap (λ i c,
      let n := default 0 (count s !! i) in
      if n =? 0 then (Int (r c), Int (g c), Int (b c))
      else
        let n' := Z.of_nat n in
        (Quot (default 0%Z (sumR s !! i)) n',
         Quot (default 0%Z (sumG s !! i)) n',
         Quot (default 0%Z (sumB s !! i)) n')) centroids,
   length (filter (λ '(i, c),
      let n := default 0 (count s !! i) in
      n ≠ 0 ∧
      moved c (default 0%Z (sumR s !! i)) (default 0%Z (sumG s !! i))
              (default 0%Z (sumB s !! i)) n = true)
     (imap pair centroids))).

(** Step 3, [for (let iter = 0; iter < maxIters; iter++)] with its early
    [break]. *)
Fixpoint kmeansLoop (moved : RGB → Z → Z → Z → nat → bool) (iters : nat)
    (samples : list RGB) (kk : nat) (centroids : list RGB) : list RGB :=
  match iters with
  | 0 => centroids
  | S iters' =>
      let '(next, movedCount) :=
        updateCentroids moved centroids (accumulate samples centroids kk) in
      let centroids :=
        (λ '(nr, ng, nb), {| r := clampByte nr; g := clampByte ng; b := clampByte nb |})
          <$> next in
      if movedCount =? 0 then centroids
      else kmeansLoop moved iters' samples kk centroids
  end.

(** Step 4, one pixel: transparent pixels are zeroed, the others take the
    nearest centroid at full alpha. *)
Definition quantizePixel (d : list Z) (centroids : list RGB) (p : nat)
    (st : list Z * list nat) : list Z * list nat :=
  let '(out, cnts) := st in
  let i := 4 * p in
  let a := byteAt d (i + 3) in
  if (a <? 20)%Z then (write4 i 0 0 0 0 out, cnts)
  else
    let px := {| r := byteAt d i; g := byteAt d (i + 1); b := byteAt d (i + 2) |} in
    let idx := nearestCentroidIndex px centroids in
    let c := default black (centroids !! idx) in
    (write4 i (toUint8Clamped (Some (r c))) (toUint8Clamped (Some (g c)))
            (toUint8Clamped (Some (b c))) 255 out,
     alter S idx cnts).

(** [quantizeKMeans].  [None]: the sampling loop or the centroid draw does
    not finish. *)
Definition quantizeKMeans (rnd : nat → nat) (moved : RGB → Z → Z → Z → nat → bool)
    (fuel : nat) (img : ImageData) (opts : QuantizeOptions) : option QuantizeResult :=
  let d := data img in
  let kk := Z.to_nat (Z.max 2 (Z.min 24 (k opts))) in
  let iters := default 12 (maxIters opts) in
  let stride := default 5 (sampleStride opts) in
  samples ← collectSamples (S (length d)) d stride 0 [];
  if length samples =? 0 then
    Some {| q_width := width img; q_height := height img;
            quantized := {| width := width img; height := height img; data := d |};
            palette := [black];
            counts := [width img * height img] |}
  else
    centroids ← pickInitialCentroids rnd fuel samples kk;
    let centroids := kmeansLoop moved iters samples kk centroids in
    let '(out, cnts) :=
      JS.for_lt (pixelSteps (length d)) (quantizePixel d centroids)
        (replicate (length d) 0%Z, replicate kk 0) in
    Some {| q_width := width img; q_height := height img;
            quantized := {| width := width img; height := height img; data := out |};
            palette := centroids;
            counts := cnts |}.

(** ** Colour reduction (core/imaging/reduceColors.ts) *)

(** [ReducedColor]; [percent] is a floating-point ratio of [count] and is
    left out. *)
Record ReducedColor := { hex : string; rc_count : nat }.

Record ReductionResult := {
  rr_width : nat;
  rr_height : nat;
  colors : list ReducedColor;
  colorCount : nat;
  rr_image : ImageData
}.

(** [arr.sort((a, b) => b.count - a.count)]: the sort is stable, and a
    stable sort by a fixed key has one result, computed here by
    insertion. *)
Fixpoint insertByCount (x : ReducedColor) (l : list ReducedColor) : list ReducedColor :=
  match l with
  | y :: l' => if rc_count x <? rc_count y then y :: insertByCount x l' else x :: l
  | [] => [x]
  end.

Definition sortByCountDesc (l : list ReducedColor) : list ReducedColor :=
  foldr insertByCount [] l.

Definition reportColors (q : QuantizeResult) : list ReducedColor :=
  let hexPalette := rgbPaletteToHex (palette q) in
  sortByCountDesc
    (filter (λ c, 0 < rc_count c)
       (imap (λ idx hx, {| hex := hx; rc_count := default 0 (counts q !! idx) |})
          hexPalette)).

(** [reduceColorsMainThread], from the decoded [ImageData] on. *)
Definition reduceColorsMainThread (rnd : nat → nat)
    (moved : RGB → Z → Z → Z → nat → bool) (fuel : nat)
    (imageData : ImageData) (k' : Z) : option ReductionResult :=
  q ← quantizeKMeans rnd moved fuel imageData
        {| k := k'; maxIters := Some 12; sampleStride := Some 5 |};
  let colors := reportColors q in
  Some {| rr_width := q_width q; rr_height := q_height q;
          colors := colors; colorCount := length colors;
          rr_image := quantized q |}.

(** ** Colour merge (core/imaging/mergeColors) *)

(** [a < 20] for a byte that may be [undefined]: [undefined < 20] is
    false. *)
Definition below20 (a : option Z) : bool :=
  match a with
  | Some z => (z <? 20)%Z
  | None => false
  end.

(** [x === n] for a byte [x] that may be [undefined] and a parsed channel
    [n] that may be [NaN]: neither [undefined] nor [NaN] equals anything. *)
Definition strictEq (x n : option Z) : bool :=
  match x, n with
  | Some a, Some c => (a =? c)%Z
  | _, _ => false
  end.

(** The four stores of a repaint: RGB of [c], alpha [255]. *)
Definition paint (c : ParsedRGB) (i : nat) (d : list Z) : list Z :=
  write4 i (toUint8Clamped (pr c)) (toUint8Clamped (pg c)) (toUint8Clamped (pb c)) 255 d.

Definition matchesAt (from : ParsedRGB) (d : list Z) (i : nat) : bool :=
  negb (below20 (d !! (i + 3)))
  && strictEq (d !! i) (pr from)
  && strictEq (d !! (i + 1)) (pg from)
  && strictEq (d !! (i + 2)) (pb from).

(** One iteration of the merge loop, at byte offset [4 * p]. *)
Definition mergePixel (from to : ParsedRGB) (p : nat) (st : list Z * nat) : list Z * nat :=
  let '(d, changedPixels) := st in
  let i := 4 * p in
  if matchesAt from d i then (paint to i d, S changedPixels) else st.

(** [mergeColorInImage], from the decoded [ImageData] to the mutated one
    and the number of changed pixels. *)
Definition mergeColorInImage (img : ImageData) (fromHex toHex : string) : ImageData * nat :=
  let from := hexToRgb fromHex in
  let to := hexToRgb toHex in
  let '(d, changedPixels) :=
    JS.for_lt (pixelSteps (length (data img))) (mergePixel from to) (data img, 0) in
  ({| width := width img; height := height img; data := d |}, changedPixels).

(** ** Speck removal (core/imaging/speckRemoval, indexMap) *)

Definition buildPaletteRgb (paletteHex : list string) : list ParsedRGB :=
  hexToRgb <$> paletteHex.

(** [pixelToPaletteIndex]: first exact match from index [i] on, else [-1]. *)
Fixpoint paletteIndexFrom (i : nat) (r' g' b' : option Z) (pal : list ParsedRGB) : Z :=
  match pal with
  | c :: pal' =>
      if strictEq r' (pr c) && strictEq g' (pg c) && strictEq b' (pb c)
      then Z.of_nat i
      else paletteIndexFrom (S i) r' g' b' pal'
  | [] => (-1)%Z
  end.

Definition pixelToPaletteIndex (r' g' b' : option Z) (paletteRgb : list ParsedRGB) : Z :=
  paletteIndexFrom 0 r' g' b' paletteRgb.

(** Conversion of an integer stored into an [Int16Array]. *)
Definition toInt16 (z : Z) : Z := ((z + 32768) mod 65536 - 32768)%Z.

Definition idx (x y w : nat) : nat := y * w + x.

Definition Point : Type := Z * Z.

Definition neighbors4 (pt : Point) : list Point :=
  let '(x, y) := pt in [(x + 1, y); (x - 1, y); (x, y + 1); (x, y - 1)]%Z.

Definition outside (w h : nat) (n : Point) : bool :=
  let '(x, y) := n in
  (x <? 0)%Z || (y <? 0)%Z || (Z.of_nat w <=? x)%Z || (Z.of_nat h <=? y)%Z.

Definition pointIdx (w : nat) (n : Point) : nat :=
  idx (Z.to_nat (fst n)) (Z.to_nat (snd n)) w.

(** The palette-index map of the raster. *)
Definition buildIndexMap (w h : nat) (d : list Z) (paletteRgb : list ParsedRGB) : list Z :=
  JS.for_lt h (λ y m,
    JS.for_lt w (λ x m,
      let p := (y * w + x) * 4 in
      if below20 (d !! (p + 3)) then <[idx x y w := toInt16 (-1)]> m
      else <[idx x y w :=
               toInt16 (pixelToPaletteIndex (d !! p) (d !! (p + 1)) (d !! (p + 2))
                          paletteRgb)]> m) m)
    (replicate (w * h) 0%Z).

(** The flood fill [while (queue.length > 0)]: the head of [queue] is the
    top of the stack; [cluster] grows at its end.  Every neighbour in
    bounds that is not yet visited is marked visited, whether or not it
    joins the cluster.  [None]: not finished within [fuel] pops. *)
Fixpoint floodFill (fuel : nat) (w h : nat) (map : list Z) (colorIndex : Z)
    (visited : list nat) (queue cluster : list Point)
    : option (list nat * list Point) :=
  match queue with
  | [] => Some (visited, cluster)
  | cur :: queue =>
      match fuel with
      | 0 => None
      | S fuel' =>
          let '(visited, queue, cluster) :=
            fold_left (λ '(visited, queue, cluster) n,
                if outside w h n then (visited, queue, cluster)
                else
                  let ni := pointIdx w n in
                  if JS.truthy (visited !! ni) then (visited, queue, cluster)
                  else
                    let visited := <[ni := 1]> visited in
                    if decide (map !! ni = Some colorIndex)
                    then (visited, n :: queue, cluster ++ [n])
                    else (visited, queue, cluster))
              (neighbors4 cur) (visited, queue, cluster) in
          floodFill fuel' w h map colorIndex visited queue cluster
      end
  end.

(** [borderCounts.set(c, (borderCounts.get(c) ?? 0) + 1)] on a [Map],
    which iterates in insertion order: an association list. *)
Fixpoint tally (c : Z) (borderCounts : list (Z * nat)) : list (Z * nat) :=
  match borderCounts with
  | (c', n) :: rest => if (c' =? c)%Z then (c', n + 1) :: rest else (c', n) :: tally c rest
  | [] => [(c, 1)]
  end.

Definition borderTally (w h : nat) (map : list Z) (colorIndex : Z)
    (cluster : list Point) : list (Z * nat) :=
  fold_left (λ borderCounts pt,
      fold_left (λ borderCounts n,
          if outside w h n then borderCounts
          else
            match map !! pointIdx w n with
            | Some c =>
                if (c <? 0)%Z || (c =? colorIndex)%Z then borderCounts
                else tally c borderCounts
            | None => borderCounts
            end)
        (neighbors4 pt) borderCounts)
    cluster [].

(** [replacement] starts as the cluster's own index, [best] as [-1]. *)
Definition chooseReplacement (colorIndex : Z) (borderCounts : list (Z * nat)) : Z :=
  fst (fold_left (λ '(replacement, best) '(c, cnt),
         if (best <? Z.of_nat cnt)%Z then (c, Z.of_nat cnt) else (replacement, best))
       borderCounts (colorIndex, (-1)%Z)).

Record SpeckState := {
  sp_data : list Z;
  sp_visited : list nat;
  removedPixels : nat
}.

(** The body of the cluster loop at start cell [(x, y)].  [None]: the
    flood fill has not finished, or [paletteRgb[replacement]] is
    [undefined] and reading its channels throws. *)
Definition speckCell (w h : nat) (map : list Z) (paletteRgb : list ParsedRGB)
    (minClusterSize : nat) (x y : nat) (st : SpeckState) : option SpeckState :=
  let start := idx x y w in
  if JS.truthy (sp_visited st !! start) then Some st
  else
    let colorIndex := default 0%Z (map !! start) in
    let visited := <[start := 1]> (sp_visited st) in
    if (colorIndex <? 0)%Z
    then Some {| sp_data := sp_data st; sp_visited := visited;
                 removedPixels := removedPixels st |}
    else
      let pt : Point := (Z.of_nat x, Z.of_nat y) in
      '(visited, cluster) ← floodFill (S (w * h)) w h map colorIndex visited [pt] [pt];
      if minClusterSize <=? length cluster
      then Some {| sp_data := sp_data st; sp_visited := visited;
                   removedPixels := removedPixels st |}
      else
        let borderCounts := borderTally w h map colorIndex cluster in
        let replacement := chooseReplacement colorIndex borderCounts in
        repRgb ← paletteRgb !! Z.to_nat replacement;
        Some (fold_left (λ st pt,
                let p := pointIdx w pt * 4 in
                {| sp_data := paint repRgb p (sp_data st);
                   sp_visited := sp_visited st;
                   removedPixels := S (removedPixels st) |})
              cluster
              {| sp_data := sp_data st; sp_visited := visited;
                 removedPixels := removedPixels st |}).

(** [removeSpecks], from the decoded [ImageData] to the mutated one and
    [removedPixels]. *)
Definition removeSpecks (img : ImageData) (paletteHex : list string)
    (minClusterSize : nat) : option (ImageData * nat) :=
  let w := width img in
  let h := height img in
  let paletteRgb := buildPaletteRgb paletteHex in
  let map := buildIndexMap w h (data img) paletteRgb in
  st ← JS.for_lt h (λ y st,
         JS.for_lt w (λ x st,
           st ≫= speckCell w h map paletteRgb minClusterSize x y) st)
       (Some {| sp_data := data img; sp_visited := replicate (w * h) 0;
                removedPixels := 0 |});
  Some ({| width := w; height := h; data := sp_data st |}, removedPixels st).

(** Number of pixels whose RGB bytes differ between two buffers. *)
Definition repaintedPixels (w h : nat) (before after : list Z) : nat :=
  length (filter (λ p,
      (before !! (4 * p), before !! (4 * p + 1), before !! (4 * p + 2))
      ≠ (after !! (4 * p), after !! (4 * p + 1), after !! (4 * p + 2)))
    (seq 0 (w * h))).


(** ** Vocabulary of the proofs *)

(** A colour all of whose channels are bytes. *)
Definition byteColor (c : RGB) : Prop := isByte (r c) ∧ isByte (g c) ∧ isByte (b c).

(** A parsed colour all of whose channels are bytes. *)
Definition isColor (c : ParsedRGB) : Prop :=
  ∃ r' g' b', c = {| pr := Some r'; pg := Some g'; pb := Some b' |} ∧
              isByte r' ∧ isByte g' ∧ isByte b'.

Definition pick4 (k : nat) (v0 v1 v2 v3 : Z) : Z :=
  match k with 0 => v0 | 1 => v1 | 2 => v2 | _ => v3 end.

(** The clamped [k] of [quantizeKMeans]. *)
Definition clampK (opts : QuantizeOptions) : nat :=
  Z.to_nat (Z.max 2 (Z.min 24 (k opts))).

(** The pixel of index [p], whether it is opaque, and the centroid the
    final pass assigns to it. *)
Definition pixelAt (d : list Z) (p : nat) : RGB :=
  {| r := byteAt d (4 * p); g := byteAt d (4 * p + 1); b := byteAt d (4 * p + 2) |}.

Definition opaqueAt (d : list Z) (p : nat) : bool :=
  negb (byteAt d (4 * p + 3) <? 20)%Z.

Definition assigned (d : list Z) (cs : list RGB) (p : nat) : RGB :=
  default black (cs !! nearestCentroidIndex (pixelAt d p) cs).

(** The two components of [quantizePixel]. *)
Definition quantizeData (d : list Z) (cs : list RGB) (p : nat) (out : list Z) : list Z :=
  if opaqueAt d p then
    let c := assigned d cs p in
    write4 (4 * p) (toUint8Clamped (Some (r c))) (toUint8Clamped (Some (g c)))
           (toUint8Clamped (Some (b c))) 255 out
  else write4 (4 * p) 0 0 0 0 out.

Definition quantizeCount (d : list Z) (cs : list RGB) (p : nat) (cnts : list nat) : list nat :=
  if opaqueAt d p then alter S (nearestCentroidIndex (pixelAt d p) cs) cnts else cnts.

(** Number of opaque pixels below [n] whose nearest centroid is [i]. *)
Definition coverage (d : list Z) (cs : list RGB) (n i : nat) : nat :=
  length (filter (λ p, opaqueAt d p = true ∧ nearestCentroidIndex (pixelAt d p) cs = i)
                 (seq 0 n)).

(** The data component of [mergePixel], and of the whole merge loop. *)
Definition mergeData (from to : ParsedRGB) (p : nat) (d : list Z) : list Z :=
  if matchesAt from d (4 * p) then paint to (4 * p) d else d.

Definition merged (from to : ParsedRGB) (d : list Z) : list Z :=
  JS.for_lt (pixelSteps (length d)) (mergeData from to) d.

(** [a] may stand before [c] in the report: its count is not smaller. *)
Definition before (a c : ReducedColor) : Prop := rc_count c ≤ rc_count a.

(** The two characters [rgbToHex] writes for a channel, and the check that
    they parse back to it. *)
Definition hexPair (v : Z) : list ascii := toUpperCase <$> padStart2 (toString16 v).

Definition hexPairOk (n : nat) : bool :=
  match hexPair (Z.of_nat n) with
  | [a1; a2] =>
      negb (isWhiteSpace a1) && negb (isWhiteSpace a2)
      && bool_decide (parseInt16 [a1; a2] = Some (Z.of_nat n))
  | _ => false
  end.

(** ** Concrete rasters *)

(** A 10 x 10 raster whose pixels all have alpha 0. *)
Definition clear10x10 : ImageData :=
  {| width := 10; height := 10; data := replicate 100 37%Z ≫= (λ v, [v; v; v; 0%Z]) |}.

(** One transparent pixel that still carries colour bytes. *)
Definition faint : ImageData :=
  {| width := 1; height := 1; data := [10; 20; 30; 5]%Z |}.

(** Red, a transparent blue, and a near-red at alpha 200. *)
Definition two_tone : ImageData :=
  {| width := 3; height := 1;
     data := [255; 0; 0; 255;  0; 0; 255; 10;  250; 10; 10; 200]%Z |}.

Definition every_pixel : QuantizeOptions :=
  {| k := 2; maxIters := None; sampleStride := Some 1 |}.

Definition two_tone_quantized : QuantizeResult :=
  {| q_width := 3; q_height := 1;
     quantized := {| width := 3; height := 1;
                     data := [255; 0; 0; 255;  0; 0; 0; 0;  250; 10; 10; 255]%Z |};
     palette := [{| r := 255; g := 0; b := 0 |}; {| r := 250; g := 10; b := 10 |}];
     counts := [1; 1] |}.

Definition two_tone_reduced : ReductionResult :=
  {| rr_width := 3; rr_height := 1;
     colors := [{| hex := "#FF0000"; rc_count := 2 |}];
     colorCount := 1;
     rr_image := {| width := 3; height := 1;
                    data := [255; 0; 0; 255;  0; 0; 0; 0;  255; 0; 0; 255]%Z |} |}.

(** Red, opaque green, transparent green. *)
Definition stripes : ImageData :=
  {| width := 3; height := 1;
     data := [255; 0; 0; 255;  0; 255; 0; 200;  0; 255; 0; 10]%Z |}.

Definition red_green_green : ImageData :=
  {| width := 3; height := 1;
     data := [255; 0; 0; 255;  0; 255; 0; 255;  0; 255; 0; 255]%Z |}.

Definition all_red_2x2 : ImageData :=
  {| width := 2; height := 2;
     data := [255; 0; 0; 255;  255; 0; 0; 255;  255; 0; 0; 255;  255; 0; 0; 255]%Z |}.

Definition red_half_alpha : ImageData :=
  {| width := 1; height := 1; data := [255; 0; 0; 200]%Z |}.


(** ** Majority filter (core/imaging/majorityFilter.ts) *)

(** A tallied colour: the three channels that [rgbKey] prints, each a
    byte or [undefined]. *)
Definition ColorKey : Type := option Z * option Z * option Z.

(** [getPixel]. *)
Definition getPixel (d : list Z) (w x y : nat) : ColorKey * option Z :=
  let p := (y * w + x) * 4 in
  ((d !! p, d !! (p + 1), d !! (p + 2)), d !! (p + 3)).

(** [counts.set(k, { rgb: p, count: (counts.get(k)?.count ?? 0) + 1 })] on a
    [Map], which iterates in insertion order. *)
Fixpoint tallyColor (key : ColorKey) (counts : list (ColorKey * nat)) : list (ColorKey * nat) :=
  match counts with
  | (key', n) :: rest =>
      if decide (key' = key) then (key', n + 1) :: rest
      else (key', n) :: tallyColor key rest
  | [] => [(key, 1)]
  end.

(** The tally of the 3 x 3 neighbourhood of [(x, y)], [dy] outermost;
    offset [o] in [0, 1, 2] stands for [-1, 0, 1]. *)
Definition neighbourhoodCounts (src : list Z) (w x y : nat) : list (ColorKey * nat) :=
  fold_left (λ counts oy,
      fold_left (λ counts ox,
          let '(key, a) := getPixel src w (x + ox - 1) (y + oy - 1) in
          if below20 a then counts else tallyColor key counts)
        [0; 1; 2] counts)
    [0; 1; 2] [].

(** [best] starts as the centre with count 0 and moves to the first entry
    of greatest count. *)
Definition bestColor (center : ColorKey) (counts : list (ColorKey * nat)) : ColorKey * nat :=
  fold_left (λ best v, if best.2 <? v.2 then v else best) counts (center, 0).

(** The body of the inner loop at interior pixel [(x, y)]: reads [src],
    writes [out]. *)
Definition majorityPixel (src : list Z) (w x y : nat) (out : list Z) : list Z :=
  let '(center, a) := getPixel src w x y in
  if below20 a then out
  else
    let best := bestColor center (neighbourhoodCounts src w x y) in
    if 5 <=? best.2 then
      let '(br, bg, bb) := best.1 in
      write4 ((y * w + x) * 4) (toUint8Clamped br) (toUint8Clamped bg)
             (toUint8Clamped bb) 255 out
    else out.

(** One pass: [out] starts as a copy of [src]; rows and columns [1] to
    [h - 2] and [w - 2]. *)
Definition majorityPass (w h : nat) (src : list Z) : list Z :=
  JS.for_from 1 (h - 1) (λ y out,
    JS.for_from 1 (w - 1) (λ x out, majorityPixel src w x y out) out) src.

(** [majorityFilter], from the decoded [ImageData] to the filtered one. *)
Definition majorityFilter (img : ImageData) (passes : nat) : ImageData :=
  {| width := width img; height := height img;
     data := JS.for_lt passes (λ _ d, majorityPass (width img) (height img) d) (data img) |}.

(** ** Separation plates (core/imaging/separations.ts) *)

(** [isSameColor]. *)
Definition isSameColor (r' g' b' : option Z) (rgb : ParsedRGB) : bool :=
  strictEq r' (pr rgb) && strictEq g' (pg rgb) && strictEq b' (pb rgb).

(** One iteration of the plate loop: black ink at full alpha on a match,
    a transparent pixel otherwise; pixels of alpha below 20 are skipped. *)
Definition platePixel (d : list Z) (rgb : ParsedRGB) (p : nat)
    (st : list Z * nat) : list Z * nat :=
  let '(out, count') := st in
  let i := 4 * p in
  if below20 (d !! (i + 3)) then st
  else if isSameColor (d !! i) (d !! (i + 1)) (d !! (i + 2)) rgb
       then (write4 i 0 0 0 255 out, S count')
       else (write4 i 0 0 0 0 out, count').

(** [SeparationPlate].  In place of the PNG of the plate canvas stand
    [plate_data], the raster that [putImageData] writes on the canvas, and
    [plate_marks], whether the four corner registration marks are then
    stroked over that raster in black; the marks are canvas strokes and are
    not computed here.  [plate_count] is the pixel count behind the
    floating-point [coveragePercent]. *)
Record SeparationPlate := {
  plate_hex : string;
  plate_name : string;
  plate_width : nat;
  plate_height : nat;
  plate_data : list Z;
  plate_marks : bool;
  plate_count : nat
}.

(** The plate of one colour: the body of the loop over [colors]. *)
Definition separationPlate (img : ImageData) (marks : bool) (c : ReducedColor)
    : SeparationPlate :=
  let rgb := hexToRgb (hex c) in
  let '(out, count') :=
    JS.for_lt (pixelSteps (length (data img))) (platePixel (data img) rgb)
      (replicate (4 * (width img * height img)) 0%Z, 0) in
  {| plate_hex := hex c;
     plate_name := String.string_of_list_ascii
                     (removeFirstHash (String.list_ascii_of_string (hex c)));
     plate_width := width img; plate_height := height img;
     plate_data := out; plate_marks := marks; plate_count := count' |}.

(** [generateSeparationPlates]; [addRegistrationMarks] is optional and
    defaults to [true]. *)
Definition generateSeparationPlates (img : ImageData) (colors' : list ReducedColor)
    (addRegistrationMarks : option bool) : list SeparationPlate :=
  separationPlate img (default true addRegistrationMarks) <$> colors'.

(** ** Vocabulary of the further proofs *)

(** The data and counter components of [platePixel]. *)
Definition inked (d : list Z) (rgb : ParsedRGB) (p : nat) : bool :=
  negb (below20 (d !! (4 * p + 3)))
  && isSameColor (d !! (4 * p)) (d !! (4 * p + 1)) (d !! (4 * p + 2)) rgb.

Definition plateData (d : list Z) (rgb : ParsedRGB) (p : nat) (out : list Z) : list Z :=
  if below20 (d !! (4 * p + 3)) then out
  else if isSameColor (d !! (4 * p)) (d !! (4 * p + 1)) (d !! (4 * p + 2)) rgb
       then write4 (4 * p) 0 0 0 255 out
       else write4 (4 * p) 0 0 0 0 out.

(** Number of pixels below [n] that the merge repaints. *)
Definition matching (from : ParsedRGB) (d : list Z) (n : nat) : nat :=
  length (filter (λ p, matchesAt from d (4 * p) = true) (seq 0 n)).

(** Number of opaque pixels below [n]. *)
Definition opaqueCount (d : list Z) (n : nat) : nat :=
  length (filter (λ p, opaqueAt d p = true) (seq 0 n)).

(** The body of the neighbour loop of the flood fill. *)
Definition visitNeighbour (w h : nat) (map : list Z) (colorIndex : Z)
    : list nat * list Point * list Point → Point → list nat * list Point * list Point :=
  λ '(visited, queue, cluster) n,
  if outside w h n then (visited, queue, cluster)
  else
    let ni := pointIdx w n in
    if JS.truthy (visited !! ni) then (visited, queue, cluster)
    else
      let visited := <[ni := 1]> visited in
      if decide (map !! ni = Some colorIndex)
      then (visited, n :: queue, cluster ++ [n])
      else (visited, queue, cluster).

(** A cell of the [w] x [h] raster whose palette index is [colorIndex]. *)
Definition cellOf (w h : nat) (map : list Z) (colorIndex : Z) (pt : Point) : Prop :=
  outside w h pt = false ∧ map !! pointIdx w pt = Some colorIndex.

(** Number of cells of the visited map that are still unvisited. *)
Definition unvisited (visited : list nat) : nat :=
  length (filter (λ v, JS.truthy (Some v) = false) visited).

(** More concrete rasters. *)
Definition plus_3x3 : ImageData :=
  {| width := 3; height := 3;
     data := [9; 9; 9; 255;  1; 1; 1; 255;  9; 9; 9; 255;
              1; 1; 1; 255;  7; 7; 7; 255;  1; 1; 1; 255;
              9; 9; 9; 255;  1; 1; 1; 255;  1; 1; 1; 255]%Z |}.

Definition two_inks : ImageData :=
  {| width := 2; height := 2;
     data := [255; 0; 0; 255;  0; 255; 0; 255;
              255; 0; 0; 255;  0; 255; 0; 5]%Z |}.

End Imaging.

(* ===================================================================== *)
(** * Grid utilities of the jacquard, knit and tuft editors *)
(* ===================================================================== *)

Module GridUtils.

(** [idx]. *)
Definition idx (x y w : nat) : nat := y * w + x.

(** [fromIdx]: [index % w] and [floor(index / w)]; with [w = 0] neither
    is a number. *)
Definition fromIdx (index w : nat) : option (nat * nat) :=
  if w =? 0 then None else Some (index mod w, index / w).

(** [resizeGrid]: a fresh grid filled with [fill], then the common corner
    copied from the old grid; a read past the old buffer is [undefined]
    and stores [0]. *)
Definition resizeGrid (grid : list nat) (oldWidth oldHeight newWidth newHeight fill : nat)
    : list nat :=
  let newGrid := replicate (newWidth * newHeight) (JS.toUint16 (Some fill)) in
  let copyW := Nat.min oldWidth newWidth in
  let copyH := Nat.min oldHeight newHeight in
  JS.for_lt copyH (λ y g,
    JS.for_lt copyW (λ x g,
      <[idx x y newWidth := JS.toUint16 (grid !! idx x y oldWidth)]> g) g) newGrid.

(** [fillGridRegion]: both loops run over the closed ranges between the
    corners. *)
Definition fillGridRegion (grid : list nat) (width x1 y1 x2 y2 value : nat) : list nat :=
  let minX := Nat.min x1 x2 in
  let maxX := Nat.max x1 x2 in
  let minY := Nat.min y1 y2 in
  let maxY := Nat.max y1 y2 in
  JS.for_from minY (S maxY) (λ y g,
    JS.for_from minX (S maxX) (λ x g,
      <[idx x y width := JS.toUint16 (Some value)]> g) g) grid.

(** [resizeKnitGrid] (knitUtils): a zeroed [Uint8Array], then the common
    corner. *)
Definition resizeKnitGrid (oldGrid : list nat) (oldW oldH newW newH : nat) : list nat :=
  JS.for_lt (Nat.min oldH newH) (λ y next,
    JS.for_lt (Nat.min oldW newW) (λ x next,
      <[y * newW + x := JS.toUint8 (oldGrid !! (y * oldW + x))]> next) next)
    (replicate (newW * newH) 0).

(** [resizeTuftGrids] (tuftUtils): the three maps are resized in one double
    loop; fresh cells hold yarn 0, pile 40 and cut 1. *)
Definition resizeTuftGrids (colorMap pileMap cutMap : list nat) (oldW oldH newW newH : nat)
    : list nat * list nat * list nat :=
  JS.for_lt (Nat.min oldH newH) (λ y maps,
    JS.for_lt (Nat.min oldW newW) (λ x '(newColorMap, newPileMap, newCutMap),
      let oldIdx := y * oldW + x in
      let newIdx := y * newW + x in
      (<[newIdx := JS.toUint8 (colorMap !! oldIdx)]> newColorMap,
       <[newIdx := JS.toUint8 (pileMap !! oldIdx)]> newPileMap,
       <[newIdx := JS.toUint8 (cutMap !! oldIdx)]> newCutMap)) maps)
    (replicate (newW * newH) 0, replicate (newW * newH) 40, replicate (newW * newH) 1).

End GridUtils.

(* ===================================================================== *)
(** * Loops *)
(* ===================================================================== *)

Section Loops.
Context {St : Type}.

Lemma for_lt_S (n : nat) (body : nat → St → St) (st : St) :
  JS.for_lt (S n) body st = body n (JS.for_lt n body st).
Proof.
  unfold JS.for_lt. rewrite seq_S, fold_left_app. reflexivity.
Qed.

(** Invariant rule for the counted loop. *)
Lemma for_lt_ind (P : nat → St → Prop) (n : nat) (body : nat → St → St) (st : St) :
  P 0 st →
  (∀ i s, i < n → P i s → P (S i) (body i s)) →
  P n (JS.for_lt n body st).
Proof.
  intros H0 Hstep. induction n as [|n IH].
  - exact H0.
  - rewrite for_lt_S. apply Hstep; [lia|]. apply IH.
    intros i s Hi. apply Hstep. lia.
Qed.
End Loops.

Section Grid.
Context {A : Type}.
Variables (W H : nat) (f : nat → nat → A).

Lemma filledUpTo_row (y : nat) (d : list A) :
  y < H → JS.filledUpTo W H f y 0 d →
  JS.filledUpTo W H f (S y) 0 (JS.for_lt W (λ x d, <[y * W + x := f x y]> d) d).
Proof.
  intros Hy Hd.
  cut (JS.filledUpTo W H f y W (JS.for_lt W (λ x d, <[y * W + x := f x y]> d) d)).
  { intros [Hlen Hc]. split; [exact Hlen|].
    intros x' y' Hx' Hy'. apply Hc; [exact Hx'|].
    destruct Hy' as [Hy'|[_ Hy']]; [|lia].
    destruct (decide (y' = y)) as [->|]; [right|left]; lia. }
  apply (for_lt_ind (λ x d, JS.filledUpTo W H f y x d)); [exact Hd|].
  intros x s Hx [Hlen Hc]. split.
  - rewrite length_insert. exact Hlen.
  - intros x' y' Hx' Hcase.
    destruct (decide (y' = y ∧ x' = x)) as [[-> ->]|Hne].
    + apply list_lookup_insert_eq. rewrite Hlen. nia.
    + rewrite list_lookup_insert_ne by nia.
      apply Hc; [exact Hx'|]. lia.
Qed.

(** A grid filled row by row has the size of its buffer and holds [f x y]
    at [y * W + x]. *)
Lemma fillGrid_spec (d0 : list A) :
  length d0 = W * H →
  length (JS.fillGrid W H f d0) = W * H ∧
  ∀ x y, x < W → y < H → JS.fillGrid W H f d0 !! (y * W + x) = Some (f x y).
Proof.
  intros Hlen.
  cut (JS.filledUpTo W H f H 0 (JS.fillGrid W H f d0)).
  { intros [Hl Hc]. split; [exact Hl|]. intros x y Hx Hy. apply Hc; [exact Hx|]. lia. }
  unfold JS.fillGrid.
  apply (for_lt_ind (λ y d, JS.filledUpTo W H f y 0 d)).
  - split; [exact Hlen|]. intros x' y' _ [Hy'|[_ Hx']]; lia.
  - intros y s Hy Hs. apply filledUpTo_row; assumption.
Qed.

(** A row filled in place holds [g i] at every index below the loop bound
    that the buffer has. *)
Lemma fillRow_lookup (g : nat → A) (n : nat) (l : list A) (i : nat) :
  i < n → i < length l →
  JS.for_lt n (λ i t, <[i := g i]> t) l !! i = Some (g i).
Proof.
  intros Hi Hl.
  cut (length (JS.for_lt n (λ i t, <[i := g i]> t) l) = length l ∧
       ∀ j, j < n → j < length l →
            JS.for_lt n (λ i t, <[i := g i]> t) l !! j = Some (g j)).
  { intros [_ Hall]. by apply Hall. }
  apply (for_lt_ind (λ m t, length t = length l ∧
                            ∀ j, j < m → j < length l → t !! j = Some (g j))).
  - split; [done|]. intros j Hj. lia.
  - intros m t Hm [Hlen Ht]. split; [by rewrite length_insert|].
    intros j Hj Hjl. destruct (decide (j = m)) as [->|Hne].
    + apply list_lookup_insert_eq. lia.
    + rewrite list_lookup_insert_ne by done. apply Ht; lia.
Qed.
End Grid.

Section JSNumbers.

Lemma rem_lt (a b : nat) : a < b → JS.rem a b = Some a.
Proof.
  intros Hab. unfold JS.rem.
  destruct (Nat.eqb_spec b 0) as [->|_]; [lia|].
  by rewrite Nat.mod_small.
Qed.

Lemma truthy_Some (v : nat) : JS.truthy (Some v) = negb (v =? 0).
Proof. by destruct v. Qed.

Lemma rem_second_tile (w i : nat) : i < w → JS.rem (w + i) w = Some i.
Proof.
  intros Hi. unfold JS.rem.
  destruct (Nat.eqb_spec w 0) as [->|_]; [lia|].
  f_equal. symmetry. apply (Nat.mod_unique _ _ 1); lia.
Qed.

Lemma oddQuotient_second_tile (w i : nat) : i < w → JS.oddQuotient (w + i) w = true.
Proof.
  intros Hi. unfold JS.oddQuotient.
  destruct (Nat.eqb_spec w 0) as [->|_]; [lia|].
  replace ((w + i) / w) with 1; [done|].
  apply (Nat.div_unique _ _ 1 i); lia.
Qed.

Lemma oddQuotient_first_tile (w j : nat) : j < w → JS.oddQuotient j w = false.
Proof.
  intros Hj. unfold JS.oddQuotient.
  destruct (Nat.eqb_spec w 0) as [->|_]; [done|].
  by rewrite Nat.div_small.
Qed.
End JSNumbers.

(* ===================================================================== *)
(** * Dobby drawdown *)
(* ===================================================================== *)

Section WeaveDrawdown.
Import Weave.

(** The drawdown has [outWidth * outHeight] cells and cell [(x, y)] holds
    the value of the loop body. *)
Lemma generateDrawdown_cells (m : WeaveModel) :
  length (generateDrawdown m) = outWidth m * outHeight m ∧
  ∀ x y, x < outWidth m → y < outHeight m →
    generateDrawdown m !! (y * outWidth m + x) = Some (drawdownCell m x y).
Proof.
  apply (fillGrid_spec (outWidth m) (outHeight m) (drawdownCell m)).
  apply length_replicate.
Qed.

(** C1. For a draft whose threading entries are all below [harnessCount]
    and whose treadling entries are all below [treadleCount], with repeat
    1 x 1 and no mirror, [generateDrawdown] returns exactly
    [warpCount * weftCount] cells, and the cell at [(x, y)] is 1 when
    [tieUp[threading[x] * treadleCount + treadling[y]]] is non-zero and 0
    otherwise. *)
Theorem drawdown_plain_cells (m : WeaveModel) :
  repeat m = Some {| warp := 1; weft := 1 |} →
  symmetry m = Some {| warpMirror := false; weftMirror := false |} →
  length (threading m) = warpCount m →
  length (treadling m) = weftCount m →
  length (tieUp m) = harnessCount m * treadleCount m →
  Forall (λ h, h < harnessCount m) (threading m) →
  Forall (λ t, t < treadleCount m) (treadling m) →
  length (generateDrawdown m) = warpCount m * weftCount m ∧
  ∀ x y, x < warpCount m → y < weftCount m →
    ∃ h t v,
      threading m !! x = Some h ∧
      treadling m !! y = Some t ∧
      tieUp m !! (h * treadleCount m + t) = Some v ∧
      generateDrawdown m !! (y * warpCount m + x)
        = Some (if v =? 0 then 0 else 1).
Proof.
  intros Hrep Hsym Hth Htr Htu Hthr Htrr.
  destruct (generateDrawdown_cells m) as [Hlen Hcells].
  assert (HW : outWidth m = warpCount m).
  { unfold outWidth, repeatWarp. rewrite Hrep. simpl. lia. }
  assert (HH : outHeight m = weftCount m).
  { unfold outHeight, repeatWeft. rewrite Hrep. simpl. lia. }
  rewrite HW, HH in *. split; [exact Hlen|].
  intros x y Hx Hy.
  destruct (lookup_lt_is_Some_2 (threading m) x) as [h Hh]; [lia|].
  destruct (lookup_lt_is_Some_2 (treadling m) y) as [t Ht]; [lia|].
  assert (Hhlt : h < harnessCount m).
  { exact (Forall_lookup_1 _ _ _ _ Hthr Hh). }
  assert (Htlt : t < treadleCount m).
  { exact (Forall_lookup_1 _ _ _ _ Htrr Ht). }
  destruct (lookup_lt_is_Some_2 (tieUp m) (h * treadleCount m + t)) as [v Hv]; [nia|].
  exists h, t, v. split_and!; try done.
  rewrite Hcells by done.
  unfold drawdownCell, mirrorsWarp, mirrorsWeft. rewrite Hsym. simpl.
  rewrite !rem_lt by done. simpl. rewrite Hh, Ht. simpl. rewrite Hv.
  rewrite truthy_Some. by destruct (v =? 0).
Qed.

Lemma drawdown_plain_cells_witness :
  length (generateDrawdown draft_2x2) = 4 ∧
  ∀ x y, x < 2 → y < 2 →
    ∃ h t v,
      threading draft_2x2 !! x = Some h ∧
      treadling draft_2x2 !! y = Some t ∧
      tieUp draft_2x2 !! (h * 2 + t) = Some v ∧
      generateDrawdown draft_2x2 !! (y * 2 + x) = Some (if v =? 0 then 0 else 1).
Proof.
  apply (drawdown_plain_cells draft_2x2); try reflexivity.
  - repeat constructor.
  - repeat constructor.
Defined.

Lemma drawdownCell_warp_reflect (m : WeaveModel) (i y : nat) :
  mirrorsWarp m = true → i < warpCount m →
  drawdownCell m (warpCount m + i) y = drawdownCell m (warpCount m - 1 - i) y.
Proof.
  intros Hmir Hi. unfold drawdownCell. rewrite Hmir.
  rewrite rem_second_tile, oddQuotient_second_tile by done.
  rewrite (rem_lt (warpCount m - 1 - i)), (oddQuotient_first_tile (warpCount m)) by lia.
  reflexivity.
Qed.

(** C2, as the code has it. With the warp mirror on and [repeat.warp = 2],
    the second tile is the reflection of the first across the tile
    boundary: for [i < warpCount] and every row [y], the cell at
    [(warpCount + i, y)] equals the cell at [(warpCount - 1 - i, y)]. *)
Theorem warp_mirror_reflects_across_boundary (m : WeaveModel) (i y : nat) :
  mirrorsWarp m = true →
  repeatWarp m = 2 →
  i < warpCount m →
  y < outHeight m →
  let d := generateDrawdown m in
  d !! (y * outWidth m + (warpCount m + i))
    = d !! (y * outWidth m + (warpCount m - 1 - i)) ∧
  is_Some (d !! (y * outWidth m + (warpCount m + i))).
Proof.
  intros Hmir Hrep Hi Hy d.
  destruct (generateDrawdown_cells m) as [_ Hcells].
  assert (HW : outWidth m = warpCount m * 2) by (unfold outWidth; by rewrite Hrep).
  unfold d. rewrite !Hcells by lia.
  rewrite drawdownCell_warp_reflect by done. eauto.
Qed.

Lemma warp_mirror_reflects_witness :
  let d := generateDrawdown mirrored_draft in
  d !! (0 * 4 + (2 + 1)) = d !! (0 * 4 + (2 - 1 - 1)) ∧
  is_Some (d !! (0 * 4 + (2 + 1))).
Proof.
  apply (warp_mirror_reflects_across_boundary mirrored_draft 1 0);
    [reflexivity | reflexivity | simpl; lia | vm_compute; lia].
Defined.

(** C2, as stated, fails: on the mirrored two-end draft the drawdown is
    [1 0 0 1], and the cells at [(warpCount + 0, 0)] and
    [(2 * warpCount - 1 - 0, 0)] are 0 and 1. *)
Lemma warp_mirror_second_tile_not_palindrome :
  generateDrawdown mirrored_draft = [1; 0; 0; 1] ∧
  ¬ (∀ i y, i < warpCount mirrored_draft → y < outHeight mirrored_draft →
       generateDrawdown mirrored_draft
         !! (y * outWidth mirrored_draft + (warpCount mirrored_draft + i))
       = generateDrawdown mirrored_draft
         !! (y * outWidth mirrored_draft + (2 * warpCount mirrored_draft - 1 - i))).
Proof.
  split; [reflexivity|].
  intros Hall. specialize (Hall 0 0). vm_compute in Hall.
  assert (Heq : Some 0 = Some 1) by (apply Hall; lia).
  discriminate Heq.
Qed.

(** C7, as stated, fails on the editor's default model (four shafts, four
    treadles) after [applyPlainWeave] and [applyStraightDraw]: the tie-up
    is the 4 x 4 diagonal and row 0 of the drawdown starts [1 0 0 ...], so
    the cells [(0, 0)] and [(2, 0)] differ, the cells [(0, 0)] and
    [(0, 2)] differ, and the adjacent cells [(1, 0)] and [(2, 0)] are
    equal. *)
Theorem plain_weave_four_shafts_not_checkerboard :
  let m := default_plain_straight in
  let d := generateDrawdown m in
  repeat m = Some {| warp := 1; weft := 1 |} ∧
  tieUp m = [1; 0; 0; 0;  0; 1; 0; 0;  0; 0; 1; 0;  0; 0; 0; 1] ∧
  take 8 (threading m) = [0; 1; 2; 3; 0; 1; 2; 3] ∧
  take 8 (treadling m) = [0; 1; 2; 3; 0; 1; 2; 3] ∧
  d !! (0 * 64 + 0) = Some 1 ∧
  d !! (0 * 64 + 1) = Some 0 ∧
  d !! (0 * 64 + 2) = Some 0 ∧
  d !! (2 * 64 + 0) = Some 0 ∧
  warpCount m = 64 ∧ weftCount m = 64 ∧
  ¬ (∀ x y, x + 2 < 64 → y < 64 → d !! (y * 64 + (x + 2)) = d !! (y * 64 + x)) ∧
  ¬ (∀ x y, x < 64 → y + 2 < 64 → d !! ((y + 2) * 64 + x) = d !! (y * 64 + x)) ∧
  ¬ (∀ x y, x + 1 < 64 → y < 64 → d !! (y * 64 + (x + 1)) ≠ d !! (y * 64 + x)).
Proof.
  cbv zeta.
  assert (Hcells :
    repeat default_plain_straight = Some {| warp := 1; weft := 1 |} ∧
    tieUp default_plain_straight
      = [1; 0; 0; 0;  0; 1; 0; 0;  0; 0; 1; 0;  0; 0; 0; 1] ∧
    take 8 (threading default_plain_straight) = [0; 1; 2; 3; 0; 1; 2; 3] ∧
    take 8 (treadling default_plain_straight) = [0; 1; 2; 3; 0; 1; 2; 3] ∧
    generateDrawdown default_plain_straight !! (0 * 64 + 0) = Some 1 ∧
    generateDrawdown default_plain_straight !! (0 * 64 + 1) = Some 0 ∧
    generateDrawdown default_plain_straight !! (0 * 64 + 2) = Some 0 ∧
    generateDrawdown default_plain_straight !! (2 * 64 + 0) = Some 0)
    by (vm_compute; repeat split).
  destruct Hcells as (Hrep & Htu & Hth & Htr & H00 & H10 & H20 & H02).
  split_and!; try assumption; try reflexivity.
  - intros Hall. pose proof (Hall 0 0 ltac:(lia) ltac:(lia)) as Heq.
    cbn [Nat.add] in Heq. rewrite H20, H00 in Heq. discriminate Heq.
  - intros Hall. pose proof (Hall 0 0 ltac:(lia) ltac:(lia)) as Heq.
    cbn [Nat.add] in Heq. rewrite H02, H00 in Heq. discriminate Heq.
  - intros Hall. pose proof (Hall 1 0 ltac:(lia) ltac:(lia)) as Hne.
    cbn [Nat.add] in Hne. rewrite H20, H10 in Hne. exact (Hne eq_refl).
Qed.

(** The cells of the two-shaft plain weave. *)
Lemma plain_weave_two_shafts_cell (m : WeaveModel) (x y : nat) :
  harnessCount m = 2 → treadleCount m = 2 →
  length (threading m) = warpCount m → length (treadling m) = weftCount m →
  repeat m = Some {| warp := 1; weft := 1 |} →
  x < warpCount m → y < weftCount m →
  generateDrawdown (applyStraightDraw (applyPlainWeave m)) !! (y * warpCount m + x)
  = Some (if x mod 2 =? y mod 2 then 1 else 0).
Proof.
  intros Hh Ht Hth Htr Hrep Hx Hy.
  set (m' := applyStraightDraw (applyPlainWeave m)).
  destruct (generateDrawdown_cells m') as [_ Hcells].
  assert (HW : outWidth m' = warpCount m).
  { unfold outWidth, repeatWarp. simpl. rewrite Hrep. simpl. lia. }
  assert (HH : outHeight m' = weftCount m).
  { unfold outHeight, repeatWeft. simpl. rewrite Hrep. simpl. lia. }
  rewrite <- HW at 1. rewrite Hcells by lia.
  unfold drawdownCell.
  cbn [m' applyStraightDraw applyPlainWeave set_treadling set_threading set_tieUp
       warpCount weftCount harnessCount treadleCount threading treadling tieUp].
  rewrite Hh, Ht.
  rewrite !rem_lt, !oddQuotient_first_tile by done.
  destruct (mirrorsWarp m'), (mirrorsWeft m');
    cbn [mbind option_bind];
    rewrite !(fillRow_lookup (λ i, JS.toUint8 (JS.rem i 2))) by lia;
    cbn [mbind option_bind JS.rem Nat.eqb JS.toUint8];
    pose proof (Nat.mod_upper_bound x 2 ltac:(lia)) as Hx2;
    pose proof (Nat.mod_upper_bound y 2 ltac:(lia)) as Hy2;
    rewrite !(Nat.mod_small (_ mod 2) 256) by lia;
    destruct (x mod 2) as [|[|?]], (y mod 2) as [|[|?]]; try lia; reflexivity.
Qed.

(** C7, as the code has it. On two shafts and two treadles, for a draft
    whose threading and treadling arrays have [warpCount] and [weftCount]
    entries and whose repeat is 1 x 1, [applyPlainWeave] and
    [applyStraightDraw] followed by [generateDrawdown] give a checkerboard
    of period 2: cell [(x, y)] is [1] iff [x] and [y] have the same parity,
    it equals the cells [(x + 2, y)] and [(x, y + 2)], and it differs from
    the adjacent cells [(x + 1, y)] and [(x, y + 1)]. *)
Theorem plain_weave_two_shafts_checkerboard (m : WeaveModel) (x y : nat) :
  harnessCount m = 2 → treadleCount m = 2 →
  length (threading m) = warpCount m → length (treadling m) = weftCount m →
  repeat m = Some {| warp := 1; weft := 1 |} →
  x < warpCount m → y < weftCount m →
  let d := generateDrawdown (applyStraightDraw (applyPlainWeave m)) in
  length d = warpCount m * weftCount m ∧
  d !! (y * warpCount m + x) = Some (if x mod 2 =? y mod 2 then 1 else 0) ∧
  (x + 2 < warpCount m →
     d !! (y * warpCount m + (x + 2)) = d !! (y * warpCount m + x)) ∧
  (y + 2 < weftCount m →
     d !! ((y + 2) * warpCount m + x) = d !! (y * warpCount m + x)) ∧
  (x + 1 < warpCount m →
     d !! (y * warpCount m + (x + 1)) ≠ d !! (y * warpCount m + x)) ∧
  (y + 1 < weftCount m →
     d !! ((y + 1) * warpCount m + x) ≠ d !! (y * warpCount m + x)).
Proof.
  intros Hh Ht Hth Htr Hrep Hx Hy d. unfold d.
  assert (Hx2 : (x + 2) mod 2 = x mod 2).
  { replace (x + 2) with (x + 1 * 2) by lia. apply Nat.Div0.mod_add. }
  assert (Hy2 : (y + 2) mod 2 = y mod 2).
  { replace (y + 2) with (y + 1 * 2) by lia. apply Nat.Div0.mod_add. }
  assert (Hpar : ∀ n, (n + 1) mod 2 ≠ n mod 2).
  { intros n.
    pose proof (Nat.div_mod_eq n 2). pose proof (Nat.div_mod_eq (n + 1) 2).
    pose proof (Nat.mod_upper_bound n 2 ltac:(lia)).
    pose proof (Nat.mod_upper_bound (n + 1) 2 ltac:(lia)). lia. }
  split_and!.
  - destruct (generateDrawdown_cells (applyStraightDraw (applyPlainWeave m)))
      as [Hlen _].
    rewrite Hlen. unfold outWidth, outHeight, repeatWarp, repeatWeft. simpl.
    rewrite Hrep. simpl. lia.
  - by apply plain_weave_two_shafts_cell.
  - intros Hx'. rewrite !plain_weave_two_shafts_cell by done. by rewrite Hx2.
  - intros Hy'. rewrite !plain_weave_two_shafts_cell by done. by rewrite Hy2.
  - intros Hx'. rewrite !plain_weave_two_shafts_cell by done.
    pose proof (Hpar x) as Hp.
    destruct (Nat.eqb_spec ((x + 1) mod 2) (y mod 2)),
             (Nat.eqb_spec (x mod 2) (y mod 2)); try done; [congruence|].
    pose proof (Nat.mod_upper_bound x 2 ltac:(lia)).
    pose proof (Nat.mod_upper_bound (x + 1) 2 ltac:(lia)).
    pose proof (Nat.mod_upper_bound y 2 ltac:(lia)). lia.
  - intros Hy'. rewrite !plain_weave_two_shafts_cell by done.
    pose proof (Hpar y) as Hp.
    destruct (Nat.eqb_spec (x mod 2) ((y + 1) mod 2)),
             (Nat.eqb_spec (x mod 2) (y mod 2)); try done; [congruence|].
    pose proof (Nat.mod_upper_bound x 2 ltac:(lia)).
    pose proof (Nat.mod_upper_bound (y + 1) 2 ltac:(lia)).
    pose proof (Nat.mod_upper_bound y 2 ltac:(lia)). lia.
Qed.

Lemma plain_weave_two_shafts_checkerboard_witness :
  let d := generateDrawdown (applyStraightDraw (applyPlainWeave draft_2x2)) in
  length d = 2 * 2 ∧
  d !! (0 * 2 + 0) = Some (if 0 mod 2 =? 0 mod 2 then 1 else 0) ∧
  (0 + 2 < 2 → d !! (0 * 2 + (0 + 2)) = d !! (0 * 2 + 0)) ∧
  (0 + 2 < 2 → d !! ((0 + 2) * 2 + 0) = d !! (0 * 2 + 0)) ∧
  (0 + 1 < 2 → d !! (0 * 2 + (0 + 1)) ≠ d !! (0 * 2 + 0)) ∧
  (0 + 1 < 2 → d !! ((0 + 1) * 2 + 0) ≠ d !! (0 * 2 + 0)).
Proof.
  apply (plain_weave_two_shafts_checkerboard draft_2x2 0 0);
    [reflexivity | reflexivity | reflexivity | reflexivity | reflexivity
    | simpl; lia | simpl; lia].
Defined.
End WeaveDrawdown.

(* ===================================================================== *)
(** * Jacquard drawdown *)
(* ===================================================================== *)

Section JacquardDrawdown.
Import Jacquard.

Lemma generateJacquardDrawdown_cells (m : JacquardModel) :
  length (generateJacquardDrawdown m) = width m * height m ∧
  ∀ x y, x < width m → y < height m →
    generateJacquardDrawdown m !! (y * width m + x) = Some (jacquardCell m x y).
Proof.
  apply (fillGrid_spec (width m) (height m) (jacquardCell m)).
  apply length_replicate.
Qed.

Lemma structureLift_resolved (s : WeaveStructure) (x y h t v : nat) :
  threading s !! (x mod length (threading s)) = Some h →
  treadling s !! (y mod length (treadling s)) = Some t →
  tieUp s !! (h * treadleCount s + t) = Some v →
  structureLift s x y = if v =? 0 then 0 else 1.
Proof.
  intros Hh Ht Hv. unfold structureLift, JS.rem.
  destruct (Nat.eqb_spec (length (threading s)) 0) as [Hz|_].
  { apply lookup_lt_Some in Hh. lia. }
  destruct (Nat.eqb_spec (length (treadling s)) 0) as [Hz|_].
  { apply lookup_lt_Some in Ht. lia. }
  simpl. rewrite Hh, Ht. simpl. rewrite Hv, truthy_Some.
  by destruct (v =? 0).
Qed.

(** C5. [generateJacquardDrawdown] always returns its [width * height]
    cells (the fallback is a value, never a failure). A cell whose grid
    entry indexes no structure holds 1. A cell whose entry resolves to [s]
    holds the tie-up bit of [s] at
    [tieUp[threading[x mod threading.length] * treadleCount
           + treadling[y mod treadling.length]]]:
    1 when that entry is non-zero, 0 otherwise, hence the entry itself when
    it is a bit. *)
Theorem jacquard_fallback_and_lookup (m : JacquardModel) :
  length (generateJacquardDrawdown m) = width m * height m ∧
  ∀ x y g, x < width m → y < height m →
    grid m !! (y * width m + x) = Some g →
    let cell := generateJacquardDrawdown m !! (y * width m + x) in
    (structures m !! g = None → cell = Some 1) ∧
    (∀ s h t v,
        structures m !! g = Some s →
        threading s !! (x mod length (threading s)) = Some h →
        treadling s !! (y mod length (treadling s)) = Some t →
        tieUp s !! (h * treadleCount s + t) = Some v →
        cell = Some (if v =? 0 then 0 else 1) ∧ (v ≤ 1 → cell = Some v)).
Proof.
  destruct (generateJacquardDrawdown_cells m) as [Hlen Hcells].
  split; [exact Hlen|].
  intros x y g Hx Hy Hg cell. unfold cell. rewrite Hcells by done.
  unfold jacquardCell. rewrite Hg. simpl. split.
  - by intros ->.
  - intros s h t v -> Hh Ht Hv.
    rewrite (structureLift_resolved s x y h t v) by done.
    split; [done|]. intros Hle. f_equal.
    destruct v as [|[|v]]; simpl; [done|done|lia].
Qed.

Lemma jacquard_fallback_and_lookup_witness :
  generateJacquardDrawdown two_structure_model = [1; 1; 0; 1] ∧
  generateJacquardDrawdown two_structure_model !! (0 * 2 + 1) = Some 1 ∧
  generateJacquardDrawdown two_structure_model !! (1 * 2 + 0) = Some 0.
Proof.
  split; [reflexivity|].
  destruct (jacquard_fallback_and_lookup two_structure_model) as [_ Hc].
  split.
  - apply (Hc 1 0 7); [simpl; lia | simpl; lia | reflexivity | reflexivity].
  - refine (proj1 (proj2 (Hc 0 1 1 _ _ _) createWeftFaced 0 0 0 _ _ _ _));
      first [reflexivity | simpl; lia].
Defined.
End JacquardDrawdown.

(* ===================================================================== *)
(** * Weave validation *)
(* ===================================================================== *)

Section Validation.
Import Weave.

Lemma boundsLoop_spec (msg : nat → string) (arr : list nat) (limit : nat)
    (todo i : nat) (errors : list string) :
  (∃ j, leastOffender arr limit i (i + todo) j ∧
        boundsLoop msg arr limit i todo errors = errors ++ [msg (j + 1)])
  ∨ (inRange arr limit i (i + todo) ∧
     boundsLoop msg arr limit i todo errors = errors).
Proof.
  revert i. induction todo as [|todo IH]; intros i; simpl.
  - right. split; [|done]. intros j v Hj. lia.
  - destruct (arr !! i) as [v|] eqn:Hv.
    + destruct (Nat.leb_spec limit v) as [Hle|Hlt].
      * left. exists i. split; [|done].
        split; [lia|]. split; [eauto|]. intros j w Hj. lia.
      * destruct (IH (S i)) as [(j & (Hj & Hoff & Hbelow) & Heq)|[Hall Heq]].
        -- left. exists j. split; [|done].
           split; [lia|]. split; [done|].
           intros j' w Hj' Hw. destruct (decide (j' = i)) as [->|Hne].
           ++ congruence.
           ++ apply (Hbelow j' w); [lia|done].
        -- right. split; [|done].
           intros j' w Hj' Hw. destruct (decide (j' = i)) as [->|Hne].
           ++ congruence.
           ++ apply (Hall j' w); [lia|done].
    + destruct (IH (S i)) as [(j & (Hj & Hoff & Hbelow) & Heq)|[Hall Heq]].
      * left. exists j. split; [|done].
        split; [lia|]. split; [done|].
        intros j' w Hj' Hw. destruct (decide (j' = i)) as [->|Hne].
        -- congruence.
        -- apply (Hbelow j' w); [lia|done].
      * right. split; [|done].
        intros j' w Hj' Hw. destruct (decide (j' = i)) as [->|Hne].
        -- congruence.
        -- apply (Hall j' w); [lia|done].
Qed.

Lemma firstOffender_Some (arr : list nat) (limit count i : nat) :
  firstOffender arr limit count = Some i ↔ leastOffender arr limit 0 count i.
Proof.
  unfold firstOffender, leastOffender, inRange. split.
  - intros Hf. apply fmap_Some in Hf as ([j v] & Hfind & ->). simpl.
    apply list_find_Some in Hfind as (Hlk & Hv & Hleast).
    apply lookup_take_Some in Hlk as [Hlk Hj].
    split; [lia|]. split; [eauto|].
    intros j' w Hj' Hw.
    destruct (Nat.lt_ge_cases w limit) as [|Hge]; [done|].
    exfalso. apply (Hleast j' w); [|lia|done].
    apply lookup_take_Some. split; [done|lia].
  - intros (Hi & (v & Hv & Hle) & Hbelow).
    apply fmap_Some. exists (i, v). split; [|done].
    apply list_find_Some. split_and!.
    + apply lookup_take_Some. split; [done|lia].
    + done.
    + intros j w Hw Hj Hbad.
      apply lookup_take_Some in Hw as [Hw _].
      specialize (Hbelow j w ltac:(lia) Hw). simpl in Hbad. lia.
Qed.

Lemma firstOffender_None (arr : list nat) (limit count : nat) :
  firstOffender arr limit count = None ↔ inRange arr limit 0 count.
Proof.
  unfold firstOffender, inRange. rewrite fmap_None, list_find_None, Forall_lookup.
  split.
  - intros Hall j v Hj Hv.
    destruct (Nat.lt_ge_cases v limit) as [|Hge]; [done|].
    exfalso. apply (Hall j v); [|done].
    apply lookup_take_Some. split; [done|lia].
  - intros Hall j v Hv%lookup_take_Some Hbad. destruct Hv as [Hv Hj].
    specialize (Hall j v ltac:(lia) Hv). simpl in Hbad. lia.
Qed.

Lemma boundsLoop_rangeMsg (msg : nat → string) (arr : list nat)
    (limit count : nat) (errors : list string) :
  boundsLoop msg arr limit 0 count errors = errors ++ rangeMsg msg arr limit count.
Proof.
  unfold rangeMsg.
  destruct (boundsLoop_spec msg arr limit count 0 errors)
    as [(j & Hj & ->)|[Hall ->]].
  - simpl in Hj. apply firstOffender_Some in Hj. by rewrite Hj.
  - simpl in Hall. apply firstOffender_None in Hall. rewrite Hall.
    by rewrite app_nil_r.
Qed.

Lemma pushIf_optMsg (c : bool) (msg : string) (errors : list string) :
  pushIf c msg errors = errors ++ optMsg c msg.
Proof. destruct c; simpl; [done|by rewrite app_nil_r]. Qed.

(** The imperative validator computes the specification's list, text for
    text. *)
Lemma validateWeave_refines (m : WeaveModel) : validateWeave m = validate_spec m.
Proof.
  unfold validateWeave, validate_spec.
  rewrite !boundsLoop_rangeMsg, !pushIf_optMsg.
  rewrite app_nil_l, <- !app_assoc. reflexivity.
Qed.

Lemma optMsg_nil (c : bool) (msg : string) : optMsg c msg = [] ↔ c = false.
Proof. destruct c; simpl; split; congruence. Qed.

Lemma rangeMsg_nil (msg : nat → string) (arr : list nat) (limit count : nat) :
  rangeMsg msg arr limit count = [] ↔ inRange arr limit 0 count.
Proof.
  unfold rangeMsg. rewrite <- firstOffender_None.
  destruct (firstOffender arr limit count); split; congruence.
Qed.

Lemma rangeMsg_length (msg : nat → string) (arr : list nat) (limit count : nat) :
  length (rangeMsg msg arr limit count) ≤ 1.
Proof. unfold rangeMsg. destruct (firstOffender arr limit count); simpl; lia. Qed.

(** *** The texts of the two range messages *)

Lemma string_length_app (s t : string) :
  String.length (s +:+ t) = String.length s + String.length t.
Proof. induction s as [|c s IH]; simpl; [done|]. by rewrite IH. Qed.

Lemma string_app_inv_tail (s1 s2 t : string) : s1 +:+ t = s2 +:+ t → s1 = s2.
Proof.
  revert s2. induction s1 as [|c s1 IH]; intros [|c' s2] Heq; simpl in Heq.
  - done.
  - apply (f_equal String.length) in Heq.
    rewrite ?string_length_app in Heq. simpl in Heq.
    rewrite ?string_length_app in Heq. lia.
  - apply (f_equal String.length) in Heq.
    rewrite ?string_length_app in Heq. simpl in Heq.
    rewrite ?string_length_app in Heq. lia.
  - injection Heq as -> Heq. f_equal. by apply IH.
Qed.

(** A range message determines the position it names. *)
Lemma threadingMsg_inj (p q : nat) : threadingMsg p = threadingMsg q → p = q.
Proof.
  unfold threadingMsg. intros Heq.
  apply (inj (String.app "Threading at position ")) in Heq.
  apply string_app_inv_tail in Heq. by apply (inj pretty).
Qed.

Lemma treadlingMsg_inj (p q : nat) : treadlingMsg p = treadlingMsg q → p = q.
Proof.
  unfold treadlingMsg. intros Heq.
  apply (inj (String.app "Treadling at position ")) in Heq.
  apply string_app_inv_tail in Heq. by apply (inj pretty).
Qed.

Lemma rangeMsg_elem (msg : nat → string) (arr : list nat) (limit count pos : nat) :
  (∀ p q, msg p = msg q → p = q) →
  msg pos ∈ rangeMsg msg arr limit count
  ↔ ∃ i, firstOffender arr limit count = Some i ∧ pos = i + 1.
Proof.
  intros Hinj. unfold rangeMsg.
  destruct (firstOffender arr limit count) as [i|].
  - rewrite list_elem_of_singleton. split.
    + intros Heq. exists i. split; [done|]. by apply Hinj.
    + intros (i' & [= <-] & ->). done.
  - split; [by intros ?%elem_of_nil|]. by intros (i & ? & _).
Qed.

Lemma optMsg_elem (c : bool) (msg s : string) : s ∈ optMsg c msg → s = msg.
Proof.
  destruct c; simpl; [by intros ?%list_elem_of_singleton|by intros ?%elem_of_nil].
Qed.

Lemma rangeMsg_elem_text (msg : nat → string) (arr : list nat) (limit count : nat)
    (s : string) :
  s ∈ rangeMsg msg arr limit count → ∃ pos, s = msg pos.
Proof.
  unfold rangeMsg. destruct (firstOffender arr limit count) as [i|].
  - intros ->%list_elem_of_singleton. eauto.
  - by intros ?%elem_of_nil.
Qed.

(** The threading message occurs in the result exactly for the position
    after the first offending index. *)
Lemma threading_message_names_first (m : WeaveModel) (pos : nat) :
  threadingMsg pos ∈ validateWeave m
  ↔ ∃ i, firstOffender (threading m) (harnessCount m) (warpCount m) = Some i ∧
         pos = i + 1.
Proof.
  rewrite <- (rangeMsg_elem threadingMsg _ _ _ _ threadingMsg_inj).
  rewrite validateWeave_refines. unfold validate_spec.
  rewrite !elem_of_app. split; [|intros Hin; do 5 right; by left].
  intros [Hin|[Hin|[Hin|[Hin|[Hin|[Hin|Hin]]]]]]; try done;
    try (apply optMsg_elem in Hin; discriminate Hin).
  apply rangeMsg_elem_text in Hin as [q Hq]. discriminate Hq.
Qed.

Lemma treadling_message_names_first (m : WeaveModel) (pos : nat) :
  treadlingMsg pos ∈ validateWeave m
  ↔ ∃ i, firstOffender (treadling m) (treadleCount m) (weftCount m) = Some i ∧
         pos = i + 1.
Proof.
  rewrite <- (rangeMsg_elem treadlingMsg _ _ _ _ treadlingMsg_inj).
  rewrite validateWeave_refines. unfold validate_spec.
  rewrite !elem_of_app. split; [|intros Hin; do 6 right; done].
  intros [Hin|[Hin|[Hin|[Hin|[Hin|[Hin|Hin]]]]]]; try done;
    try (apply optMsg_elem in Hin; discriminate Hin).
  apply rangeMsg_elem_text in Hin as [q Hq]. discriminate Hq.
Qed.

(** C9. [validateWeave] returns its messages in the fixed order harness
    capacity, treadle capacity, warp capacity, weft capacity, empty tie-up,
    threading range, treadling range, each at most once (it equals
    [validate_spec], the concatenation of one optional message per check,
    text for text); the message ["Threading at position p references
    invalid harness"] is in the result exactly when [p - 1] is the first
    offending index of the threading, and likewise for the treadling, so
    each range message names the first offending position only; and the
    result is empty exactly when no check fails. *)
Theorem validateWeave_ordered_first_offender (m : WeaveModel) :
  validateWeave m = validate_spec m ∧
  (∀ i, firstOffender (threading m) (harnessCount m) (warpCount m) = Some i ↔
        i < warpCount m ∧
        (∃ v, threading m !! i = Some v ∧ harnessCount m ≤ v) ∧
        (∀ j v, j < i → threading m !! j = Some v → v < harnessCount m)) ∧
  (∀ i, firstOffender (treadling m) (treadleCount m) (weftCount m) = Some i ↔
        i < weftCount m ∧
        (∃ v, treadling m !! i = Some v ∧ treadleCount m ≤ v) ∧
        (∀ j v, j < i → treadling m !! j = Some v → v < treadleCount m)) ∧
  (validateWeave m = [] ↔
     harnessCount m ≤ maxHarness (loom m) ∧
     treadleCount m ≤ maxTreadle (loom m) ∧
     warpCount m ≤ maxWarp (loom m) ∧
     weftCount m ≤ maxWeft (loom m) ∧
     (∃ i, tieUp m !! i = Some 1) ∧
     (∀ i v, i < warpCount m → threading m !! i = Some v → v < harnessCount m) ∧
     (∀ i v, i < weftCount m → treadling m !! i = Some v → v < treadleCount m)) ∧
  (∀ pos, ("Threading at position " +:+ pretty pos +:+ " references invalid harness")
            ∈ validateWeave m
          ↔ ∃ i, firstOffender (threading m) (harnessCount m) (warpCount m) = Some i ∧
                 pos = i + 1) ∧
  (∀ pos, ("Treadling at position " +:+ pretty pos +:+ " references invalid treadle")
            ∈ validateWeave m
          ↔ ∃ i, firstOffender (treadling m) (treadleCount m) (weftCount m) = Some i ∧
                 pos = i + 1).
Proof.
  split; [apply validateWeave_refines|].
  split.
  { intros i. rewrite firstOffender_Some. unfold leastOffender, inRange.
    split.
    - intros (Hi & Hv & Hb). split; [lia|]. split; [done|].
      intros j v Hj. apply Hb. lia.
    - intros (Hi & Hv & Hb). split; [lia|]. split; [done|].
      intros j v Hj. apply Hb. lia. }
  split.
  { intros i. rewrite firstOffender_Some. unfold leastOffender, inRange.
    split.
    - intros (Hi & Hv & Hb). split; [lia|]. split; [done|].
      intros j v Hj. apply Hb. lia.
    - intros (Hi & Hv & Hb). split; [lia|]. split; [done|].
      intros j v Hj. apply Hb. lia. }
  split; [|split; [apply threading_message_names_first
                  |apply treadling_message_names_first]].
  rewrite validateWeave_refines. unfold validate_spec.
  rewrite !app_nil, !optMsg_nil, !rangeMsg_nil, !Nat.ltb_ge.
  rewrite negb_false_iff, existsb_exists. unfold inRange.
  split.
  - intros (H1 & H2 & H3 & H4 & (x & Hin & Hx) & H6 & H7).
    split_and!; try done.
    + apply Nat.eqb_eq in Hx as ->.
      apply list_elem_of_In, list_elem_of_lookup in Hin. done.
    + intros i v Hi. apply H6. lia.
    + intros i v Hi. apply H7. lia.
  - intros (H1 & H2 & H3 & H4 & (i & Hi) & H6 & H7).
    split_and!; try done.
    + exists 1. split; [|done].
      apply list_elem_of_In, list_elem_of_lookup. eauto.
    + intros i' v Hi'. apply H6. lia.
    + intros i' v Hi'. apply H7. lia.
Qed.

Lemma validateWeave_ordered_first_offender_witness :
  validateWeave overloaded_draft
  = ["Harness count (20) exceeds loom capacity (16)";
     "Tie-up is empty - no pattern will be generated";
     "Threading at position 2 references invalid harness"]%string ∧
  firstOffender (threading overloaded_draft) 20 3 = Some 1 ∧
  ("Threading at position 2 references invalid harness"%string
     ∈ validateWeave overloaded_draft) ∧
  ("Threading at position 3 references invalid harness"%string
     ∉ validateWeave overloaded_draft).
Proof.
  destruct (validateWeave_ordered_first_offender overloaded_draft)
    as (Href & Hthr & _ & _ & Hmsg & _).
  assert (Hfirst : firstOffender (threading overloaded_draft) 20 3 = Some 1).
  { apply Hthr. split; [simpl; lia|]. split.
    - exists 25. split; [reflexivity | simpl; lia].
    - intros j v Hj Hv. destruct j as [|j]; [|simpl in Hj; lia].
      injection Hv as <-. simpl. lia. }
  split_and!.
  - rewrite Href. vm_compute. reflexivity.
  - exact Hfirst.
  - apply (Hmsg 2). exists 1. split; [exact Hfirst|reflexivity].
  - intros Hin. apply (Hmsg 3) in Hin as (i & Hi & Hpos).
    change (firstOffender (threading overloaded_draft)
              (harnessCount overloaded_draft) (warpCount overloaded_draft))
      with (firstOffender (threading overloaded_draft) 20 3) in Hi.
    rewrite Hfirst in Hi. injection Hi as <-. lia.
Defined.
End Validation.

(* ===================================================================== *)
(** * Pixel loops *)
(* ===================================================================== *)

Section FourBytes.
Import Imaging.

Lemma length_write4 i v0 v1 v2 v3 (o : list Z) :
  length (write4 i v0 v1 v2 v3 o) = length o.
Proof. unfold write4. by rewrite !length_insert. Qed.

Lemma write4_inside i k v0 v1 v2 v3 (o : list Z) :
  k < 4 →
  write4 i v0 v1 v2 v3 o !! (i + k) = (λ _, pick4 k v0 v1 v2 v3) <$> o !! (i + k).
Proof.
  intros Hk. unfold write4.
  destruct (o !! (i + k)) as [v|] eqn:Hv; simpl.
  - apply lookup_lt_Some in Hv.
    destruct k as [|[|[|[|k]]]]; try lia; simpl;
      rewrite ?Nat.add_0_r in *;
      repeat first
        [ rewrite list_lookup_insert_eq by (rewrite ?length_insert; lia)
        | rewrite list_lookup_insert_ne by lia ]; done.
  - apply lookup_ge_None in Hv. apply lookup_ge_None.
    by rewrite !length_insert.
Qed.

Lemma write4_outside i j v0 v1 v2 v3 (o : list Z) :
  j < i ∨ i + 4 ≤ j → write4 i v0 v1 v2 v3 o !! j = o !! j.
Proof. intros Hj. unfold write4. by rewrite !list_lookup_insert_ne by lia. Qed.

Lemma pixelSteps_covers (len q k : nat) :
  k < 4 → 4 * q + k < len → q < pixelSteps len.
Proof.
  intros Hk Hq. unfold pixelSteps.
  apply (Nat.div_le_lower_bound (len + 3) 4 (S q)); lia.
Qed.
End FourBytes.

(** Loops over pixels whose step [p] reads and writes the bytes
    [4p .. 4p+3] of the buffer only. *)
Section PixelLoop.
Variable step : nat → list Z → list Z.
Hypothesis step_length : ∀ p o, length (step p o) = length o.
Hypothesis step_outside :
  ∀ p o j, j < 4 * p ∨ 4 * p + 4 ≤ j → step p o !! j = o !! j.
Hypothesis step_inside :
  ∀ p o1 o2, (∀ k, k < 4 → o1 !! (4 * p + k) = o2 !! (4 * p + k)) →
             ∀ k, k < 4 → step p o1 !! (4 * p + k) = step p o2 !! (4 * p + k).

Lemma pixelLoop_length (n : nat) (o : list Z) :
  length (JS.for_lt n step o) = length o.
Proof. induction n as [|n IH]; [done|]. by rewrite for_lt_S, step_length. Qed.

Lemma pixelLoop_lookup (o : list Z) (n : nat) :
  ∀ q k, k < 4 →
    JS.for_lt n step o !! (4 * q + k)
    = if decide (q < n) then step q o !! (4 * q + k) else o !! (4 * q + k).
Proof.
  induction n as [|n IH]; intros q k Hk.
  - by rewrite decide_False by lia.
  - rewrite for_lt_S.
    set (on := JS.for_lt n step o) in *.
    destruct (decide (q = n)) as [->|Hne].
    + rewrite decide_True by lia. apply step_inside; [|done].
      intros k' Hk'. rewrite IH by done. by rewrite decide_False by lia.
    + rewrite step_outside by lia. rewrite IH by done.
      repeat case_decide; done || lia.
Qed.

(** Over all the pixels of the buffer, every byte is the one its own step
    writes on the initial buffer. *)
Lemma pixelLoop_all (o : list Z) (q k : nat) :
  k < 4 →
  JS.for_lt (Imaging.pixelSteps (length o)) step o !! (4 * q + k)
  = step q o !! (4 * q + k).
Proof.
  intros Hk. rewrite pixelLoop_lookup by done.
  case_decide as Hq; [done|].
  assert (Hout : length o ≤ 4 * q + k).
  { destruct (Nat.le_gt_cases (length o) (4 * q + k)) as [|Hlt]; [done|].
    exfalso. apply Hq. by eapply pixelSteps_covers. }
  rewrite (lookup_ge_None_2 o) by done.
  symmetry. apply lookup_ge_None. by rewrite step_length.
Qed.
End PixelLoop.

(* ===================================================================== *)
(** * Colour merge *)
(* ===================================================================== *)

Section Merge.
Import Imaging.

Lemma paint_inside (c : ParsedRGB) (i k : nat) (d : list Z) :
  k < 4 →
  paint c i d !! (i + k)
  = (λ _, pick4 k (toUint8Clamped (pr c)) (toUint8Clamped (pg c))
                  (toUint8Clamped (pb c)) 255) <$> d !! (i + k).
Proof. apply write4_inside. Qed.

Lemma matchesAt_ext (from : ParsedRGB) (d1 d2 : list Z) (i : nat) :
  (∀ k, k < 4 → d1 !! (i + k) = d2 !! (i + k)) →
  matchesAt from d1 i = matchesAt from d2 i.
Proof.
  intros Heq. unfold matchesAt.
  rewrite (Heq 3), (Heq 2), (Heq 1) by lia.
  specialize (Heq 0). rewrite Nat.add_0_r in Heq. rewrite Heq by lia. done.
Qed.

Lemma mergePixel_data (from to : ParsedRGB) (p : nat) (st : list Z * nat) :
  (mergePixel from to p st).1 = mergeData from to p st.1.
Proof.
  destruct st as [d c]. unfold mergePixel, mergeData.
  change ((d, c).1) with d.
  by destruct (matchesAt from d (4 * p)).
Qed.

Lemma mergeLoop_data (from to : ParsedRGB) (n : nat) (st : list Z * nat) :
  (JS.for_lt n (mergePixel from to) st).1 = JS.for_lt n (mergeData from to) st.1.
Proof.
  induction n as [|n IH]; [done|].
  by rewrite !for_lt_S, mergePixel_data, IH.
Qed.

Lemma mergeData_length (from to : ParsedRGB) (p : nat) (d : list Z) :
  length (mergeData from to p d) = length d.
Proof. unfold mergeData. destruct (matchesAt _ _ _); [apply length_write4|done]. Qed.

Lemma mergeData_outside (from to : ParsedRGB) (p : nat) (d : list Z) (j : nat) :
  j < 4 * p ∨ 4 * p + 4 ≤ j → mergeData from to p d !! j = d !! j.
Proof.
  intros Hj. unfold mergeData.
  destruct (matchesAt _ _ _); [by apply write4_outside|done].
Qed.

Lemma mergeData_inside (from to : ParsedRGB) (p : nat) (d1 d2 : list Z) :
  (∀ k, k < 4 → d1 !! (4 * p + k) = d2 !! (4 * p + k)) →
  ∀ k, k < 4 → mergeData from to p d1 !! (4 * p + k) = mergeData from to p d2 !! (4 * p + k).
Proof.
  intros Heq k Hk. unfold mergeData.
  rewrite (matchesAt_ext from d1 d2) by done.
  destruct (matchesAt from d2 (4 * p)); [|by apply Heq].
  rewrite !paint_inside by done. by rewrite Heq.
Qed.

(** Every byte of the merged buffer is the one the step of its own pixel
    writes on the input. *)
Lemma merged_lookup (from to : ParsedRGB) (d : list Z) (q k : nat) :
  k < 4 → merged from to d !! (4 * q + k) = mergeData from to q d !! (4 * q + k).
Proof.
  apply (pixelLoop_all (mergeData from to) (mergeData_length from to)
           (mergeData_outside from to) (mergeData_inside from to)).
Qed.

Lemma length_merged (from to : ParsedRGB) (d : list Z) :
  length (merged from to d) = length d.
Proof. apply pixelLoop_length, mergeData_length. Qed.

(** A pixel that matches after the merge matched before it, and was
    painted. *)
Lemma merged_match_was_painted (from to : ParsedRGB) (d : list Z) (q : nat) :
  matchesAt from (merged from to d) (4 * q) = true →
  matchesAt from d (4 * q) = true ∧
  ∀ k, k < 4 →
    merged from to d !! (4 * q + k)
    = (λ _, pick4 k (toUint8Clamped (pr to)) (toUint8Clamped (pg to))
                    (toUint8Clamped (pb to)) 255) <$> d !! (4 * q + k).
Proof.
  intros Hm.
  destruct (matchesAt from d (4 * q)) eqn:Hd.
  - split; [done|]. intros k Hk. rewrite merged_lookup by done.
    unfold mergeData. rewrite Hd. by apply paint_inside.
  - exfalso. rewrite (matchesAt_ext from _ d) in Hm; [congruence|].
    intros k Hk. rewrite merged_lookup by done.
    unfold mergeData. by rewrite Hd.
Qed.

Lemma merged_idempotent (from to : ParsedRGB) (d : list Z) :
  merged from to (merged from to d) = merged from to d.
Proof.
  apply list_eq. intros j.
  rewrite (Nat.div_mod_eq j 4).
  assert (Hk : j mod 4 < 4) by (apply Nat.mod_upper_bound; lia).
  revert Hk. generalize (j mod 4), (j / 4). clear j. intros k q Hk.
  rewrite merged_lookup by done. unfold mergeData.
  destruct (matchesAt from (merged from to d) (4 * q)) eqn:Hm; [|done].
  apply merged_match_was_painted in Hm as [_ Hp].
  rewrite paint_inside, Hp by done.
  by destruct (d !! (4 * q + k)).
Qed.

Lemma mergeColorInImage_data (img : ImageData) (fromHex toHex : string) :
  (mergeColorInImage img fromHex toHex).1
  = {| width := width img; height := height img;
       data := merged (hexToRgb fromHex) (hexToRgb toHex) (data img) |}.
Proof.
  unfold mergeColorInImage, merged.
  rewrite <- (mergeLoop_data _ _ _ (data img, 0)).
  by destruct (JS.for_lt _ _ _).
Qed.

(** C8. Merging [fromHex] into [toHex] twice gives, byte for byte, the
    raster of merging once; and when [toHex] is a colour other than
    [fromHex], no pixel of alpha at least 20 has the RGB of [fromHex] after
    the first merge. *)
Theorem merge_idempotent_and_exhaustive (img : ImageData) (fromHex toHex : string) :
  let once := (mergeColorInImage img fromHex toHex).1 in
  (mergeColorInImage once fromHex toHex).1 = once ∧
  (isColor (hexToRgb toHex) →
   hexToRgb fromHex ≠ hexToRgb toHex →
   ∀ q a, data once !! (4 * q + 3) = Some a → (20 ≤ a)%Z →
     {| pr := data once !! (4 * q);
        pg := data once !! (4 * q + 1);
        pb := data once !! (4 * q + 2) |} ≠ hexToRgb fromHex).
Proof.
  intros once. unfold once. rewrite !mergeColorInImage_data.
  cbn [data width height].
  split; [by rewrite merged_idempotent|].
  intros (tr & tg & tb & Hto & Hr & Hg & Hb) Hne q a Ha H20 Heq.
  set (from := hexToRgb fromHex) in *. set (to := hexToRgb toHex) in *.
  set (d' := merged from to (data img)) in *.
  assert (Hin : 4 * q + 3 < length d') by (by eapply lookup_lt_Some).
  destruct (lookup_lt_is_Some_2 d' (4 * q)) as [v0 Hv0]; [lia|].
  destruct (lookup_lt_is_Some_2 d' (4 * q + 1)) as [v1 Hv1]; [lia|].
  destruct (lookup_lt_is_Some_2 d' (4 * q + 2)) as [v2 Hv2]; [lia|].
  assert (Hm : matchesAt from d' (4 * q) = true).
  { unfold matchesAt. rewrite Ha, <- Heq, Hv0, Hv1, Hv2.
    cbn [pr pg pb below20 strictEq]. rewrite !Z.eqb_refl.
    destruct (Z.ltb_spec a 20); [lia|done]. }
  apply merged_match_was_painted in Hm as [_ Hp]. fold d' in Hp.
  assert (Hin' : 4 * q + 3 < length (data img)).
  { by rewrite <- (length_merged from to). }
  assert (Hch : ∀ k, k < 3 →
            d' !! (4 * q + k)
            = Some (pick4 k (toUint8Clamped (pr to)) (toUint8Clamped (pg to))
                            (toUint8Clamped (pb to)) 255)).
  { intros k Hk. rewrite Hp by lia.
    destruct (lookup_lt_is_Some_2 (data img) (4 * q + k)) as [v ->]; [lia|done]. }
  assert (Hclamp : ∀ v, isByte v → toUint8Clamped (Some v) = v).
  { intros v Hv. unfold isByte in Hv. simpl. lia. }
  apply Hne. rewrite <- Heq.
  pose proof (Hch 0 ltac:(lia)) as H0. rewrite Nat.add_0_r in H0.
  rewrite H0, (Hch 1), (Hch 2) by lia.
  rewrite Hto. cbn [pick4 pr pg pb]. by rewrite !Hclamp.
Qed.

Lemma merge_idempotent_and_exhaustive_witness :
  let once := (mergeColorInImage stripes "#00FF00" "#0000ff").1 in
  data once = [255; 0; 0; 255;  0; 0; 255; 255;  0; 255; 0; 10]%Z ∧
  (mergeColorInImage once "#00FF00" "#0000ff").1 = once ∧
  {| pr := data once !! (4 * 1);
     pg := data once !! (4 * 1 + 1);
     pb := data once !! (4 * 1 + 2) |} ≠ hexToRgb "#00FF00".
Proof.
  split; [reflexivity|].
  destruct (merge_idempotent_and_exhaustive stripes "#00FF00" "#0000ff")
    as [Hidem Hgone].
  split; [exact Hidem|].
  apply (Hgone ltac:(by exists 0%Z, 0%Z, 255%Z; vm_compute; intuition discriminate)
               ltac:(by vm_compute) 1 255%Z);
    [reflexivity | lia].
Defined.
End Merge.

(* ===================================================================== *)
(** * The quantizer *)
(* ===================================================================== *)

Section Sampling.
Import Imaging.

Lemma collectSamples_unfold (fuel : nat) (d : list Z) (stride i : nat) (acc : list RGB) :
  collectSamples fuel d stride i acc =
  if length d <=? i then Some acc
  else match fuel with
       | 0 => None
       | S fuel' =>
           if (byteAt d (i + 3) <? 20)%Z
           then collectSamples fuel' d stride (i + 4 * stride) acc
           else collectSamples fuel' d stride (i + 4 * stride)
                  (acc ++ [{| r := byteAt d i; g := byteAt d (i + 1);
                              b := byteAt d (i + 2) |}])
       end.
Proof. by destruct fuel. Qed.

(** With a positive stride the sampling loop finishes within
    [length d + 1] iterations. *)
Lemma collectSamples_terminates (d : list Z) (stride : nat) :
  1 ≤ stride →
  ∀ fuel i acc, length d < fuel + i →
    is_Some (collectSamples fuel d stride i acc).
Proof.
  intros Hs fuel. induction fuel as [|fuel IH]; intros i acc Hfuel;
    rewrite collectSamples_unfold.
  - destruct (Nat.leb_spec (length d) i); [eauto|lia].
  - destruct (Nat.leb_spec (length d) i); [eauto|].
    destruct (byteAt d (i + 3) <? 20)%Z; apply IH; lia.
Qed.

Lemma collectSamples_transparent (d : list Z) (stride : nat) :
  1 ≤ stride →
  (∀ q, 4 * q < length d → (byteAt d (4 * q + 3) < 20)%Z) →
  ∀ fuel q acc, length d < fuel + 4 * q →
    collectSamples fuel d stride (4 * q) acc = Some acc.
Proof.
  intros Hs Htr fuel. induction fuel as [|fuel IH]; intros q acc Hfuel;
    rewrite collectSamples_unfold.
  - destruct (Nat.leb_spec (length d) (4 * q)); [done|lia].
  - destruct (Nat.leb_spec (length d) (4 * q)) as [|Hlt]; [done|].
    destruct (Z.ltb_spec (byteAt d (4 * q + 3)) 20) as [_|Hge].
    + replace (4 * q + 4 * stride) with (4 * (q + stride)) by lia.
      apply IH. lia.
    + specialize (Htr q Hlt). lia.
Qed.

(** C6. On a raster all of whose pixels have alpha below 20 (sampled with
    a positive stride), [quantizeKMeans] returns, whatever [k], the
    iteration bound and the random source are: the one-entry palette
    [{r: 0, g: 0, b: 0}], the counts list [[width * height]], and the input
    raster as the quantized image. *)
Theorem quantize_fully_transparent
    (rnd : nat → nat) (moved : RGB → Z → Z → Z → nat → bool) (fuel : nat)
    (img : ImageData) (opts : QuantizeOptions) :
  length (data img) = 4 * (width img * height img) →
  1 ≤ default 5 (sampleStride opts) →
  (∀ p, p < width img * height img → (byteAt (data img) (4 * p + 3) < 20)%Z) →
  quantizeKMeans rnd moved fuel img opts =
    Some {| q_width := width img; q_height := height img;
            quantized := img;
            palette := [{| r := 0; g := 0; b := 0 |}];
            counts := [width img * height img] |}.
Proof.
  intros Hlen Hstride Htr. unfold quantizeKMeans.
  rewrite (collectSamples_transparent (data img) _ Hstride) with (q := 0).
  - simpl. by destruct img.
  - intros q Hq. apply Htr. lia.
  - lia.
Qed.

Lemma quantize_fully_transparent_witness :
  quantizeKMeans (λ t, t) movedExactly 0 clear10x10
    {| k := 1; maxIters := None; sampleStride := None |} =
    Some {| q_width := 10; q_height := 10; quantized := clear10x10;
            palette := [{| r := 0; g := 0; b := 0 |}];
            counts := [100] |}.
Proof.
  apply (quantize_fully_transparent (λ t, t) movedExactly 0 clear10x10
           {| k := 1; maxIters := None; sampleStride := None |}).
  - reflexivity.
  - simpl. lia.
  - intros p Hp. change (width clear10x10 * height clear10x10) with 100 in Hp.
    assert (Hall : Forall (λ q, (byteAt (data clear10x10) (4 * q + 3) < 20)%Z)
                          (seq 0 100)).
    { vm_compute. repeat constructor. }
    rewrite Forall_forall in Hall. apply Hall, elem_of_seq. lia.
Defined.
End Sampling.

Section Quantizer.
Import Imaging.

Lemma byteAt_isByte (d : list Z) (i : nat) : Forall isByte d → isByte (byteAt d i).
Proof.
  intros Hd. unfold byteAt. destruct (d !! i) as [v|] eqn:Hv; simpl.
  - by eapply Forall_lookup_1.
  - unfold isByte. lia.
Qed.

Lemma byteColor_black : byteColor black.
Proof. unfold byteColor, isByte. simpl. lia. Qed.

(** *** Sampling *)

Lemma collectSamples_bytes (d : list Z) (stride : nat) :
  Forall isByte d →
  ∀ fuel i acc samples,
    Forall byteColor acc →
    collectSamples fuel d stride i acc = Some samples →
    Forall byteColor samples.
Proof.
  intros Hd fuel. induction fuel as [|fuel IH]; intros i acc samples Hacc;
    rewrite collectSamples_unfold.
  - destruct (length d <=? i); [|done]. by intros [= <-].
  - destruct (length d <=? i); [by intros [= <-]|].
    destruct (byteAt d (i + 3) <? 20)%Z; [by apply IH|].
    apply IH. apply Forall_app. split; [done|].
    apply Forall_singleton. split_and!; by apply byteAt_isByte.
Qed.

Lemma collectSamples_grows (d : list Z) (stride : nat) :
  ∀ fuel i acc samples,
    collectSamples fuel d stride i acc = Some samples →
    length acc ≤ length samples.
Proof.
  intros fuel. induction fuel as [|fuel IH]; intros i acc samples;
    rewrite collectSamples_unfold.
  - destruct (length d <=? i); [|done]. by intros [= <-].
  - destruct (length d <=? i); [by intros [= <-]|].
    destruct (byteAt d (i + 3) <? 20)%Z; [by apply IH|].
    intros H%IH. rewrite length_app in H. simpl in H. lia.
Qed.

(** An opaque pixel at a sampled position makes the sample set non-empty. *)
Lemma collectSamples_opaque (d : list Z) (stride : nat) :
  ∀ fuel i acc samples j,
    collectSamples fuel d stride i acc = Some samples →
    i + 4 * stride * j < length d →
    (20 ≤ byteAt d (i + 4 * stride * j + 3))%Z →
    0 < length samples.
Proof.
  intros fuel. induction fuel as [|fuel IH]; intros i acc samples j;
    rewrite collectSamples_unfold.
  - destruct (Nat.leb_spec (length d) i); [|done]. intros _ Hj. lia.
  - destruct (Nat.leb_spec (length d) i); [intros _ Hj; lia|].
    destruct (Z.ltb_spec (byteAt d (i + 3)) 20) as [Hlt|Hge].
    + intros Hrun Hj Hop. destruct j as [|j].
      * rewrite Nat.mul_0_r, Nat.add_0_r in Hop. lia.
      * apply (IH _ _ _ j Hrun).
        -- lia.
        -- replace (i + 4 * stride + 4 * stride * j + 3)
             with (i + 4 * stride * S j + 3) by lia. done.
    + intros Hrun%collectSamples_grows _ _.
      rewrite length_app in Hrun. simpl in Hrun. lia.
Qed.

(** *** Initial centroids *)

Lemma pickLoop_unfold (rnd : nat → nat) (fuel : nat) (samples : list RGB)
    (kk t : nat) (cs : list RGB) (used : gset nat) :
  pickLoop rnd fuel samples kk t cs used =
  if (length cs <? kk) && (size used <? length samples) then
    match fuel with
    | 0 => None
    | S fuel' =>
        let idx := rnd t mod length samples in
        if decide (idx ∈ used) then pickLoop rnd fuel' samples kk (S t) cs used
        else pickLoop rnd fuel' samples kk (S t)
               (cs ++ [default black (samples !! idx)]) ({[idx]} ∪ used)
    end
  else Some cs.
Proof. by destruct fuel. Qed.

Lemma pickLoop_length (rnd : nat → nat) (samples : list RGB) (kk : nat) :
  ∀ fuel t cs used res,
    length cs ≤ kk →
    pickLoop rnd fuel samples kk t cs used = Some res →
    length res ≤ kk.
Proof.
  intros fuel. induction fuel as [|fuel IH]; intros t cs used res Hlen;
    rewrite pickLoop_unfold.
  - destruct (_ && _); [done|]. by intros [= <-].
  - destruct (Nat.ltb_spec (length cs) kk) as [Hlt|]; simpl;
      [|by intros [= <-]].
    destruct (size used <? length samples); [|by intros [= <-]].
    cbv zeta. case_decide; intros Hrun.
    + exact (IH _ _ _ _ Hlen Hrun).
    + apply (λ H, IH _ _ _ _ H Hrun). rewrite length_app. simpl. lia.
Qed.

Lemma sample_or_black (samples : list RGB) (i : nat) :
  Forall byteColor samples → byteColor (default black (samples !! i)).
Proof.
  intros Hs. destruct (samples !! i) as [c|] eqn:Hc; simpl.
  - exact (Forall_lookup_1 _ _ _ _ Hs Hc).
  - apply byteColor_black.
Qed.

Lemma pickLoop_bytes (rnd : nat → nat) (samples : list RGB) (kk : nat) :
  Forall byteColor samples →
  ∀ fuel t cs used res,
    Forall byteColor cs →
    pickLoop rnd fuel samples kk t cs used = Some res →
    Forall byteColor res.
Proof.
  intros Hs fuel. induction fuel as [|fuel IH]; intros t cs used res Hcs;
    rewrite pickLoop_unfold.
  - destruct (_ && _); [done|]. by intros [= <-].
  - destruct (_ && _); [|by intros [= <-]].
    cbv zeta. case_decide; intros Hrun.
    + exact (IH _ _ _ _ Hcs Hrun).
    + apply (λ H, IH _ _ _ _ H Hrun).
      apply Forall_app. split; [done|].
      apply Forall_singleton. by apply sample_or_black.
Qed.

Lemma pickInitialCentroids_length (rnd : nat → nat) (fuel : nat)
    (samples : list RGB) (kk : nat) (cs : list RGB) :
  pickInitialCentroids rnd fuel samples kk = Some cs → length cs = kk.
Proof.
  unfold pickInitialCentroids.
  destruct (pickLoop rnd fuel samples kk 0 [] ∅) as [cs0|] eqn:Hpick; [|done].
  simpl. intros [= <-].
  apply pickLoop_length in Hpick; [|simpl; lia].
  rewrite length_app, length_replicate. lia.
Qed.

Lemma pickInitialCentroids_bytes (rnd : nat → nat) (fuel : nat)
    (samples : list RGB) (kk : nat) (cs : list RGB) :
  Forall byteColor samples →
  pickInitialCentroids rnd fuel samples kk = Some cs →
  Forall byteColor cs.
Proof.
  intros Hs. unfold pickInitialCentroids.
  destruct (pickLoop rnd fuel samples kk 0 [] ∅) as [cs0|] eqn:Hpick; [|done].
  simpl. intros [= <-].
  apply pickLoop_bytes in Hpick; [|done|done].
  apply Forall_app. split; [done|].
  apply Forall_replicate. by apply sample_or_black.
Qed.

(** *** Clustering *)

Lemma clampByte_isByte (x : Num) : isByte (clampByte x).
Proof. unfold clampByte, isByte. lia. Qed.

Lemma kmeansLoop_length (moved : RGB → Z → Z → Z → nat → bool)
    (samples : list RGB) (kk : nat) :
  ∀ iters cs, length (kmeansLoop moved iters samples kk cs) = length cs.
Proof.
  intros iters. induction iters as [|iters IH]; intros cs; [done|].
  cbn [kmeansLoop].
  destruct (updateCentroids moved cs (accumulate samples cs kk))
    as [next movedCount] eqn:Hu.
  assert (Hnext : length next = length cs).
  { apply (f_equal fst) in Hu. simpl in Hu. subst next. apply length_imap. }
  destruct (movedCount =? 0); [|rewrite IH]; by rewrite length_fmap.
Qed.

Lemma kmeansLoop_bytes (moved : RGB → Z → Z → Z → nat → bool)
    (samples : list RGB) (kk : nat) :
  ∀ iters cs, Forall byteColor cs →
              Forall byteColor (kmeansLoop moved iters samples kk cs).
Proof.
  intros iters. induction iters as [|iters IH]; intros cs Hcs; [done|].
  cbn [kmeansLoop].
  destruct (updateCentroids moved cs (accumulate samples cs kk))
    as [next movedCount].
  set (cs' := _ <$> next).
  assert (Hb : Forall byteColor cs').
  { unfold cs'. apply Forall_fmap, Forall_forall. intros [[nr ng] nb] _.
    simpl. split_and!; apply clampByte_isByte. }
  destruct (movedCount =? 0); [done|by apply IH].
Qed.

(** *** Nearest centroid *)

Lemma nearestCentroidIndex_lt (p : RGB) (cs : list RGB) :
  0 < length cs → nearestCentroidIndex p cs < length cs.
Proof.
  intros Hpos. unfold nearestCentroidIndex.
  apply (for_lt_ind (λ _ st, st.1 < length cs)); [done|].
  intros i [best bestD] Hi Hbest.
  destruct (cs !! i); [|done].
  destruct bestD as [bd|]; [|done].
  by destruct (_ <? _)%Z.
Qed.
End Quantizer.

Section QuantizeOutput.
Import Imaging.

Lemma quantizePixel_split (d : list Z) (cs : list RGB) (p : nat) (st : list Z * list nat) :
  quantizePixel d cs p st = (quantizeData d cs p st.1, quantizeCount d cs p st.2).
Proof.
  destruct st as [out cnts]. unfold quantizePixel, quantizeData, quantizeCount, opaqueAt.
  cbn [fst snd]. by destruct (_ <? _)%Z.
Qed.

Lemma quantizeLoop_split (d : list Z) (cs : list RGB) (n : nat) (st : list Z * list nat) :
  JS.for_lt n (quantizePixel d cs) st
  = (JS.for_lt n (quantizeData d cs) st.1, JS.for_lt n (quantizeCount d cs) st.2).
Proof.
  induction n as [|n IH]; [by destruct st|].
  by rewrite !for_lt_S, quantizePixel_split, IH.
Qed.

Lemma quantizeData_length d cs p out : length (quantizeData d cs p out) = length out.
Proof. unfold quantizeData. destruct (opaqueAt d p); apply length_write4. Qed.

Lemma quantizeData_outside d cs p out j :
  j < 4 * p ∨ 4 * p + 4 ≤ j → quantizeData d cs p out !! j = out !! j.
Proof. intros Hj. unfold quantizeData. destruct (opaqueAt d p); by apply write4_outside. Qed.

Lemma quantizeData_inside d cs p o1 o2 :
  (∀ k, k < 4 → o1 !! (4 * p + k) = o2 !! (4 * p + k)) →
  ∀ k, k < 4 → quantizeData d cs p o1 !! (4 * p + k) = quantizeData d cs p o2 !! (4 * p + k).
Proof.
  intros Heq k Hk. unfold quantizeData.
  destruct (opaqueAt d p); rewrite !write4_inside by done; by rewrite Heq.
Qed.

(** Every byte of the quantized buffer. *)
Lemma quantized_lookup (d : list Z) (cs : list RGB) (q k : nat) :
  k < 4 → 4 * q + k < length d →
  JS.for_lt (pixelSteps (length d)) (quantizeData d cs) (replicate (length d) 0%Z)
    !! (4 * q + k)
  = Some (if opaqueAt d q
          then pick4 k (toUint8Clamped (Some (r (assigned d cs q))))
                       (toUint8Clamped (Some (g (assigned d cs q))))
                       (toUint8Clamped (Some (b (assigned d cs q)))) 255
          else 0%Z).
Proof.
  intros Hk Hin.
  pose proof (pixelLoop_all (quantizeData d cs) (quantizeData_length d cs)
                (quantizeData_outside d cs) (quantizeData_inside d cs)
                (replicate (length d) 0%Z) q k Hk) as Hall.
  rewrite length_replicate in Hall. rewrite Hall.
  unfold quantizeData. destruct (opaqueAt d q); rewrite write4_inside by done;
    rewrite lookup_replicate_2 by done; simpl; [done|].
  by destruct k as [|[|[|k]]].
Qed.

Lemma quantizeCount_coverage (d : list Z) (cs : list RGB) (kk n i : nat) :
  i < kk →
  JS.for_lt n (quantizeCount d cs) (replicate kk 0) !! i = Some (coverage d cs n i).
Proof.
  intros Hi. induction n as [|n IH].
  - by apply lookup_replicate_2.
  - rewrite for_lt_S. unfold coverage. rewrite seq_S, filter_app, length_app.
    fold (coverage d cs n i). simpl.
    unfold quantizeCount at 1. rewrite filter_cons, filter_nil.
    destruct (opaqueAt d n) eqn:Hop.
    + rewrite list_lookup_alter.
      destruct (decide (nearestCentroidIndex (pixelAt d n) cs = i)) as [Heq|Hne].
      * rewrite decide_True by done. rewrite Heq, IH. simpl. f_equal. lia.
      * rewrite decide_False by tauto. rewrite IH. simpl. f_equal. lia.
    + rewrite decide_False by (intros [? _]; congruence).
      rewrite IH. simpl. f_equal. lia.
Qed.

Lemma quantizeCount_length (d : list Z) (cs : list RGB) (n : nat) (cnts : list nat) :
  length (JS.for_lt n (quantizeCount d cs) cnts) = length cnts.
Proof.
  induction n as [|n IH]; [done|]. rewrite for_lt_S. unfold quantizeCount at 1.
  destruct (opaqueAt d n); [by rewrite length_alter|done].
Qed.
End QuantizeOutput.

Section QuantizeResult.
Import Imaging.

Lemma clampK_range (opts : QuantizeOptions) : 2 ≤ clampK opts ≤ 24.
Proof. unfold clampK. lia. Qed.

(** The two ways [quantizeKMeans] returns. *)
Lemma quantizeKMeans_cases (rnd : nat → nat) (moved : RGB → Z → Z → Z → nat → bool)
    (fuel : nat) (img : ImageData) (opts : QuantizeOptions) (res : QuantizeResult) :
  quantizeKMeans rnd moved fuel img opts = Some res →
  ∃ samples,
    collectSamples (S (length (data img))) (data img)
      (default 5 (sampleStride opts)) 0 [] = Some samples ∧
    ((length samples = 0 ∧
      res = {| q_width := width img; q_height := height img;
               quantized := {| width := width img; height := height img;
                               data := data img |};
               palette := [black];
               counts := [width img * height img] |})
     ∨
     (0 < length samples ∧
      ∃ cs0,
        pickInitialCentroids rnd fuel samples (clampK opts) = Some cs0 ∧
        let cs := kmeansLoop moved (default 12 (maxIters opts)) samples (clampK opts) cs0 in
        res = {| q_width := width img; q_height := height img;
                 quantized :=
                   {| width := width img; height := height img;
                      data := JS.for_lt (pixelSteps (length (data img)))
                                (quantizeData (data img) cs)
                                (replicate (length (data img)) 0%Z) |};
                 palette := cs;
                 counts := JS.for_lt (pixelSteps (length (data img)))
                             (quantizeCount (data img) cs)
                             (replicate (clampK opts) 0) |})).
Proof.
  unfold quantizeKMeans. fold (clampK opts).
  destruct (collectSamples _ _ _ _ _) as [samples|] eqn:Hs; [|done].
  cbn [mbind option_bind]. intros Hres. exists samples. split; [done|].
  destruct (Nat.eqb_spec (length samples) 0) as [Hz|Hnz].
  - left. split; [done|]. by injection Hres as <-.
  - right. split; [lia|].
    destruct (pickInitialCentroids rnd fuel samples (clampK opts)) as [cs0|]; [|done].
    cbn [mbind option_bind] in Hres. exists cs0. split; [done|].
    rewrite quantizeLoop_split in Hres. cbn [fst snd] in Hres.
    by injection Hres as <-.
Qed.

(** C10, as the code has it. When at least one sampled pixel (one at a
    multiple of [sampleStride]) has alpha at least 20, every output pixel
    whose input alpha is below 20 is [(0, 0, 0, 0)], every other output
    pixel has alpha 255 and the RGB of one of the returned palette entries,
    and every palette channel is an integer in [0, 255]. *)
Theorem quantize_output_exact_palette
    (rnd : nat → nat) (moved : RGB → Z → Z → Z → nat → bool) (fuel : nat)
    (img : ImageData) (opts : QuantizeOptions) (res : QuantizeResult) (j : nat) :
  wellFormed img →
  quantizeKMeans rnd moved fuel img opts = Some res →
  4 * default 5 (sampleStride opts) * j < length (data img) →
  (20 ≤ byteAt (data img) (4 * default 5 (sampleStride opts) * j + 3)%nat)%Z →
  let out := data (quantized res) in
  length out = length (data img) ∧
  Forall byteColor (palette res) ∧
  ∀ p, p < width img * height img →
    ((byteAt (data img) (4 * p + 3) < 20)%Z →
       out !! (4 * p) = Some 0%Z ∧ out !! (4 * p + 1) = Some 0%Z ∧
       out !! (4 * p + 2) = Some 0%Z ∧ out !! (4 * p + 3) = Some 0%Z) ∧
    ((20 ≤ byteAt (data img) (4 * p + 3))%Z →
       out !! (4 * p + 3) = Some 255%Z ∧
       ∃ c, c ∈ palette res ∧
            out !! (4 * p) = Some (r c) ∧ out !! (4 * p + 1) = Some (g c) ∧
            out !! (4 * p + 2) = Some (b c)).
Proof.
  intros [Hlen Hbytes] Hres Hj Hop out.
  destruct (quantizeKMeans_cases _ _ _ _ _ _ Hres) as (samples & Hs & Hcase).
  assert (Hpos : 0 < length samples).
  { eapply (collectSamples_opaque _ _ _ 0 [] samples j Hs); simpl; done. }
  destruct Hcase as [[Hz _]|[_ (cs0 & Hpick & Hr)]]; [lia|].
  assert (Hsb : Forall byteColor samples).
  { by eapply (collectSamples_bytes _ _ Hbytes _ _ [] samples). }
  pose proof (pickInitialCentroids_bytes _ _ _ _ _ Hsb Hpick) as Hb0.
  pose proof (pickInitialCentroids_length _ _ _ _ _ Hpick) as Hl0.
  pose proof (kmeansLoop_bytes moved samples (clampK opts)
                (default 12 (maxIters opts)) cs0 Hb0) as Hb.
  pose proof (kmeansLoop_length moved samples (clampK opts)
                (default 12 (maxIters opts)) cs0) as Hl.
  set (cs := kmeansLoop _ _ _ _ cs0) in *. cbv zeta in Hr.
  pose proof (clampK_range opts) as Hk.
  assert (Hcs : 0 < length cs) by lia.
  unfold out. rewrite Hr. cbn [quantized data palette].
  split.
  { rewrite (pixelLoop_length _ (quantizeData_length (data img) cs)).
    apply length_replicate. }
  split; [done|].
  intros p Hp.
  assert (Hq : ∀ k', k' < 4 → 4 * p + k' < length (data img)) by (intros; lia).
  pose proof (quantized_lookup (data img) cs p 0 ltac:(lia) (Hq 0 ltac:(lia))) as L0.
  pose proof (quantized_lookup (data img) cs p 1 ltac:(lia) (Hq 1 ltac:(lia))) as L1.
  pose proof (quantized_lookup (data img) cs p 2 ltac:(lia) (Hq 2 ltac:(lia))) as L2.
  pose proof (quantized_lookup (data img) cs p 3 ltac:(lia) (Hq 3 ltac:(lia))) as L3.
  rewrite Nat.add_0_r in L0. unfold opaqueAt in L0, L1, L2, L3.
  split; intros Ha.
  - destruct (Z.ltb_spec (byteAt (data img) (4 * p + 3)) 20); [|lia].
    done.
  - destruct (Z.ltb_spec (byteAt (data img) (4 * p + 3)) 20); [lia|].
    cbn [negb pick4] in L0, L1, L2, L3. split; [done|].
    assert (Hidx : nearestCentroidIndex (pixelAt (data img) p) cs < length cs)
      by (by apply nearestCentroidIndex_lt).
    destruct (lookup_lt_is_Some_2 cs _ Hidx) as [c Hc].
    assert (Hass : assigned (data img) cs p = c) by (unfold assigned; by rewrite Hc).
    rewrite Hass in L0, L1, L2.
    destruct (Forall_lookup_1 _ _ _ _ Hb Hc) as (Hr' & Hg' & Hb').
    unfold isByte in *.
    exists c. split; [by eapply list_elem_of_lookup_2|].
    rewrite L0, L1, L2. simpl.
    split_and!; f_equal; lia.
Qed.
End QuantizeResult.

Section Report.
Import Imaging.

Lemma insertByCount_perm (x : ReducedColor) (l : list ReducedColor) :
  insertByCount x l ≡ₚ x :: l.
Proof.
  induction l as [|y l IH]; [done|]. simpl.
  destruct (rc_count x <? rc_count y); [|done].
  rewrite IH. apply Permutation_swap.
Qed.

Lemma sortByCountDesc_perm (l : list ReducedColor) : sortByCountDesc l ≡ₚ l.
Proof.
  induction l as [|x l IH]; [done|]. unfold sortByCountDesc in *. simpl.
  by rewrite insertByCount_perm, IH.
Qed.




Lemma quantize_counts_length (rnd : nat → nat) (moved : RGB → Z → Z → Z → nat → bool)
    (fuel : nat) (img : ImageData) (opts : QuantizeOptions) (q : QuantizeResult) :
  quantizeKMeans rnd moved fuel img opts = Some q →
  length (counts q) = length (palette q).
Proof.
  intros Hq. destruct (quantizeKMeans_cases _ _ _ _ _ _ Hq) as (samples & Hs & Hcase).
  destruct Hcase as [[_ ->]|[_ (cs0 & Hpick & ->)]]; [done|].
  cbn [counts palette].
  rewrite quantizeCount_length, length_replicate, kmeansLoop_length.
  symmetry. by eapply pickInitialCentroids_length.
Qed.

End Report.

Section Totality.
Import Imaging.

(** With the round-robin source [t ↦ t] every draw is fresh, so the
    centroid draw finishes within [kk] draws. *)
Lemma pickLoop_round_robin (samples : list RGB) (kk : nat) :
  ∀ fuel t cs (used : gset nat),
    length cs = t → size used = t → (∀ i, i ∈ used ↔ i < t) →
    kk - t ≤ fuel →
    is_Some (pickLoop (λ t, t) fuel samples kk t cs used).
Proof.
  intros fuel. induction fuel as [|fuel IH]; intros t cs used Hcs Hsz Hused Hfuel;
    rewrite pickLoop_unfold; rewrite Hcs, Hsz.
  - destruct (Nat.ltb_spec t kk); [lia|]. simpl. eauto.
  - destruct (Nat.ltb_spec t kk); simpl; [|eauto].
    destruct (Nat.ltb_spec t (length samples)) as [Hn|]; [|eauto].
    rewrite Nat.mod_small by done.
    rewrite decide_False by (rewrite Hused; lia).
    apply IH.
    + rewrite length_app. simpl. lia.
    + rewrite size_union by (apply disjoint_singleton_l; rewrite Hused; lia).
      rewrite size_singleton. lia.
    + intros i. rewrite elem_of_union, elem_of_singleton, Hused. lia.
    + lia.
Qed.

(** With a positive stride, the round-robin source and [k] draws the
    quantizer returns on every raster. *)
Lemma quantizeKMeans_returns (moved : RGB → Z → Z → Z → nat → bool)
    (img : ImageData) (opts : QuantizeOptions) :
  1 ≤ default 5 (sampleStride opts) →
  is_Some (quantizeKMeans (λ t, t) moved (clampK opts) img opts).
Proof.
  intros Hstride. unfold quantizeKMeans. fold (clampK opts).
  destruct (collectSamples_terminates (data img) _ Hstride
              (S (length (data img))) 0 []) as [samples ->]; [lia|].
  cbn [mbind option_bind].
  destruct (length samples =? 0); [eauto|].
  unfold pickInitialCentroids.
  destruct (pickLoop_round_robin samples (clampK opts) (clampK opts) 0 [] ∅)
    as [cs0 ->]; [done|done|set_solver by lia|lia|].
  cbn [mbind option_bind]. destruct (JS.for_lt _ _ _). eauto.
Qed.

(** Outside the degenerate case, the count of a palette entry is the
    number of opaque pixels of the whole raster assigned to it. *)
Lemma quantize_counts_are_coverage
    (rnd : nat → nat) (moved : RGB → Z → Z → Z → nat → bool) (fuel : nat)
    (img : ImageData) (opts : QuantizeOptions) (q : QuantizeResult) (j i : nat) :
  quantizeKMeans rnd moved fuel img opts = Some q →
  4 * default 5 (sampleStride opts) * j < length (data img) →
  (20 ≤ byteAt (data img) (4 * default 5 (sampleStride opts) * j + 3)%nat)%Z →
  i < length (palette q) →
  counts q !! i
  = Some (coverage (data img) (palette q) (pixelSteps (length (data img))) i).
Proof.
  intros Hq Hj Hop Hi.
  destruct (quantizeKMeans_cases _ _ _ _ _ _ Hq) as (samples & Hs & Hcase).
  assert (Hpos : 0 < length samples).
  { eapply (collectSamples_opaque _ _ _ 0 [] samples j Hs); simpl; done. }
  destruct Hcase as [[Hz _]|[_ (cs0 & Hpick & Hr)]]; [lia|].
  cbv zeta in Hr. subst q. cbn [counts palette] in *.
  apply quantizeCount_coverage.
  rewrite kmeansLoop_length in Hi.
  by rewrite (pickInitialCentroids_length _ _ _ _ _ Hpick) in Hi.
Qed.
End Totality.

Section Instances.
Import Imaging.

Lemma quantize_output_exact_palette_witness :
  let out := data (quantized two_tone_quantized) in
  length out = length (data two_tone) ∧
  Forall byteColor (palette two_tone_quantized) ∧
  ∀ p, p < width two_tone * height two_tone →
    ((byteAt (data two_tone) (4 * p + 3) < 20)%Z →
       out !! (4 * p) = Some 0%Z ∧ out !! (4 * p + 1) = Some 0%Z ∧
       out !! (4 * p + 2) = Some 0%Z ∧ out !! (4 * p + 3) = Some 0%Z) ∧
    ((20 ≤ byteAt (data two_tone) (4 * p + 3))%Z →
       out !! (4 * p + 3) = Some 255%Z ∧
       ∃ c, c ∈ palette two_tone_quantized ∧
            out !! (4 * p) = Some (r c) ∧ out !! (4 * p + 1) = Some (g c) ∧
            out !! (4 * p + 2) = Some (b c)).
Proof.
  apply (quantize_output_exact_palette (λ t, t) movedExactly 2 two_tone
           every_pixel two_tone_quantized 0).
  - split; [reflexivity|]. repeat constructor; unfold isByte; lia.
  - reflexivity.
  - simpl. lia.
  - vm_compute. discriminate.
Defined.

(** C10, as stated, fails: a raster without an opaque sample is returned
    as it is, and its transparent pixel keeps the bytes [10 20 30 5]. *)
Lemma quantize_transparent_raster_not_zeroed :
  quantizeKMeans (λ t, t) movedExactly 2 faint
    {| k := 2; maxIters := None; sampleStride := None |}
  = Some {| q_width := 1; q_height := 1; quantized := faint;
            palette := [black]; counts := [1] |} ∧
  ¬ (∀ res, quantizeKMeans (λ t, t) movedExactly 2 faint
              {| k := 2; maxIters := None; sampleStride := None |} = Some res →
      ∀ p, p < width faint * height faint →
        (byteAt (data faint) (4 * p + 3) < 20)%Z →
        data (quantized res) !! (4 * p) = Some 0%Z ∧
        data (quantized res) !! (4 * p + 1) = Some 0%Z ∧
        data (quantized res) !! (4 * p + 2) = Some 0%Z ∧
        data (quantized res) !! (4 * p + 3) = Some 0%Z).
Proof.
  split; [reflexivity|]. intros Hall.
  destruct (Hall _ eq_refl 0) as [H0 _]; [simpl; lia|vm_compute; reflexivity|].
  discriminate H0.
Qed.


(** C4, evaluated. On a uniform 2 x 2 raster no pixel changes colour and
    [removedPixels] is 4; on [red | green | green] with
    [minClusterSize = 2] one pixel is repainted and [removedPixels] is 2
    (the last green pixel, cut off from its cluster by the visited mark,
    is rewritten in its own colour and counted); a lone pixel of alpha 200
    has its alpha byte rewritten to 255. *)
Theorem removeSpecks_counts_unpainted_clusters :
  removeSpecks all_red_2x2 ["#FF0000"; "#00FF00"]%string 50
    = Some (all_red_2x2, 4) ∧
  repaintedPixels 2 2 (data all_red_2x2) (data all_red_2x2) = 0 ∧
  removeSpecks red_green_green ["#FF0000"; "#00FF00"]%string 2
    = Some ({| width := 3; height := 1;
               data := [0; 255; 0; 255;  0; 255; 0; 255;  0; 255; 0; 255]%Z |}, 2) ∧
  repaintedPixels 3 1 (data red_green_green)
    [0; 255; 0; 255;  0; 255; 0; 255;  0; 255; 0; 255]%Z = 1 ∧
  removeSpecks red_half_alpha ["#FF0000"; "#00FF00"]%string 2
    = Some ({| width := 1; height := 1; data := [255; 0; 0; 255]%Z |}, 1).
Proof. vm_compute. repeat split. Qed.
End Instances.

(* ===================================================================== *)
(** * Palette strings *)
(* ===================================================================== *)

Section HexRoundTrip.
Import Imaging.

Lemma hexPair_all_bytes : forallb hexPairOk (seq 0 256) = true.
Proof. vm_compute. reflexivity. Qed.

Lemma hexPair_spec (v : Z) :
  isByte v →
  ∃ a1 a2, hexPair v = [a1; a2] ∧ isWhiteSpace a1 = false ∧
           isWhiteSpace a2 = false ∧ parseInt16 [a1; a2] = Some v.
Proof.
  intros Hv. unfold isByte in Hv.
  pose proof hexPair_all_bytes as Hall.
  rewrite forallb_forall in Hall.
  specialize (Hall (Z.to_nat v)).
  rewrite <- list_elem_of_In, elem_of_seq in Hall.
  specialize (Hall ltac:(lia)). unfold hexPairOk in Hall.
  rewrite Z2Nat.id in Hall by lia.
  destruct (hexPair v) as [|a1 [|a2 [|]]]; try done.
  apply andb_prop in Hall as [Hall Hp]. apply andb_prop in Hall as [H1 H2].
  apply negb_true_iff in H1, H2. apply bool_decide_eq_true in Hp.
  by exists a1, a2.
Qed.

(** The hex strings of a palette parse back to its colours. *)
Lemma hexToRgb_rgbToHex (c : RGB) :
  isByte (r c) → isByte (g c) → isByte (b c) →
  hexToRgb (rgbToHex c) = {| pr := Some (r c); pg := Some (g c); pb := Some (b c) |}.
Proof.
  intros Hr Hg Hb.
  destruct (hexPair_spec _ Hr) as (r1 & r2 & Her & Hr1 & Hr2 & Hpr).
  destruct (hexPair_spec _ Hg) as (g1 & g2 & Heg & Hg1 & Hg2 & Hpg).
  destruct (hexPair_spec _ Hb) as (b1 & b2 & Heb & Hb1 & Hb2 & Hpb).
  unfold hexToRgb, rgbToHex.
  rewrite String.list_ascii_of_string_of_list_ascii.
  rewrite fmap_cons, !fmap_app.
  fold (hexPair (r c)) (hexPair (g c)) (hexPair (b c)).
  rewrite Her, Heg, Heb.
  change (removeFirstHash (toUpperCase "#" :: [r1; r2] ++ [g1; g2] ++ [b1; b2]))
    with [r1; r2; g1; g2; b1; b2].
  assert (Htrim : trim [r1; r2; g1; g2; b1; b2] = [r1; r2; g1; g2; b1; b2]).
  { unfold trim. cbn [skipWhiteSpace]. rewrite Hr1.
    cbn [rev app skipWhiteSpace]. rewrite Hb2. reflexivity. }
  rewrite Htrim.
  change (slice 0 2 [r1; r2; g1; g2; b1; b2]) with [r1; r2].
  change (slice 2 4 [r1; r2; g1; g2; b1; b2]) with [g1; g2].
  change (slice 4 6 [r1; r2; g1; g2; b1; b2]) with [b1; b2].
  by rewrite Hpr, Hpg, Hpb.
Qed.
End HexRoundTrip.

(* ===================================================================== *)
(** * Evaluations *)
(* ===================================================================== *)

Section Evaluations.

(** The end-to-end scenario of the specification: four shafts, straight
    draw, the 2 x 2 twill tie-up; cell [(0, 0)] is 1 and cell [(2, 0)] is 0. *)
Example twill_end_to_end :
  let m := Weave.apply2x2Twill (Weave.createDefaultWeaveModel 4 4 4 4) in
  Weave.tieUp m = [1; 1; 0; 0;  1; 0; 0; 1;  0; 0; 1; 1;  0; 1; 1; 0] ∧
  Weave.generateDrawdown m !! (0 * 4 + 0) = Some 1 ∧
  Weave.generateDrawdown m !! (0 * 4 + 2) = Some 0.
Proof. vm_compute. repeat split. Qed.

(** The default model passes validation. *)
Example default_model_valid :
  Weave.validateWeave (Weave.createDefaultWeaveModel 64 64 4 4) = [] ∧
  Weave.isWithinLoomLimits (Weave.createDefaultWeaveModel 64 64 4 4) = true.
Proof. vm_compute. repeat split. Qed.

(** [hexToRgb] on a palette string, and on a string that is no colour:
    a sign is read, [zz] and a bare [0x] give [NaN]. *)
Example hexToRgb_samples :
  Imaging.hexToRgb "#FF0a10"
    = {| Imaging.pr := Some 255%Z; Imaging.pg := Some 10%Z; Imaging.pb := Some 16%Z |} ∧
  Imaging.hexToRgb " #-1zz0x"
    = {| Imaging.pr := Some (-1)%Z; Imaging.pg := None; Imaging.pb := None |} ∧
  Imaging.rgbToHex {| Imaging.r := 255; Imaging.g := 10; Imaging.b := 0 |} = "#FF0A00"%string.
Proof. vm_compute. repeat split. Qed.

(** A stride of 0 never advances the sampling loop, and a random source
    stuck on one index never fills the centroids. *)
Example quantize_needs_progress :
  Imaging.quantizeKMeans (λ t, t) Imaging.movedExactly 10 Imaging.two_tone
    {| Imaging.k := 2; Imaging.maxIters := None; Imaging.sampleStride := Some 0 |} = None ∧
  Imaging.quantizeKMeans (λ _, 0) Imaging.movedExactly 10 Imaging.two_tone
    Imaging.every_pixel = None.
Proof. vm_compute. repeat split. Qed.
End Evaluations.

(* ===================================================================== *)
(** * More loops *)
(* ===================================================================== *)

Section MoreLoops.
Context {A : Type}.

Lemma grid_index_inj (W x y x' y' : nat) :
  x < W → x' < W → y * W + x = y' * W + x' → y = y' ∧ x = x'.
Proof.
  intros Hx Hx' Heq.
  assert (y = y') as ->
    by (destruct (Nat.lt_trichotomy y y') as [?|[?|?]]; [nia|done|nia]).
  split; [done|lia].
Qed.

(** A row filled in place: the entries below the loop bound are replaced,
    the others and the length are kept. *)
Lemma fillRow_all (g : nat → A) (n : nat) (l : list A) (i : nat) :
  JS.for_lt n (λ i t, <[i := g i]> t) l !! i
  = if decide (i < n) then (λ _, g i) <$> l !! i else l !! i.
Proof.
  induction n as [|n IH]; [done|].
  rewrite for_lt_S, list_lookup_insert.
  assert (Hlen : length (JS.for_lt n (λ i t, <[i := g i]> t) l) = length l).
  { clear. induction n as [|n IH]; [done|]. by rewrite for_lt_S, length_insert. }
  rewrite Hlen, IH.
  destruct (decide (n = i ∧ n < length l)) as [[-> Hl]|Hne].
  - rewrite decide_True by lia.
    destruct (lookup_lt_is_Some_2 l i Hl) as [v ->]. done.
  - destruct (decide (i = n)) as [->|Hin].
    + rewrite decide_False, decide_True by lia.
      rewrite lookup_ge_None_2 by lia. done.
    + repeat case_decide; done || lia.
Qed.

(** The corner loop: inside the [cw] x [ch] corner every cell the buffer
    has is replaced by [f x y]; the rest of the buffer is kept. *)
Lemma fillRect_lookup (W cw ch : nat) (f : nat → nat → A) (d0 : list A) (x y : nat) :
  cw ≤ W → x < W →
  JS.fillRect W cw ch f d0 !! (y * W + x)
  = if decide (x < cw ∧ y < ch) then (λ _, f x y) <$> d0 !! (y * W + x)
    else d0 !! (y * W + x).
Proof.
  intros Hcw Hx. unfold JS.fillRect.
  pose (P := λ (n : nat) (d : list A), ∀ x y : nat, x < W →
           d !! (y * W + x)
           = if decide (x < cw ∧ y < n) then (λ _, f x y) <$> d0 !! (y * W + x)
             else d0 !! (y * W + x)).
  revert x y Hx. change (P ch (JS.for_lt ch
    (λ y d, JS.for_lt cw (λ x d, <[y * W + x := f x y]> d) d) d0)).
  apply for_lt_ind; unfold P.
  - intros x y Hx. rewrite decide_False by lia. done.
  - intros n d Hn IHd.
    pose (Q := λ (k : nat) (e : list A), ∀ x y : nat, x < W →
           e !! (y * W + x)
           = if decide ((x < cw ∧ y < n) ∨ (x < k ∧ y = n))
             then (λ _, f x y) <$> d0 !! (y * W + x)
             else d0 !! (y * W + x)).
    assert (HQ : Q cw (JS.for_lt cw (λ x d, <[n * W + x := f x n]> d) d)).
    { apply for_lt_ind; unfold Q.
      - intros x y Hx. rewrite IHd by done. repeat case_decide; done || lia.
      - intros k e Hk IHe x y Hx.
        rewrite list_lookup_insert.
        destruct (decide (n * W + k = y * W + x ∧ n * W + k < length e))
          as [[Heq Hl]|Hne].
        + destruct (grid_index_inj W k n x y ltac:(lia) Hx Heq) as [<- <-].
          rewrite decide_True by lia.
          specialize (IHe k n ltac:(lia)).
          destruct (lookup_lt_is_Some_2 e _ Hl) as [v Hv]. rewrite Hv in IHe.
          destruct (d0 !! (n * W + k)); [done|].
          by repeat case_decide.
        + rewrite IHe by done.
          destruct (decide (y = n ∧ x = k)) as [[-> ->]|Hxy].
          * assert (Hge : length e ≤ n * W + k) by lia.
            specialize (IHe k n ltac:(lia)).
            rewrite (lookup_ge_None_2 e) in IHe by done.
            destruct (d0 !! (n * W + k)); by repeat case_decide.
          * repeat case_decide; done || lia. }
    intros x y Hx. rewrite (HQ x y Hx). repeat case_decide; done || lia.
Qed.

Lemma fillRect_length (W cw ch : nat) (f : nat → nat → A) (d0 : list A) :
  length (JS.fillRect W cw ch f d0) = length d0.
Proof.
  unfold JS.fillRect.
  apply (for_lt_ind (λ _ d, length d = length d0)); [done|].
  intros n d _ Hd.
  apply (for_lt_ind (λ _ e, length e = length d0)); [done|].
  intros k e _ He. by rewrite length_insert.
Qed.
End MoreLoops.

(* ===================================================================== *)
(** * Drawdown: size, tiling and mirrors *)
(* ===================================================================== *)

Section MoreDrawdown.
Import Weave.

Lemma drawdownCell_split (m : WeaveModel) (x y : nat) :
  drawdownCell m x y
  = liftAt m (baseCoord (mirrorsWarp m) (warpCount m) x)
             (baseCoord (mirrorsWeft m) (weftCount m) y).
Proof. reflexivity. Qed.

Lemma liftAt_binary (m : WeaveModel) (bx by' : option nat) :
  liftAt m bx by' = 0 ∨ liftAt m bx by' = 1.
Proof. unfold liftAt. destruct (JS.truthy _); auto. Qed.

(** Every index of a [W] x [H] grid is [y * W + x] for one cell. *)
Lemma grid_index_cell (W H i : nat) :
  i < W * H → ∃ x y, x < W ∧ y < H ∧ i = y * W + x.
Proof.
  intros Hi. assert (HW : W ≠ 0) by (intros ->; lia).
  exists (i mod W), (i / W). split_and!.
  - by apply Nat.mod_upper_bound.
  - apply Nat.Div0.div_lt_upper_bound. lia.
  - rewrite (Nat.div_mod_eq i W) at 1. lia.
Qed.

(** X1. [generateDrawdown] returns as many cells as the product of the two
    dimensions that [getDrawdownDimensions] reports, and every cell is [0]
    or [1]. *)
Theorem drawdown_dimensions_and_bits (m : WeaveModel) :
  length (generateDrawdown m)
    = (getDrawdownDimensions m).1 * (getDrawdownDimensions m).2 ∧
  ∀ i v, generateDrawdown m !! i = Some v → v = 0 ∨ v = 1.
Proof.
  destruct (generateDrawdown_cells m) as [Hlen Hcells].
  split; [exact Hlen|].
  intros i v Hv.
  assert (Hi : i < outWidth m * outHeight m).
  { rewrite <- Hlen. by eapply lookup_lt_Some. }
  destruct (grid_index_cell _ _ _ Hi) as (x & y & Hx & Hy & ->).
  rewrite Hcells in Hv by done. injection Hv as <-.
  rewrite drawdownCell_split. apply liftAt_binary.
Qed.

Lemma rem_mod_same (x n : nat) : JS.rem (x mod n) n = JS.rem x n.
Proof.
  unfold JS.rem. destruct (n =? 0); [done|]. by rewrite Nat.Div0.mod_mod.
Qed.

(** X2. With both mirrors off the drawdown is the base pattern tiled: cell
    [(x, y)] equals cell [(x mod warpCount, y mod weftCount)]. *)
Theorem drawdown_tiles_base_pattern (m : WeaveModel) (x y : nat) :
  mirrorsWarp m = false → mirrorsWeft m = false →
  x < outWidth m → y < outHeight m →
  generateDrawdown m !! (y * outWidth m + x)
  = generateDrawdown m !! ((y mod weftCount m) * outWidth m + x mod warpCount m)
  ∧ x mod warpCount m < warpCount m ∧ y mod weftCount m < weftCount m.
Proof.
  intros Hmw Hmf Hx Hy.
  destruct (generateDrawdown_cells m) as [_ Hcells].
  assert (HW : warpCount m ≠ 0) by (unfold outWidth in Hx; intros H0; rewrite H0 in Hx; lia).
  assert (HH : weftCount m ≠ 0) by (unfold outHeight in Hy; intros H0; rewrite H0 in Hy; lia).
  pose proof (Nat.mod_upper_bound x _ HW) as Hxm.
  pose proof (Nat.mod_upper_bound y _ HH) as Hym.
  split; [|done].
  assert (Hxo : x mod warpCount m < outWidth m).
  { unfold outWidth in *. destruct (repeatWarp m); [lia|]. nia. }
  assert (Hyo : y mod weftCount m < outHeight m).
  { unfold outHeight in *. destruct (repeatWeft m); [lia|]. nia. }
  rewrite !Hcells by done. f_equal.
  rewrite !drawdownCell_split, Hmw, Hmf. unfold baseCoord.
  by rewrite !rem_mod_same.
Qed.

Lemma drawdown_tiles_base_pattern_witness :
  generateDrawdown tiled_draft !! (5 * 9 + 7)
  = generateDrawdown tiled_draft !! (1 * 9 + 1).
Proof.
  apply (drawdown_tiles_base_pattern tiled_draft 7 5);
    [reflexivity | reflexivity | vm_compute; lia | vm_compute; lia].
Defined.

(** The base coordinate on the two sides of the boundary between tiles
    [t - 1] and [t]. *)
Lemma rem_tile (count t i : nat) : i < count → JS.rem (t * count + i) count = Some i.
Proof.
  intros Hi. unfold JS.rem.
  destruct (Nat.eqb_spec count 0) as [->|_]; [lia|].
  f_equal. symmetry. apply (Nat.mod_unique _ _ t); lia.
Qed.

Lemma oddQuotient_tile (count t i : nat) :
  i < count → JS.oddQuotient (t * count + i) count = Nat.odd t.
Proof.
  intros Hi. unfold JS.oddQuotient.
  destruct (Nat.eqb_spec count 0) as [->|_]; [lia|].
  replace ((t * count + i) / count) with t
    by (apply (Nat.div_unique _ _ t i); lia).
  destruct (Nat.odd t) eqn:Hodd.
  - apply Nat.odd_spec in Hodd as [k ->]. apply Nat.eqb_eq.
    symmetry. apply (Nat.mod_unique _ _ k); lia.
  - apply Nat.eqb_neq. intros Hmod.
    assert (Nat.odd t = true); [|congruence].
    apply Nat.odd_spec. exists (t / 2).
    rewrite (Nat.div_mod_eq t 2) at 1. lia.
Qed.

Lemma baseCoord_reflect (count t i : nat) :
  1 ≤ t → i < count →
  baseCoord true count (t * count + i) = baseCoord true count (t * count - 1 - i).
Proof.
  intros Ht Hi. destruct t as [|t]; [lia|].
  replace (S t * count - 1 - i) with (t * count + (count - 1 - i)) by lia.
  unfold baseCoord.
  rewrite !rem_tile, !oddQuotient_tile by lia.
  rewrite Nat.odd_succ, <- Nat.negb_odd.
  destruct (Nat.odd t); simpl; f_equal; lia.
Qed.

(** X3. With the warp mirror on, every tile is the reflection of its left
    neighbour: column [t * warpCount + i] equals column
    [t * warpCount - 1 - i], for every tile [t >= 1]. *)
Theorem warp_mirror_every_boundary (m : WeaveModel) (t i y : nat) :
  mirrorsWarp m = true →
  1 ≤ t → i < warpCount m →
  t * warpCount m + i < outWidth m → y < outHeight m →
  generateDrawdown m !! (y * outWidth m + (t * warpCount m + i))
  = generateDrawdown m !! (y * outWidth m + (t * warpCount m - 1 - i)).
Proof.
  intros Hmir Ht Hi Hx Hy.
  destruct (generateDrawdown_cells m) as [_ Hcells].
  rewrite !Hcells by lia. f_equal.
  rewrite !drawdownCell_split, Hmir. by rewrite baseCoord_reflect.
Qed.

Lemma warp_mirror_every_boundary_witness :
  generateDrawdown mirrored_both_draft !! (0 * 9 + (2 * 3 + 1))
  = generateDrawdown mirrored_both_draft !! (0 * 9 + (2 * 3 - 1 - 1)).
Proof.
  apply (warp_mirror_every_boundary mirrored_both_draft 2 1 0);
    [reflexivity | lia | simpl; lia | vm_compute; lia | vm_compute; lia].
Defined.

(** X4. With the weft mirror on, every row of tiles is the reflection of
    the one above: row [t * weftCount + j] equals row
    [t * weftCount - 1 - j], for every tile [t >= 1]. *)
Theorem weft_mirror_every_boundary (m : WeaveModel) (t j x : nat) :
  mirrorsWeft m = true →
  1 ≤ t → j < weftCount m →
  t * weftCount m + j < outHeight m → x < outWidth m →
  generateDrawdown m !! ((t * weftCount m + j) * outWidth m + x)
  = generateDrawdown m !! ((t * weftCount m - 1 - j) * outWidth m + x).
Proof.
  intros Hmir Ht Hj Hy Hx.
  destruct (generateDrawdown_cells m) as [_ Hcells].
  rewrite !Hcells by lia. f_equal.
  rewrite !drawdownCell_split, Hmir. by rewrite baseCoord_reflect.
Qed.

Lemma weft_mirror_every_boundary_witness :
  generateDrawdown mirrored_both_draft !! ((1 * 2 + 1) * 9 + 4)
  = generateDrawdown mirrored_both_draft !! ((1 * 2 - 1 - 1) * 9 + 4).
Proof.
  apply (weft_mirror_every_boundary mirrored_both_draft 1 1 4);
    [reflexivity | lia | simpl; lia | vm_compute; lia | vm_compute; lia].
Defined.
End MoreDrawdown.

(* ===================================================================== *)
(** * Generators and the validator *)
(* ===================================================================== *)

Section Generators.
Import Weave.

(** A draft passes the validator when the four counts fit the loom, the
    tie-up holds a [1] and both range checks pass. *)
Lemma validateWeave_passes (m : WeaveModel) :
  harnessCount m ≤ maxHarness (loom m) →
  treadleCount m ≤ maxTreadle (loom m) →
  warpCount m ≤ maxWarp (loom m) →
  weftCount m ≤ maxWeft (loom m) →
  (∃ i, tieUp m !! i = Some 1) →
  inRange (threading m) (harnessCount m) 0 (warpCount m) →
  inRange (treadling m) (treadleCount m) 0 (weftCount m) →
  validateWeave m = [].
Proof.
  intros Hh Ht Hw Hf [i Hi] Hth Htr.
  unfold validateWeave. rewrite !boundsLoop_rangeMsg, !pushIf_optMsg.
  apply (rangeMsg_nil threadingMsg) in Hth.
  apply (rangeMsg_nil treadlingMsg) in Htr. rewrite Hth, Htr.
  assert (Hex : existsb (λ v, v =? 1) (tieUp m) = true).
  { apply existsb_exists. exists 1. split; [|done].
    apply list_elem_of_In. by eapply list_elem_of_lookup_2. }
  rewrite Hex.
  repeat match goal with
  | |- context [?a <? ?b] =>
      destruct (Nat.ltb_spec a b); [lia|]
  end.
  done.
Qed.

(** The straight and paired draws stay below the shaft count. *)
Lemma toUint8_rem_lt (a b : nat) : 1 ≤ b → JS.toUint8 (JS.rem a b) < b.
Proof.
  intros Hb. unfold JS.rem. destruct (Nat.eqb_spec b 0) as [->|Hne]; [lia|].
  unfold JS.toUint8. pose proof (Nat.mod_upper_bound a b Hne).
  pose proof (Nat.Div0.mod_le (a mod b) 256). lia.
Qed.

Lemma fillRow_inRange (g : nat → nat) (limit n : nat) (l : list nat) :
  (∀ i, i < n → g i < limit) →
  inRange (JS.for_lt n (λ i t, <[i := g i]> t) l) limit 0 n.
Proof.
  intros Hg j v [_ Hj] Hv. rewrite fillRow_all in Hv.
  rewrite decide_True in Hv by done.
  apply fmap_Some in Hv as (? & _ & ->). by apply Hg.
Qed.

Lemma for_lt_insert_length {B : Type} (n : nat) (ix : nat → nat) (g : nat → B) (l : list B) :
  length (JS.for_lt n (λ i t, <[ix i := g i]> t) l) = length l.
Proof. induction n as [|n IH]; [done|]. by rewrite for_lt_S, length_insert. Qed.

(** The diagonal tie-up of [applyPlainWeave] and [applyBasket]. *)
Lemma diagonal_lookup (T n : nat) (d0 : list nat) (x y : nat) :
  n ≤ T → x < T →
  JS.for_lt n (λ i t, <[i * T + i := 1]> t) d0 !! (y * T + x)
  = if decide (x = y ∧ y < n) then (λ _, 1) <$> d0 !! (y * T + x)
    else d0 !! (y * T + x).
Proof.
  intros HnT Hx. induction n as [|n IH].
  { rewrite decide_False by lia. done. }
  rewrite for_lt_S, list_lookup_insert.
  rewrite (for_lt_insert_length n (λ i, i * T + i) (λ _, 1)), IH by lia.
  destruct (decide (n * T + n = y * T + x ∧ n * T + n < length d0)) as [[Heq Hl]|Hne].
  - destruct (grid_index_inj T n n x y ltac:(lia) Hx Heq) as [<- <-].
    rewrite decide_True by lia.
    destruct (lookup_lt_is_Some_2 d0 _ Hl) as [v ->]. done.
  - destruct (decide (x = y ∧ y < n)) as [[-> Hy]|Hn1].
    + rewrite decide_True by lia. done.
    + destruct (decide (x = y ∧ y < S n)) as [[-> Hy]|Hn2]; [|done].
      assert (y = n) as -> by lia.
      rewrite lookup_ge_None_2 by lia. done.
Qed.

Lemma diagonal_has_one (H T : nat) :
  1 ≤ H → 1 ≤ T →
  JS.for_lt (Nat.min H T) (λ i t, <[i * T + i := 1]> t) (replicate (H * T) 0) !! 0
  = Some 1.
Proof.
  intros HH HT.
  pose proof (diagonal_lookup T (Nat.min H T) (replicate (H * T) 0) 0 0
                ltac:(lia) ltac:(lia)) as Hd.
  simpl in Hd. rewrite Hd. rewrite decide_True by lia.
  rewrite lookup_replicate_2 by nia. done.
Qed.

(** X5. On a draft with at least one harness and one treadle and counts
    within the loom, a straight draw with the plain tie-up passes
    [validateWeave] without a message, and so does a basket draft. *)
Theorem plain_and_basket_drafts_are_valid (m : WeaveModel) :
  1 ≤ harnessCount m ≤ maxHarness (loom m) →
  1 ≤ treadleCount m ≤ maxTreadle (loom m) →
  warpCount m ≤ maxWarp (loom m) →
  weftCount m ≤ maxWeft (loom m) →
  validateWeave (applyPlainWeave (applyStraightDraw m)) = [] ∧
  isWithinLoomLimits (applyPlainWeave (applyStraightDraw m)) = true ∧
  validateWeave (applyBasket m) = [] ∧
  isWithinLoomLimits (applyBasket m) = true.
Proof.
  intros Hh Ht Hw Hf.
  assert (Hv : validateWeave (applyPlainWeave (applyStraightDraw m)) = []).
  { apply validateWeave_passes; cbn; try lia.
    - exists 0. apply diagonal_has_one; lia.
    - apply fillRow_inRange. intros i _. apply toUint8_rem_lt. lia.
    - apply fillRow_inRange. intros i _. apply toUint8_rem_lt. lia. }
  assert (Hb : validateWeave (applyBasket m) = []).
  { apply validateWeave_passes; cbn; try lia.
    - exists 0. apply diagonal_has_one; lia.
    - apply fillRow_inRange. intros i _. apply toUint8_rem_lt. lia.
    - apply fillRow_inRange. intros i _. apply toUint8_rem_lt. lia. }
  unfold isWithinLoomLimits. by rewrite Hv, Hb.
Qed.

Lemma plain_and_basket_drafts_are_valid_witness :
  validateWeave (applyPlainWeave (applyStraightDraw (blank_draft 6 5 4 3))) = [] ∧
  isWithinLoomLimits (applyPlainWeave (applyStraightDraw (blank_draft 6 5 4 3))) = true ∧
  validateWeave (applyBasket (blank_draft 6 5 4 3)) = [] ∧
  isWithinLoomLimits (applyBasket (blank_draft 6 5 4 3)) = true.
Proof.
  apply (plain_and_basket_drafts_are_valid (blank_draft 6 5 4 3)); simpl; lia.
Defined.


(** The default tie-up [h === t]. *)
Lemma default_tieUp_has_one (H T : nat) :
  1 ≤ H → 1 ≤ T →
  JS.fillRect T T H (λ t h, if h =? t then 1 else 0) (replicate (H * T) 0) !! 0 = Some 1.
Proof.
  intros HH HT.
  pose proof (fillRect_lookup T T H (λ t h, if h =? t then 1 else 0)
                (replicate (H * T) 0) 0 0 ltac:(lia) ltac:(lia)) as Hd.
  simpl in Hd. rewrite Hd, decide_True by lia.
  rewrite lookup_replicate_2 by nia. done.
Qed.

(** X6. The default model, for counts within the default loom and at
    least one harness and treadle, passes [validateWeave] without a
    message. *)
Theorem default_weave_model_is_valid (warp' weft' harness treadle : nat) :
  warp' ≤ 4096 → weft' ≤ 4096 → 1 ≤ harness ≤ 16 → 1 ≤ treadle ≤ 16 →
  validateWeave (createDefaultWeaveModel warp' weft' harness treadle) = [].
Proof.
  intros Hw Hf Hh Ht.
  apply validateWeave_passes; cbn; try lia.
  - exists 0. apply (default_tieUp_has_one harness treadle); lia.
  - apply fillRow_inRange. intros i _. apply toUint8_rem_lt. lia.
  - apply fillRow_inRange. intros i _. apply toUint8_rem_lt. lia.
Qed.

Lemma default_weave_model_is_valid_witness :
  validateWeave (createDefaultWeaveModel 64 64 4 4) = [].
Proof. apply (default_weave_model_is_valid 64 64 4 4); lia. Defined.

(** The twill tie-ups. *)
Lemma twill_has_one (H T width' : nat) :
  1 ≤ H → 1 ≤ T → 1 ≤ width' →
  JS.fillRect T T H (λ t h, match JS.rem (h + t) H with
                            | Some pos => if pos <? width' then 1 else 0
                            | None => 0
                            end) (replicate (H * T) 0) !! 0 = Some 1.
Proof.
  intros HH HT Hw.
  pose proof (fillRect_lookup T T H (λ t h, match JS.rem (h + t) H with
                            | Some pos => if pos <? width' then 1 else 0
                            | None => 0
                            end)
                (replicate (H * T) 0) 0 0 ltac:(lia) ltac:(lia)) as Hd.
  simpl in Hd. rewrite Hd, decide_True by lia.
  rewrite lookup_replicate_2 by nia. simpl.
  unfold JS.rem. destruct (Nat.eqb_spec H 0); [lia|].
  rewrite Nat.Div0.mod_0_l. destruct (Nat.ltb_spec 0 width'); [done|lia].
Qed.

(** The point draw stays below the shaft count. *)
Lemma pointEntry_lt (count i : nat) : 1 ≤ count → pointEntry count i < count.
Proof.
  intros Hc. unfold pointEntry, JS.remZ.
  destruct (Z.eqb_spec (Z.of_nat count * 2 - 2) 0) as [H0|Hne]; simpl; [lia|].
  assert (Hrem : (0 ≤ Z.rem (Z.of_nat i) (Z.of_nat count * 2 - 2)
                  < Z.of_nat count * 2 - 2)%Z).
  { apply Z.rem_bound_pos; lia. }
  destruct (Z.ltb_spec (Z.rem (Z.of_nat i) (Z.of_nat count * 2 - 2)) (Z.of_nat count)).
  - pose proof (Z.mod_pos_bound (Z.rem (Z.of_nat i) (Z.of_nat count * 2 - 2)) 256 ltac:(lia)).
    pose proof (Z.mod_le (Z.rem (Z.of_nat i) (Z.of_nat count * 2 - 2)) 256 ltac:(lia) ltac:(lia)).
    lia.
  - set (v := (Z.of_nat count - 2 - (Z.rem (Z.of_nat i) (Z.of_nat count * 2 - 2) - Z.of_nat count))%Z).
    assert (0 ≤ v < Z.of_nat count)%Z by (unfold v; lia).
    pose proof (Z.mod_pos_bound v 256 ltac:(lia)).
    pose proof (Z.mod_le v 256 ltac:(lia) ltac:(lia)).
    lia.
Qed.

(** X7. The diamond generator yields a valid draft; the herringbone
    generator, which leaves the treadling as it is, yields one when the
    treadling was in range. *)
Theorem point_draw_drafts_are_valid (m : WeaveModel) :
  1 ≤ harnessCount m ≤ maxHarness (loom m) →
  1 ≤ treadleCount m ≤ maxTreadle (loom m) →
  warpCount m ≤ maxWarp (loom m) →
  weftCount m ≤ maxWeft (loom m) →
  validateWeave (applyDiamond m) = [] ∧
  treadling (applyHerringbone m) = treadling m ∧
  (inRange (treadling m) (treadleCount m) 0 (weftCount m) →
   validateWeave (applyHerringbone m) = []).
Proof.
  intros Hh Ht Hw Hf. split_and!; [|done|intros Htr].
  - apply validateWeave_passes; cbn; try lia.
    + exists 0. apply (twill_has_one (harnessCount m) (treadleCount m) 2); lia.
    + apply fillRow_inRange. intros i _. apply pointEntry_lt. lia.
    + apply fillRow_inRange. intros i _. apply pointEntry_lt. lia.
  - apply validateWeave_passes; cbn; try lia.
    + exists 0. apply (twill_has_one (harnessCount m) (treadleCount m) 2); lia.
    + apply fillRow_inRange. intros i _. apply pointEntry_lt. lia.
    + done.
Qed.

Lemma point_draw_drafts_are_valid_witness :
  validateWeave (applyDiamond (blank_draft 9 7 4 3)) = [] ∧
  treadling (applyHerringbone (blank_draft 9 7 4 3)) = treadling (blank_draft 9 7 4 3) ∧
  (inRange (treadling (blank_draft 9 7 4 3)) (treadleCount (blank_draft 9 7 4 3)) 0
     (weftCount (blank_draft 9 7 4 3)) →
   validateWeave (applyHerringbone (blank_draft 9 7 4 3)) = []).
Proof.
  apply (point_draw_drafts_are_valid (blank_draft 9 7 4 3)); simpl; lia.
Defined.
End Generators.

(* ===================================================================== *)
(** * Tie-ups *)
(* ===================================================================== *)

Section TieUps.
Import Weave.

Lemma baseCoord_first_tile (mirror : bool) (count x : nat) :
  x < count → baseCoord mirror count x = Some x.
Proof.
  intros Hx. unfold baseCoord, JS.oddQuotient, JS.rem.
  destruct (Nat.eqb_spec count 0); [lia|].
  rewrite Nat.div_small, (Nat.mod_small x count) by lia.
  destruct mirror; reflexivity.
Qed.

Lemma paired_entry (g : nat → nat) (n a d : nat) (l : list nat) :
  n ≤ length l → 2 * a + 1 < n → d < 2 →
  JS.for_lt n (λ i t, <[i := g (i / 2)]> t) l !! (2 * a + d) = Some (g a).
Proof.
  intros Hl Ha Hd.
  rewrite (fillRow_all (λ i, g (i / 2))), decide_True by lia.
  destruct (lookup_lt_is_Some_2 l (2 * a + d)) as [v ->]; [lia|].
  replace ((2 * a + d) / 2) with a by (apply (Nat.div_unique _ _ a d); lia).
  done.
Qed.

(** X8. The basket draft weaves in 2 x 2 blocks: inside the first tile the
    four cells [(2a + dx, 2b + dy)], [dx, dy < 2], are equal. *)
Theorem basket_weaves_in_blocks (m : WeaveModel) (a b dx dy : nat) :
  warpCount m ≤ length (threading m) →
  weftCount m ≤ length (treadling m) →
  1 ≤ repeatWarp m → 1 ≤ repeatWeft m →
  2 * a + 1 < warpCount m → 2 * b + 1 < weftCount m →
  dx < 2 → dy < 2 →
  generateDrawdown (applyBasket m)
    !! ((2 * b + dy) * outWidth (applyBasket m) + (2 * a + dx))
  = generateDrawdown (applyBasket m)
    !! (2 * b * outWidth (applyBasket m) + 2 * a).
Proof.
  intros Hlt Hlr Hrw Hrf Ha Hb Hdx Hdy.
  destruct (generateDrawdown_cells (applyBasket m)) as [_ Hcells].
  assert (Hw : warpCount m ≤ outWidth (applyBasket m))
    by (unfold outWidth, repeatWarp in *; cbn; nia).
  assert (Hh : weftCount m ≤ outHeight (applyBasket m))
    by (unfold outHeight, repeatWeft in *; cbn; nia).
  replace (2 * b * outWidth (applyBasket m) + 2 * a)
    with ((2 * b + 0) * outWidth (applyBasket m) + (2 * a + 0)) by lia.
  rewrite !Hcells by lia. f_equal.
  rewrite !drawdownCell_split.
  change (warpCount (applyBasket m)) with (warpCount m).
  change (weftCount (applyBasket m)) with (weftCount m).
  rewrite !baseCoord_first_tile by lia.
  unfold liftAt. cbn [applyBasket threading treadling set_tieUp set_treadling
                        set_threading mbind option_bind].
  rewrite !(paired_entry (λ q, JS.toUint8 (JS.rem q (harnessCount m)))) by lia.
  rewrite !(paired_entry (λ q, JS.toUint8 (JS.rem q (treadleCount m)))) by lia.
  done.
Qed.

Lemma basket_weaves_in_blocks_witness :
  generateDrawdown (applyBasket (blank_draft 6 4 2 2)) !! ((2 * 1 + 1) * 6 + (2 * 2 + 1))
  = generateDrawdown (applyBasket (blank_draft 6 4 2 2)) !! (2 * 1 * 6 + 2 * 2).
Proof.
  apply (basket_weaves_in_blocks (blank_draft 6 4 2 2) 2 1 1 1); vm_compute; lia.
Defined.

(** X9. The satin tie-up lifts one harness on every treadle: the entry of
    harness [h] on treadle [t] is [1] iff [h = (t * skip) mod harness]. *)
Theorem satin_tieUp_single_lift (harness treadle skip h t : nat) :
  h < harness → t < treadle →
  createSatinTieUp harness treadle skip !! (h * treadle + t)
  = Some (if decide (h = (t * skip) mod harness) then 1 else 0).
Proof.
  intros Hh Ht. unfold createSatinTieUp.
  pose (P := λ (n : nat) (d : list nat),
    n ≤ treadle →
    length d = harness * treadle ∧
    d !! (h * treadle + t)
    = Some (if decide (t < n ∧ h = (t * skip) mod harness) then 1 else 0)).
  assert (HP : P treadle (JS.for_lt treadle (λ t tu,
    match JS.rem (t * skip) harness with
    | Some h => <[h * treadle + t := 1]> tu
    | None => tu
    end) (replicate (harness * treadle) 0))).
  { apply for_lt_ind; unfold P.
    - intros _. split; [by rewrite length_replicate|].
      rewrite decide_False by lia. apply lookup_replicate_2. nia.
    - intros n d Hn IH HnT. destruct IH as [Hlen IH]; [lia|].
      unfold JS.rem. destruct (Nat.eqb_spec harness 0) as [->|Hne]; [lia|].
      pose proof (Nat.mod_upper_bound (n * skip) harness Hne) as Hm.
      split; [by rewrite length_insert|].
      rewrite list_lookup_insert, IH.
      destruct (decide ((n * skip) mod harness * treadle + n = h * treadle + t
                        ∧ (n * skip) mod harness * treadle + n < length d))
        as [[Heq _]|Hno].
      + destruct (grid_index_inj treadle n _ t h ltac:(lia) Ht Heq) as [<- <-].
        rewrite decide_True by (split; [lia|done]). done.
      + destruct (decide (t < n ∧ h = (t * skip) mod harness)) as [[? ?]|Hn1].
        * rewrite decide_True by lia. done.
        * rewrite decide_False; [done|].
          intros [Htn ->]. assert (t = n) as -> by lia.
          apply Hno. split; [done|]. rewrite Hlen. nia. }
  destruct HP as [_ HP]; [lia|]. rewrite HP.
  destruct (decide (h = (t * skip) mod harness)).
  - rewrite decide_True by done. done.
  - rewrite decide_False by tauto. done.
Qed.

Lemma satin_tieUp_single_lift_witness :
  createSatinTieUp 5 5 2 !! (4 * 5 + 2) = Some 1.
Proof. apply (satin_tieUp_single_lift 5 5 2 4 2); lia. Defined.



End TieUps.

(* ===================================================================== *)
(** * Grid utilities *)
(* ===================================================================== *)

Section RangeLoops.
Context {St : Type}.

(** A loop from [lo] is a loop from [0] with the index shifted. *)
Lemma for_from_shift (lo hi : nat) (body : nat → St → St) (st : St) :
  JS.for_from lo hi body st = JS.for_lt (hi - lo) (λ i, body (lo + i)) st.
Proof.
  unfold JS.for_from, JS.for_lt.
  generalize (hi - lo) as n. intros n. revert lo st.
  induction n as [|n IH]; intros lo st; [done|].
  cbn [seq fold_left]. rewrite Nat.add_0_r.
  rewrite (IH (S lo)). rewrite <- (fmap_S_seq 0 n).
  clear IH. generalize (body lo st) as s. generalize (seq 0 n) as l.
  induction l as [|i l IHl]; intros s; [done|].
  cbn [fmap list_fmap fold_left]. rewrite <- IHl.
  by replace (lo + S i) with (S lo + i) by lia.
Qed.

Lemma for_lt_ext (n : nat) (body body' : nat → St → St) (st : St) :
  (∀ i s, i < n → body i s = body' i s) →
  JS.for_lt n body st = JS.for_lt n body' st.
Proof.
  intros Hext. induction n as [|n IH]; [done|].
  rewrite !for_lt_S, IH by (intros; apply Hext; lia). apply Hext. lia.
Qed.
End RangeLoops.

Section RectLoops.
Context {A : Type}.
Variables (ix : nat → nat → nat) (f : nat → nat → A) (cw ch : nat).

Lemma rectLoop_length (d0 : list A) : length (JS.rectLoop ix f cw ch d0) = length d0.
Proof.
  unfold JS.rectLoop.
  apply (for_lt_ind (λ _ d, length d = length d0)); [done|].
  intros j d _ Hd.
  apply (for_lt_ind (λ _ d', length d' = length d0)); [done|].
  intros i d' _ Hd'. by rewrite length_insert.
Qed.

Lemma rectLoop_outside (d0 : list A) (k : nat) :
  (∀ i j, i < cw → j < ch → ix i j ≠ k) →
  JS.rectLoop ix f cw ch d0 !! k = d0 !! k.
Proof.
  intros Hout. unfold JS.rectLoop.
  apply (for_lt_ind (λ _ d, d !! k = d0 !! k)); [done|].
  intros j d Hj Hd.
  apply (for_lt_ind (λ _ d', d' !! k = d0 !! k)); [done|].
  intros i d' Hi Hd'. rewrite list_lookup_insert_ne; [done|]. by apply Hout.
Qed.

Hypothesis ix_inj : ∀ i j i' j', i < cw → j < ch → i' < cw → j' < ch →
  ix i j = ix i' j' → i = i' ∧ j = j'.

Lemma rectLoop_inside (d0 : list A) (i j : nat) :
  i < cw → j < ch →
  JS.rectLoop ix f cw ch d0 !! ix i j = (λ _, f i j) <$> d0 !! ix i j.
Proof.
  intros Hi Hj. unfold JS.rectLoop.
  pose (P := λ (n : nat) (d : list A),
    length d = length d0 ∧
    d !! ix i j = if decide (j < n) then (λ _, f i j) <$> d0 !! ix i j
                  else d0 !! ix i j).
  assert (HP : P ch (JS.for_lt ch
      (λ j d, JS.for_lt cw (λ i d, <[ix i j := f i j]> d) d) d0)).
  { apply for_lt_ind; unfold P.
    - split; [done|]. by rewrite decide_False by lia.
    - intros n d Hn [Hlen IH].
      pose (Q := λ (m : nat) (d' : list A),
        length d' = length d0 ∧
        d' !! ix i j = if decide (j < n ∨ (j = n ∧ i < m))
                       then (λ _, f i j) <$> d0 !! ix i j
                       else d0 !! ix i j).
      assert (HQ : Q cw (JS.for_lt cw (λ i d, <[ix i n := f i n]> d) d)).
      { apply for_lt_ind; unfold Q.
        - split; [done|]. rewrite IH.
          destruct (decide (j < n)).
          + by rewrite decide_True by lia.
          + by rewrite decide_False by lia.
        - intros m d' Hm [Hlen' IH'].
          split; [by rewrite length_insert|].
          rewrite list_lookup_insert, IH', Hlen'.
          destruct (decide (ix m n = ix i j ∧ ix m n < length d0)) as [[Heq Hl]|Hno].
          + destruct (ix_inj m n i j Hm Hn Hi Hj Heq) as [<- <-].
            rewrite decide_True by lia.
            destruct (lookup_lt_is_Some_2 d0 _ Hl) as [v ->]. done.
          + destruct (decide (j < n ∨ j = n ∧ i < m)) as [Hin|Hout].
            * by rewrite decide_True by lia.
            * destruct (decide (j < n ∨ j = n ∧ i < S m)) as [Hin'|]; [|done].
              assert (j = n ∧ i = m) as [-> ->] by lia.
              rewrite lookup_ge_None_2; [done|]. 
              destruct (decide (ix m n < length d0)); [tauto|lia]. }
      destruct HQ as [Hlen' HQ]. split; [done|]. rewrite HQ.
      destruct (decide (j < S n)).
      + by rewrite decide_True by lia.
      + by rewrite decide_False by lia. }
  destruct HP as [_ HP]. rewrite HP. by rewrite decide_True by lia.
Qed.
End RectLoops.

Section Grids.
Import GridUtils.

(** X11. [fromIdx] is the inverse of [idx] on the cells of a row. *)
Theorem fromIdx_inverts_idx (x y w i : nat) :
  fromIdx i w = Some (x, y) ↔ idx x y w = i ∧ x < w.
Proof.
  unfold fromIdx, idx. split.
  - destruct (Nat.eqb_spec w 0) as [->|Hw]; [done|].
    intros [= <- <-]. split.
    + rewrite (Nat.div_mod_eq i w) at 3. lia.
    + by apply Nat.mod_upper_bound.
  - intros [<- Hx]. destruct (Nat.eqb_spec w 0) as [->|Hw]; [lia|].
    f_equal. f_equal.
    + symmetry. apply (Nat.mod_unique _ _ y); lia.
    + symmetry. apply (Nat.div_unique _ _ y x); lia.
Qed.

Lemma resizeGrid_fillRect (grid : list nat) (ow oh nw nh fill : nat) :
  resizeGrid grid ow oh nw nh fill
  = JS.fillRect nw (Nat.min ow nw) (Nat.min oh nh)
      (λ x y, JS.toUint16 (grid !! idx x y ow))
      (replicate (nw * nh) (JS.toUint16 (Some fill))).
Proof. reflexivity. Qed.

Lemma resizeGrid_length (grid : list nat) (ow oh nw nh fill : nat) :
  length (resizeGrid grid ow oh nw nh fill) = nw * nh.
Proof. by rewrite resizeGrid_fillRect, fillRect_length, length_replicate. Qed.

Lemma resizeGrid_lookup (grid : list nat) (ow oh nw nh fill x y : nat) :
  x < nw → y < nh →
  resizeGrid grid ow oh nw nh fill !! idx x y nw
  = Some (if decide (x < ow ∧ y < oh) then JS.toUint16 (grid !! idx x y ow)
          else JS.toUint16 (Some fill)).
Proof.
  intros Hx Hy. rewrite resizeGrid_fillRect. unfold idx at 1.
  rewrite fillRect_lookup by lia.
  rewrite lookup_replicate_2 by nia.
  destruct (decide (x < ow ∧ y < oh)).
  - by rewrite decide_True by lia.
  - by rewrite decide_False by lia.
Qed.

(** X12. [resizeGrid] returns [newWidth * newHeight] cells; a cell inside
    the old grid keeps its value, every other cell holds the fill value. *)
Theorem resizeGrid_keeps_corner_fills_rest
    (grid : list nat) (ow oh nw nh fill x y : nat) :
  x < nw → y < nh →
  length (resizeGrid grid ow oh nw nh fill) = nw * nh ∧
  resizeGrid grid ow oh nw nh fill !! idx x y nw
  = Some (if decide (x < ow ∧ y < oh) then JS.toUint16 (grid !! idx x y ow)
          else JS.toUint16 (Some fill)).
Proof.
  intros Hx Hy. split; [apply resizeGrid_length|by apply resizeGrid_lookup].
Qed.

Lemma resizeGrid_keeps_corner_fills_rest_witness :
  length (resizeGrid [1; 2; 3; 4; 5; 6] 3 2 2 3 9) = 2 * 3 ∧
  resizeGrid [1; 2; 3; 4; 5; 6] 3 2 2 3 9 !! idx 1 2 2
  = Some (if decide (1 < 3 ∧ 2 < 2) then JS.toUint16 ([1; 2; 3; 4; 5; 6] !! idx 1 2 3)
          else JS.toUint16 (Some 9)).
Proof.
  apply (resizeGrid_keeps_corner_fills_rest [1; 2; 3; 4; 5; 6] 3 2 2 3 9 1 2); lia.
Defined.

(** X13. Growing a grid of 16-bit values and resizing the result back to
    the old size gives the grid again. *)
Theorem resizeGrid_grow_then_shrink (grid : list nat) (w h W H fill fill' : nat) :
  length grid = w * h →
  Forall (λ v, v < 2 ^ 16) grid →
  w ≤ W → h ≤ H →
  resizeGrid (resizeGrid grid w h W H fill) W H w h fill' = grid.
Proof.
  intros Hlen Hall HwW HhH.
  apply list_eq. intros i.
  destruct (decide (i < w * h)) as [Hi|Hi].
  - destruct (grid_index_cell _ _ _ Hi) as (x & y & Hx & Hy & ->).
    change (y * w + x) with (idx x y w).
    rewrite resizeGrid_lookup by done.
    rewrite decide_True by lia.
    rewrite resizeGrid_lookup by lia.
    rewrite decide_True by lia.
    destruct (lookup_lt_is_Some_2 grid (idx x y w)) as [v Hv];
      [unfold idx; lia|].
    rewrite Hv. f_equal.
    pose proof (Forall_lookup_1 _ _ _ _ Hall Hv) as Hlt. cbv beta in Hlt.
    unfold JS.toUint16. rewrite Nat.Div0.mod_mod. exact (Nat.mod_small _ _ Hlt).
  - rewrite !lookup_ge_None_2; [done|lia|].
    rewrite resizeGrid_length. lia.
Qed.

Lemma resizeGrid_grow_then_shrink_witness :
  resizeGrid (resizeGrid [1; 2; 3; 4; 5; 6] 3 2 5 4 0) 5 4 3 2 7 = [1; 2; 3; 4; 5; 6].
Proof.
  apply (resizeGrid_grow_then_shrink [1; 2; 3; 4; 5; 6] 3 2 5 4 0 7);
    [reflexivity | | lia | lia].
  repeat (apply Forall_cons_2; [apply Nat.ltb_lt; vm_compute; reflexivity|]).
  apply Forall_nil_2.
Defined.

(** X14. [fillGridRegion] sets the closed rectangle between the corners, in
    either order of the corners, and nothing else. *)
Theorem fillGridRegion_sets_rectangle
    (grid : list nat) (width x1 y1 x2 y2 value x y : nat) :
  x1 < width → x2 < width → x < width →
  fillGridRegion grid width x1 y1 x2 y2 value !! idx x y width
  = if decide ((x1 ≤ x ≤ x2 ∨ x2 ≤ x ≤ x1) ∧ (y1 ≤ y ≤ y2 ∨ y2 ≤ y ≤ y1))
    then (λ _, JS.toUint16 (Some value)) <$> grid !! idx x y width
    else grid !! idx x y width.
Proof.
  intros Hx1 Hx2 Hx. unfold fillGridRegion.
  rewrite for_from_shift.
  set (minX := Nat.min x1 x2). set (maxX := Nat.max x1 x2).
  set (minY := Nat.min y1 y2). set (maxY := Nat.max y1 y2).
  rewrite (for_lt_ext (S maxY - minY) _
             (λ j d, JS.for_lt (S maxX - minX)
                       (λ i d, <[idx (minX + i) (minY + j) width
                                 := JS.toUint16 (Some value)]> d) d))
    by (intros j d _; apply for_from_shift).
  change (JS.for_lt (S maxY - minY) _ grid)
    with (JS.rectLoop (λ i j, idx (minX + i) (minY + j) width)
            (λ _ _, JS.toUint16 (Some value)) (S maxX - minX) (S maxY - minY) grid).
  destruct (decide ((x1 ≤ x ≤ x2 ∨ x2 ≤ x ≤ x1) ∧ (y1 ≤ y ≤ y2 ∨ y2 ≤ y ≤ y1)))
    as [Hin|Hout].
  - replace x with (minX + (x - minX)) at 1 by lia.
    replace y with (minY + (y - minY)) at 1 by lia.
    rewrite (rectLoop_inside (λ i j, idx (minX + i) (minY + j) width)); [| |lia|lia].
    + replace (minX + (x - minX)) with x by lia.
      replace (minY + (y - minY)) with y by lia. done.
    + intros i j i' j' Hi Hj Hi' Hj' Heq. unfold idx in Heq.
      destruct (grid_index_inj width (minX + i) (minY + j) (minX + i') (minY + j')
                  ltac:(lia) ltac:(lia) Heq). lia.
  - apply rectLoop_outside. intros i j Hi Hj Heq. unfold idx in Heq.
    destruct (grid_index_inj width (minX + i) (minY + j) x y
                ltac:(lia) ltac:(lia) Heq). lia.
Qed.

Lemma fillGridRegion_sets_rectangle_witness :
  fillGridRegion (replicate 12 0) 4 2 2 1 0 7 !! idx 1 1 4
  = if decide ((2 ≤ 1 ≤ 1 ∨ 1 ≤ 1 ≤ 2) ∧ (2 ≤ 1 ≤ 0 ∨ 0 ≤ 1 ≤ 2))
    then (λ _, JS.toUint16 (Some 7)) <$> replicate 12 0 !! idx 1 1 4
    else replicate 12 0 !! idx 1 1 4.
Proof.
  apply (fillGridRegion_sets_rectangle (replicate 12 0) 4 2 2 1 0 7 1 1); lia.
Defined.
End Grids.

(* ===================================================================== *)
(** * Knit and tuft grids *)
(* ===================================================================== *)

Section ByteGrids.
Import GridUtils.

Lemma for_lt_triple {A B C : Type} (n : nat)
    (fa : nat → A → A) (fb : nat → B → B) (fc : nat → C → C) (a : A) (b : B) (c : C) :
  JS.for_lt n (λ i '(a, b, c), (fa i a, fb i b, fc i c)) (a, b, c)
  = (JS.for_lt n fa a, JS.for_lt n fb b, JS.for_lt n fc c).
Proof.
  induction n as [|n IH]; [done|]. by rewrite !for_lt_S, IH.
Qed.

Lemma resizeKnitGrid_fillRect (g : list nat) (ow oh nw nh : nat) :
  resizeKnitGrid g ow oh nw nh
  = JS.fillRect nw (Nat.min ow nw) (Nat.min oh nh)
      (λ x y, JS.toUint8 (g !! (y * ow + x))) (replicate (nw * nh) 0).
Proof. reflexivity. Qed.

Lemma resizeTuftGrids_fillRect (c p k : list nat) (ow oh nw nh : nat) :
  resizeTuftGrids c p k ow oh nw nh
  = (JS.fillRect nw (Nat.min ow nw) (Nat.min oh nh)
       (λ x y, JS.toUint8 (c !! (y * ow + x))) (replicate (nw * nh) 0),
     JS.fillRect nw (Nat.min ow nw) (Nat.min oh nh)
       (λ x y, JS.toUint8 (p !! (y * ow + x))) (replicate (nw * nh) 40),
     JS.fillRect nw (Nat.min ow nw) (Nat.min oh nh)
       (λ x y, JS.toUint8 (k !! (y * ow + x))) (replicate (nw * nh) 1)).
Proof.
  unfold resizeTuftGrids, JS.fillRect.
  generalize (Nat.min oh nh) as n. intros n.
  induction n as [|n IH]; [done|].
  rewrite !for_lt_S, IH.
  apply (for_lt_triple (Nat.min ow nw)
    (λ x d, <[n * nw + x := JS.toUint8 (c !! (n * ow + x))]> d)
    (λ x d, <[n * nw + x := JS.toUint8 (p !! (n * ow + x))]> d)
    (λ x d, <[n * nw + x := JS.toUint8 (k !! (n * ow + x))]> d)).
Qed.

Lemma byteRect_lookup (g : list nat) (ow oh nw nh fill x y : nat) :
  x < nw → y < nh →
  JS.fillRect nw (Nat.min ow nw) (Nat.min oh nh)
      (λ x y, JS.toUint8 (g !! (y * ow + x))) (replicate (nw * nh) fill)
    !! (y * nw + x)
  = Some (if decide (x < ow ∧ y < oh) then JS.toUint8 (g !! (y * ow + x)) else fill).
Proof.
  intros Hx Hy. rewrite fillRect_lookup by lia.
  rewrite lookup_replicate_2 by nia.
  destruct (decide (x < ow ∧ y < oh)).
  - by rewrite decide_True by lia.
  - by rewrite decide_False by lia.
Qed.

(** X15. [resizeTuftGrids] keeps the common corner of the three maps and
    fills the new cells with yarn [0], pile [40] and cut [1]; its colour
    map is the grid [resizeKnitGrid] returns. *)
Theorem resizeTuftGrids_keeps_corner_with_defaults
    (colorMap pileMap cutMap : list nat) (oldW oldH newW newH x y : nat) :
  x < newW → y < newH →
  let '(newColorMap, newPileMap, newCutMap) :=
    resizeTuftGrids colorMap pileMap cutMap oldW oldH newW newH in
  newColorMap = resizeKnitGrid colorMap oldW oldH newW newH ∧
  newColorMap !! (y * newW + x)
  = Some (if decide (x < oldW ∧ y < oldH)
          then JS.toUint8 (colorMap !! (y * oldW + x)) else 0) ∧
  newPileMap !! (y * newW + x)
  = Some (if decide (x < oldW ∧ y < oldH)
          then JS.toUint8 (pileMap !! (y * oldW + x)) else 40) ∧
  newCutMap !! (y * newW + x)
  = Some (if decide (x < oldW ∧ y < oldH)
          then JS.toUint8 (cutMap !! (y * oldW + x)) else 1).
Proof.
  intros Hx Hy. rewrite resizeTuftGrids_fillRect.
  split; [done|]. by rewrite !byteRect_lookup.
Qed.

Lemma resizeTuftGrids_keeps_corner_with_defaults_witness :
  let '(newColorMap, newPileMap, newCutMap) :=
    resizeTuftGrids [3; 4] [50; 60] [0; 0] 2 1 3 2 in
  newColorMap = resizeKnitGrid [3; 4] 2 1 3 2 ∧
  newColorMap !! (1 * 3 + 2)
  = Some (if decide (2 < 2 ∧ 1 < 1) then JS.toUint8 ([3; 4] !! (1 * 2 + 2)) else 0) ∧
  newPileMap !! (1 * 3 + 2)
  = Some (if decide (2 < 2 ∧ 1 < 1) then JS.toUint8 ([50; 60] !! (1 * 2 + 2)) else 40) ∧
  newCutMap !! (1 * 3 + 2)
  = Some (if decide (2 < 2 ∧ 1 < 1) then JS.toUint8 ([0; 0] !! (1 * 2 + 2)) else 1).
Proof.
  apply (resizeTuftGrids_keeps_corner_with_defaults [3; 4] [50; 60] [0; 0] 2 1 3 2 2 1); lia.
Defined.

(** X16. Resizing a grid of bytes to its own size with [resizeKnitGrid]
    gives the grid again. *)
Theorem resizeKnitGrid_same_size (grid : list nat) (w h : nat) :
  length grid = w * h →
  Forall (λ v, v < 256) grid →
  resizeKnitGrid grid w h w h = grid.
Proof.
  intros Hlen Hall. rewrite resizeKnitGrid_fillRect.
  apply list_eq. intros i.
  destruct (decide (i < w * h)) as [Hi|Hi].
  - destruct (grid_index_cell _ _ _ Hi) as (x & y & Hx & Hy & ->).
    rewrite byteRect_lookup by done. rewrite decide_True by lia.
    destruct (lookup_lt_is_Some_2 grid (y * w + x)) as [v Hv]; [lia|].
    rewrite Hv. f_equal.
    pose proof (Forall_lookup_1 _ _ _ _ Hall Hv) as Hlt. cbv beta in Hlt.
    unfold JS.toUint8. exact (Nat.mod_small _ _ Hlt).
  - rewrite !lookup_ge_None_2; [done|lia|].
    rewrite fillRect_length, length_replicate. lia.
Qed.

Lemma resizeKnitGrid_same_size_witness :
  resizeKnitGrid [1; 0; 2; 255; 0; 7] 3 2 3 2 = [1; 0; 2; 255; 0; 7].
Proof.
  apply (resizeKnitGrid_same_size [1; 0; 2; 255; 0; 7] 3 2); [reflexivity|].
  repeat (apply Forall_cons_2; [lia|]). apply Forall_nil_2.
Defined.
End ByteGrids.

(* ===================================================================== *)
(** * Jacquard statistics and defaults *)
(* ===================================================================== *)

Section JacquardStats.
Import Jacquard.

Lemma initial_stats_lookup (l : list WeaveStructure) (st : gmap string nat) (k : string) :
  fold_left (λ st s, <[id s := 0]> st) l st !! k
  = if decide (k ∈ id <$> l) then Some 0 else st !! k.
Proof.
  revert st. induction l as [|s l IH]; intros st; cbn [fold_left].
  { rewrite decide_False; [done|]. cbn. apply not_elem_of_nil. }
  rewrite IH. rewrite fmap_cons.
  destruct (decide (k ∈ id <$> l)) as [Hin|Hnin].
  - rewrite decide_True; [done|]. by apply elem_of_cons; right.
  - destruct (decide (k = id s)) as [->|Hne].
    + rewrite decide_True by (apply elem_of_cons; by left).
      by rewrite lookup_insert_eq.
    + rewrite decide_False by (rewrite elem_of_cons; tauto).
      by rewrite lookup_insert_ne.
Qed.

Lemma cellsWithId_S (m : JacquardModel) (k : string) (n : nat) :
  cellsWithId m k (S n)
  = cellsWithId m k n + (if decide (id <$> cellStructure m n = Some k) then 1 else 0).
Proof.
  unfold cellsWithId. rewrite seq_S, filter_app, length_app. f_equal.
  cbn [seq Nat.add]. rewrite filter_cons, filter_nil.
  by destruct (decide (id <$> cellStructure m n = Some k)).
Qed.

(** X17. The statistics hold, for every structure id, the number of cells
    that resolve to a structure of that id, and no other key. *)
Theorem getStructureStats_counts_cells (m : JacquardModel) (k : string) :
  getStructureStats m !! k
  = if decide (k ∈ id <$> structures m)
    then Some (cellsWithId m k (length (grid m)))
    else None.
Proof.
  unfold getStructureStats.
  pose (P := λ (n : nat) (st : gmap string nat),
    ∀ k, st !! k = if decide (k ∈ id <$> structures m)
                   then Some (cellsWithId m k n) else None).
  revert k. change (P (length (grid m)) (JS.for_lt (length (grid m)) (λ i st,
    match grid m !! i ≫= (structures m !!.) with
    | Some s => <[id s := default 0 (st !! id s) + 1]> st
    | None => st
    end) (fold_left (λ st s, <[id s := 0]> st) (structures m) ∅))).
  apply for_lt_ind; unfold P.
  - intros k. rewrite initial_stats_lookup, lookup_empty. done.
  - intros n st Hn IH k. rewrite cellsWithId_S.
    fold (cellStructure m n).
    destruct (cellStructure m n) as [s|] eqn:Hs.
    + assert (Hin : id s ∈ id <$> structures m).
      { unfold cellStructure in Hs. apply bind_Some in Hs as (j & _ & Hj).
        apply list_elem_of_fmap. exists s. split; [done|].
        by eapply list_elem_of_lookup_2. }
      destruct (decide (k = id s)) as [->|Hne].
      * rewrite lookup_insert_eq, IH, !decide_True by done. done.
      * rewrite lookup_insert_ne by done. rewrite IH.
        destruct (decide (k ∈ id <$> structures m)); [|done].
        rewrite decide_False by (cbn; congruence). f_equal. lia.
    + rewrite IH. destruct (decide (k ∈ id <$> structures m)); [|done].
      rewrite decide_False by done. f_equal. lia.
Qed.

(** The statistics of a model whose fourth cell names no structure. *)
Example getStructureStats_three_regions :
  getStructureStats three_region_model !! "plain"%string = Some 2 ∧
  getStructureStats three_region_model !! "twill"%string = Some 3 ∧
  getStructureStats three_region_model !! "satin"%string = Some 0 ∧
  getStructureStats three_region_model !! "weft-faced"%string = None.
Proof. vm_compute. repeat split. Qed.

(** X18. The default jacquard model draws a checkerboard: cell [(x, y)] is
    [1] iff [x] and [y] have the same parity. *)
Theorem default_jacquard_is_checkerboard (w h x y : nat) :
  x < w → y < h →
  generateJacquardDrawdown (createDefaultJacquardModel w h) !! (y * w + x)
  = Some (if decide (x mod 2 = y mod 2) then 1 else 0).
Proof.
  intros Hx Hy.
  destruct (generateJacquardDrawdown_cells (createDefaultJacquardModel w h))
    as [_ Hcells].
  cbn [width height createDefaultJacquardModel] in Hcells.
  rewrite Hcells by done. f_equal.
  unfold jacquardCell. cbn [width grid structures createDefaultJacquardModel].
  rewrite lookup_replicate_2 by nia.
  change (structureLift createPlainWeave x y
          = if decide (x mod 2 = y mod 2) then 1 else 0).
  unfold structureLift.
  change (length (threading createPlainWeave)) with 2.
  change (length (treadling createPlainWeave)) with 2.
  change (JS.rem x 2) with (Some (x mod 2)).
  change (JS.rem y 2) with (Some (y mod 2)).
  pose proof (Nat.mod_upper_bound x 2 ltac:(lia)) as Hxm.
  pose proof (Nat.mod_upper_bound y 2 ltac:(lia)) as Hym.
  destruct (x mod 2) as [|[|?]]; [| |lia];
    (destruct (y mod 2) as [|[|?]]; [| |lia]); reflexivity.
Qed.

Lemma default_jacquard_is_checkerboard_witness :
  generateJacquardDrawdown (createDefaultJacquardModel 4 3) !! (2 * 4 + 1)
  = Some (if decide (1 mod 2 = 2 mod 2) then 1 else 0).
Proof. apply (default_jacquard_is_checkerboard 4 3 1 2); lia. Defined.
End JacquardStats.

(* ===================================================================== *)
(** * Palette lookup *)
(* ===================================================================== *)

Section PaletteLookup.
Import Imaging.

(** X19. A palette of byte colours written as hex strings by
    [rgbPaletteToHex] parses back, with [buildPaletteRgb], to its own
    channels. *)
Theorem palette_hex_round_trip (pal : list RGB) :
  Forall byteColor pal →
  buildPaletteRgb (rgbPaletteToHex pal)
  = (λ c, {| pr := Some (r c); pg := Some (g c); pb := Some (b c) |}) <$> pal.
Proof.
  intros Hpal. unfold buildPaletteRgb, rgbPaletteToHex.
  rewrite <- list_fmap_compose.
  apply Forall_fmap_ext_1. eapply Forall_impl; [exact Hpal|].
  intros c (Hr & Hg & Hb). by apply hexToRgb_rgbToHex.
Qed.

Lemma palette_hex_round_trip_witness :
  buildPaletteRgb (rgbPaletteToHex [{| r := 255; g := 0; b := 171 |}; black])
  = (λ c, {| pr := Some (r c); pg := Some (g c); pb := Some (b c) |})
      <$> [{| r := 255; g := 0; b := 171 |}; black].
Proof.
  apply (palette_hex_round_trip [{| r := 255; g := 0; b := 171 |}; black]).
  repeat (apply Forall_cons_2; [unfold byteColor, isByte; simpl; lia|]).
  apply Forall_nil_2.
Defined.

Lemma paletteIndexFrom_spec (r' g' b' : option Z) (pal : list ParsedRGB) (i0 : nat) :
  (∃ i c, paletteIndexFrom i0 r' g' b' pal = Z.of_nat (i0 + i) ∧
          pal !! i = Some c ∧ isSameColor r' g' b' c = true ∧
          ∀ j c', j < i → pal !! j = Some c' → isSameColor r' g' b' c' = false)
  ∨ (paletteIndexFrom i0 r' g' b' pal = (-1)%Z ∧
     ∀ j c', pal !! j = Some c' → isSameColor r' g' b' c' = false).
Proof.
  revert i0. induction pal as [|c pal IH]; intros i0; cbn [paletteIndexFrom].
  { right. split; [done|]. intros j c' Hj. done. }
  fold (isSameColor r' g' b' c).
  destruct (isSameColor r' g' b' c) eqn:Hc.
  - left. exists 0, c. rewrite Nat.add_0_r. split_and!; try done.
    intros j c' Hj. lia.
  - destruct (IH (S i0)) as [(i & c1 & Hres & Hi & Hm & Hfirst)|[Hres Hnone]].
    + left. exists (S i), c1. split_and!; try done.
      * rewrite Hres. f_equal. lia.
      * intros [|j] c' Hj Hc'; [by injection Hc' as <-|].
        apply (Hfirst j); [lia|done].
    + right. split; [done|].
      intros [|j] c' Hc'; [by injection Hc' as <-|]. by apply (Hnone j).
Qed.

(** X20. [pixelToPaletteIndex] returns the first palette entry equal to the
    pixel, and [-1] exactly when there is none. *)
Theorem pixelToPaletteIndex_first_match (r' g' b' : option Z) (pal : list ParsedRGB) :
  (∃ i c, pixelToPaletteIndex r' g' b' pal = Z.of_nat i ∧
          pal !! i = Some c ∧ isSameColor r' g' b' c = true ∧
          ∀ j c', j < i → pal !! j = Some c' → isSameColor r' g' b' c' = false)
  ∨ (pixelToPaletteIndex r' g' b' pal = (-1)%Z ∧
     ∀ j c', pal !! j = Some c' → isSameColor r' g' b' c' = false).
Proof. apply (paletteIndexFrom_spec r' g' b' pal 0). Qed.

(** X21. [nearestCentroidIndex] returns the first centroid at the least
    squared distance. *)
Theorem nearestCentroidIndex_first_nearest (p : RGB) (cs : list RGB) :
  0 < length cs →
  ∃ c, cs !! nearestCentroidIndex p cs = Some c ∧
       (∀ j c', cs !! j = Some c' → (dist2 p c ≤ dist2 p c')%Z) ∧
       (∀ j c', j < nearestCentroidIndex p cs → cs !! j = Some c' →
                (dist2 p c < dist2 p c')%Z).
Proof.
  intros Hpos. unfold nearestCentroidIndex.
  set (body := λ (i : nat) '(best, bestD),
         match cs !! i with
         | Some c =>
             let d := dist2 p c in
             match bestD with
             | Some bd => if (d <? bd)%Z then (i, Some d) else (best, bestD)
             | None => (i, Some d)
             end
         | None => (best, bestD)
         end : nat * option Z).
  pose (P := λ (n : nat) (st : nat * option Z),
    (n = 0 ∧ st = (0, None)) ∨
    (0 < n ∧ ∃ c, cs !! st.1 = Some c ∧ st.2 = Some (dist2 p c) ∧ st.1 < n ∧
       (∀ j c', j < n → cs !! j = Some c' → (dist2 p c ≤ dist2 p c')%Z) ∧
       (∀ j c', j < st.1 → cs !! j = Some c' → (dist2 p c < dist2 p c')%Z))).
  assert (HP : P (length cs) (JS.for_lt (length cs) body (0, None))).
  { apply for_lt_ind; unfold P.
    - by left.
    - intros i [best bestD] Hi IH. right. split; [lia|].
      destruct (lookup_lt_is_Some_2 cs i Hi) as [ci Hci].
      unfold body. rewrite Hci. cbv zeta.
      destruct IH as [[-> [= -> ->]]|[Hi0 (c & Hc & Hd & Hlt & Hmin & Hfirst)]].
      + exists ci. cbn [fst snd]. split_and!; [done|done|lia| |].
        * intros j c' Hj Hc'. assert (j = 0) as -> by lia.
          rewrite Hci in Hc'. injection Hc' as <-. lia.
        * intros j c' Hj. lia.
      + cbn [fst snd] in *. subst bestD.
        destruct (Z.ltb_spec (dist2 p ci) (dist2 p c)) as [Hless|Hge].
        * exists ci. cbn [fst snd]. split_and!; [done|done|lia| |].
          -- intros j c' Hj Hc'.
             destruct (decide (j = i)) as [->|Hne].
             ++ rewrite Hci in Hc'. injection Hc' as <-. lia.
             ++ specialize (Hmin j c' ltac:(lia) Hc'). lia.
          -- intros j c' Hj Hc'. specialize (Hmin j c' ltac:(lia) Hc'). lia.
        * exists c. cbn [fst snd]. split_and!; [done|done|lia| |done].
          intros j c' Hj Hc'.
          destruct (decide (j = i)) as [->|Hne].
          -- rewrite Hci in Hc'. injection Hc' as <-. lia.
          -- apply (Hmin j c'); [lia|done]. }
  destruct HP as [[Hz _]|[_ (c & Hc & _ & Hlt & Hmin & Hfirst)]]; [lia|].
  exists c. split_and!; try done.
  intros j c' Hc'. apply (Hmin j c'); [|done]. by eapply lookup_lt_Some.
Qed.

Lemma nearestCentroidIndex_first_nearest_witness :
  ∃ c, [black; {| r := 9; g := 9; b := 9 |}; black]
         !! nearestCentroidIndex {| r := 1; g := 2; b := 3 |}
              [black; {| r := 9; g := 9; b := 9 |}; black] = Some c ∧
       (∀ j c', [black; {| r := 9; g := 9; b := 9 |}; black] !! j = Some c' →
                (dist2 {| r := 1; g := 2; b := 3 |} c
                 ≤ dist2 {| r := 1; g := 2; b := 3 |} c')%Z) ∧
       (∀ j c', j < nearestCentroidIndex {| r := 1; g := 2; b := 3 |}
                      [black; {| r := 9; g := 9; b := 9 |}; black] →
                [black; {| r := 9; g := 9; b := 9 |}; black] !! j = Some c' →
                (dist2 {| r := 1; g := 2; b := 3 |} c
                 < dist2 {| r := 1; g := 2; b := 3 |} c')%Z).
Proof.
  apply (nearestCentroidIndex_first_nearest {| r := 1; g := 2; b := 3 |}
           [black; {| r := 9; g := 9; b := 9 |}; black]).
  simpl. lia.
Defined.
End PaletteLookup.

(* ===================================================================== *)
(** * Totals of the quantizer, the report and the merge *)
(* ===================================================================== *)

Section Totals.
Import Imaging.

Lemma sum_list_alter_S (l : list nat) (i : nat) :
  i < length l → sum_list (alter S i l) = S (sum_list l).
Proof.
  revert i. induction l as [|x l IH]; intros i Hi; simpl in Hi; [lia|].
  destruct i as [|i]; [done|].
  change (alter S (S i) (x :: l)) with (x :: alter S i l).
  cbn [sum_list sum_list_with]. rewrite IH by lia. lia.
Qed.

Lemma sum_list_perm (l1 l2 : list nat) : l1 ≡ₚ l2 → sum_list l1 = sum_list l2.
Proof. induction 1; simpl; lia. Qed.

Lemma opaqueCount_S (d : list Z) (n : nat) :
  opaqueCount d (S n) = opaqueCount d n + (if opaqueAt d n then 1 else 0).
Proof.
  unfold opaqueCount. rewrite seq_S, filter_app, length_app. f_equal.
  cbn [seq Nat.add]. rewrite filter_cons, filter_nil.
  destruct (opaqueAt d n); [by rewrite decide_True|by rewrite decide_False].
Qed.

Lemma quantizeCount_total (d : list Z) (cs : list RGB) (kk n : nat) :
  0 < length cs → length cs = kk →
  sum_list (JS.for_lt n (quantizeCount d cs) (replicate kk 0)) = opaqueCount d n.
Proof.
  intros Hpos Hkk. induction n as [|n IH].
  - change (sum_list (replicate kk 0) = 0). rewrite sum_list_replicate. lia.
  - rewrite for_lt_S, opaqueCount_S. unfold quantizeCount at 1.
    destruct (opaqueAt d n); [|lia].
    rewrite sum_list_alter_S, IH; [lia|].
    rewrite quantizeCount_length, length_replicate, <- Hkk.
    by apply nearestCentroidIndex_lt.
Qed.

(** X22. The quantizer returns between 2 and 24 palette entries, one count
    for each, and the counts add up to the number of opaque pixels. *)
Theorem quantize_counts_total_opaque
    (rnd : nat → nat) (moved : RGB → Z → Z → Z → nat → bool) (fuel : nat)
    (img : ImageData) (opts : QuantizeOptions) (q : QuantizeResult) (j : nat) :
  quantizeKMeans rnd moved fuel img opts = Some q →
  4 * default 5 (sampleStride opts) * j < length (data img) →
  (20 ≤ byteAt (data img) (4 * default 5 (sampleStride opts) * j + 3)%nat)%Z →
  2 ≤ length (palette q) ≤ 24 ∧
  length (palette q) = Z.to_nat (Z.max 2 (Z.min 24 (k opts))) ∧
  length (counts q) = length (palette q) ∧
  sum_list (counts q) = opaqueCount (data img) (pixelSteps (length (data img))).
Proof.
  intros Hq Hj Hop.
  destruct (quantizeKMeans_cases _ _ _ _ _ _ Hq) as (samples & Hs & Hcase).
  assert (Hpos : 0 < length samples).
  { eapply (collectSamples_opaque _ _ _ 0 [] samples j Hs); simpl; done. }
  destruct Hcase as [[Hz _]|[_ (cs0 & Hpick & Hr)]]; [lia|].
  cbv zeta in Hr. subst q. cbn [counts palette].
  apply pickInitialCentroids_length in Hpick.
  pose proof (clampK_range opts) as Hk.
  rewrite kmeansLoop_length, Hpick.
  split; [done|]. split; [done|].
  split; [by rewrite quantizeCount_length, length_replicate|].
  apply quantizeCount_total; rewrite kmeansLoop_length; lia.
Qed.

Lemma quantize_counts_total_opaque_witness :
  2 ≤ length (palette two_tone_quantized) ≤ 24 ∧
  length (palette two_tone_quantized) = Z.to_nat (Z.max 2 (Z.min 24 (k every_pixel))) ∧
  length (counts two_tone_quantized) = length (palette two_tone_quantized) ∧
  sum_list (counts two_tone_quantized)
  = opaqueCount (data two_tone) (pixelSteps (length (data two_tone))).
Proof.
  apply (quantize_counts_total_opaque (λ t, t) movedExactly 2 two_tone
           every_pixel two_tone_quantized 0).
  - reflexivity.
  - simpl. lia.
  - vm_compute. discriminate.
Defined.

Lemma report_entries (hp : list string) (cnts : list nat) :
  length hp = length cnts →
  imap (λ idx hx, {| hex := hx; rc_count := default 0 (cnts !! idx) |}) hp
  = zip_with (λ hx n, {| hex := hx; rc_count := n |}) hp cnts.
Proof.
  revert cnts. induction hp as [|hx hp IH]; intros [|n cnts] Hlen; try done.
  rewrite imap_cons. simpl. f_equal. apply IH. simpl in Hlen. lia.
Qed.

Lemma report_total (hp : list string) (cnts : list nat) :
  length hp = length cnts →
  sum_list (rc_count <$> filter (λ c, 0 < rc_count c)
              (zip_with (λ hx n, {| hex := hx; rc_count := n |}) hp cnts))
  = sum_list cnts.
Proof.
  revert cnts. induction hp as [|hx hp IH]; intros [|n cnts] Hlen; try done.
  simpl. rewrite filter_cons. simpl in Hlen.
  destruct (decide (0 < rc_count {| hex := hx; rc_count := n |})) as [Hn|Hn];
    simpl in *; rewrite ?IH by lia; lia.
Qed.

(** X23. Colour reduction reports at most 24 colours, [colorCount] is their
    number, and their counts add up to the quantizer's counts. *)
Theorem reported_colours_bounded_and_total
    (rnd : nat → nat) (moved : RGB → Z → Z → Z → nat → bool) (fuel : nat)
    (img : ImageData) (k' : Z) (res : ReductionResult) :
  reduceColorsMainThread rnd moved fuel img k' = Some res →
  colorCount res = length (colors res) ∧
  colorCount res ≤ 24 ∧
  ∃ q, quantizeKMeans rnd moved fuel img
         {| k := k'; maxIters := Some 12; sampleStride := Some 5 |} = Some q ∧
       rr_image res = quantized q ∧
       sum_list (rc_count <$> colors res) = sum_list (counts q).
Proof.
  unfold reduceColorsMainThread.
  destruct (quantizeKMeans _ _ _ _ _) as [q|] eqn:Hq; [|done].
  cbn [mbind option_bind]. intros [= <-]. cbn [colors colorCount rr_image].
  split; [done|].
  pose proof (quantize_counts_length _ _ _ _ _ _ Hq) as Hlen.
  assert (Hrep : reportColors q ≡ₚ
    filter (λ c, 0 < rc_count c)
      (zip_with (λ hx n, {| hex := hx; rc_count := n |})
         (rgbPaletteToHex (palette q)) (counts q))).
  { unfold reportColors. rewrite sortByCountDesc_perm.
    rewrite report_entries; [done|].
    unfold rgbPaletteToHex. by rewrite length_fmap. }
  split.
  - rewrite Hrep.
    etransitivity; [apply length_filter|].
    rewrite length_zip_with. unfold rgbPaletteToHex. rewrite length_fmap.
    destruct (quantizeKMeans_cases _ _ _ _ _ _ Hq) as (samples & Hs & Hcase).
    destruct Hcase as [[_ ->]|[_ (cs0 & Hpick & ->)]]; cbn [palette counts].
    + simpl. lia.
    + apply pickInitialCentroids_length in Hpick.
      rewrite kmeansLoop_length, Hpick.
      pose proof (clampK_range {| k := k'; maxIters := Some 12; sampleStride := Some 5 |}).
      lia.
  - exists q. split; [done|]. split; [done|].
    rewrite (sum_list_perm _ _ (fmap_Permutation rc_count _ _ Hrep)).
    apply report_total. unfold rgbPaletteToHex. by rewrite length_fmap.
Qed.

Lemma reported_colours_bounded_and_total_witness :
  colorCount two_tone_reduced = length (colors two_tone_reduced) ∧
  colorCount two_tone_reduced ≤ 24 ∧
  ∃ q, quantizeKMeans (λ t, t) movedExactly 2 two_tone
         {| k := 2; maxIters := Some 12; sampleStride := Some 5 |} = Some q ∧
       rr_image two_tone_reduced = quantized q ∧
       sum_list (rc_count <$> colors two_tone_reduced) = sum_list (counts q).
Proof.
  apply (reported_colours_bounded_and_total (λ t, t) movedExactly 2 two_tone 2
           two_tone_reduced).
  reflexivity.
Defined.
End Totals.

Section MergeCount.
Import Imaging.

Lemma matching_S (from : ParsedRGB) (d : list Z) (n : nat) :
  matching from d (S n)
  = matching from d n + (if matchesAt from d (4 * n) then 1 else 0).
Proof.
  unfold matching. rewrite seq_S, filter_app, length_app. f_equal.
  cbn [seq Nat.add]. rewrite filter_cons, filter_nil.
  destruct (matchesAt from d (4 * n)); [by rewrite decide_True|by rewrite decide_False].
Qed.

Lemma mergeLoop_untouched (from to : ParsedRGB) (d : list Z) (n q k : nat) :
  k < 4 → n ≤ q →
  JS.for_lt n (mergeData from to) d !! (4 * q + k) = d !! (4 * q + k).
Proof.
  intros Hk Hq.
  rewrite (pixelLoop_lookup (mergeData from to) (mergeData_outside from to)
             (mergeData_inside from to)) by done.
  by rewrite decide_False by lia.
Qed.

Lemma mergeLoop_count (from to : ParsedRGB) (d : list Z) (n : nat) :
  (JS.for_lt n (mergePixel from to) (d, 0)).2 = matching from d n.
Proof.
  induction n as [|n IH]; [done|].
  rewrite for_lt_S, matching_S.
  pose proof (mergeLoop_data from to n (d, 0)) as Hd. cbn [fst] in Hd.
  destruct (JS.for_lt n (mergePixel from to) (d, 0)) as [dn c]. cbn [fst snd] in *.
  subst c dn. unfold mergePixel.
  rewrite (matchesAt_ext from _ d); last first.
  { intros k Hk. by apply mergeLoop_untouched. }
  destruct (matchesAt from d (4 * n)); cbn [snd]; lia.
Qed.

(** X24. The merge reports the number of pixels of the input that have the
    colour [fromHex] at alpha 20 or more, and leaves every other pixel as
    it was. *)
Theorem merge_counts_matches_and_keeps_rest (img : ImageData) (fromHex toHex : string) :
  (mergeColorInImage img fromHex toHex).2
  = matching (hexToRgb fromHex) (data img) (pixelSteps (length (data img))) ∧
  length (data (mergeColorInImage img fromHex toHex).1) = length (data img) ∧
  ∀ q k, k < 4 → matchesAt (hexToRgb fromHex) (data img) (4 * q) = false →
    data (mergeColorInImage img fromHex toHex).1 !! (4 * q + k)
    = data img !! (4 * q + k).
Proof.
  split; [|split].
  - unfold mergeColorInImage.
    rewrite <- (mergeLoop_count (hexToRgb fromHex) (hexToRgb toHex)).
    by destruct (JS.for_lt _ _ _).
  - rewrite mergeColorInImage_data. cbn [data]. apply length_merged.
  - intros q k Hk Hm. rewrite mergeColorInImage_data. cbn [data].
    rewrite merged_lookup by done. unfold mergeData. by rewrite Hm.
Qed.
End MergeCount.

(* ===================================================================== *)
(** * Separation plates *)
(* ===================================================================== *)

Section Plates.
Import Imaging.

Lemma platePixel_split (d : list Z) (rgb : ParsedRGB) (p : nat) (st : list Z * nat) :
  platePixel d rgb p st
  = (plateData d rgb p st.1, if inked d rgb p then S st.2 else st.2).
Proof.
  destruct st as [out c]. unfold platePixel, plateData, inked. cbn [fst snd].
  destruct (below20 _); [done|]. by destruct (isSameColor _ _ _ _).
Qed.

Lemma plateLoop_split (d : list Z) (rgb : ParsedRGB) (n : nat) (out : list Z) :
  JS.for_lt n (platePixel d rgb) (out, 0)
  = (JS.for_lt n (plateData d rgb) out,
     length (filter (λ p, inked d rgb p = true) (seq 0 n))).
Proof.
  induction n as [|n IH]; [done|].
  rewrite !for_lt_S, IH, platePixel_split. cbn [fst snd]. f_equal.
  rewrite seq_S, filter_app, length_app. cbn [seq Nat.add].
  rewrite filter_cons, filter_nil.
  destruct (inked d rgb n); [rewrite decide_True by done|rewrite decide_False by done];
    simpl; lia.
Qed.

Lemma plateData_length d rgb p out : length (plateData d rgb p out) = length out.
Proof.
  unfold plateData. destruct (below20 _); [done|].
  destruct (isSameColor _ _ _ _); apply length_write4.
Qed.

Lemma plateData_outside d rgb p out j :
  j < 4 * p ∨ 4 * p + 4 ≤ j → plateData d rgb p out !! j = out !! j.
Proof.
  intros Hj. unfold plateData. destruct (below20 _); [done|].
  destruct (isSameColor _ _ _ _); by apply write4_outside.
Qed.

Lemma plateData_inside d rgb p o1 o2 :
  (∀ k, k < 4 → o1 !! (4 * p + k) = o2 !! (4 * p + k)) →
  ∀ k, k < 4 → plateData d rgb p o1 !! (4 * p + k) = plateData d rgb p o2 !! (4 * p + k).
Proof.
  intros Heq k Hk. unfold plateData. destruct (below20 _); [by apply Heq|].
  destruct (isSameColor _ _ _ _); rewrite !write4_inside by done; by rewrite Heq.
Qed.

Lemma pixelSteps_exact (n : nat) : pixelSteps (4 * n) = n.
Proof. unfold pixelSteps. symmetry. apply (Nat.div_unique _ _ n 3); lia. Qed.

Lemma plate_lookup (d : list Z) (rgb : ParsedRGB) (n p k : nat) :
  p < n → k < 4 →
  JS.for_lt n (plateData d rgb) (replicate (4 * n) 0%Z) !! (4 * p + k)
  = Some (if (k =? 3) && inked d rgb p then 255%Z else 0%Z).
Proof.
  intros Hp Hk.
  rewrite (pixelLoop_lookup (plateData d rgb) (plateData_outside d rgb)
             (plateData_inside d rgb)) by done.
  rewrite decide_True by done.
  unfold plateData, inked.
  destruct (below20 _); cbn [negb andb].
  { rewrite lookup_replicate_2 by lia. by rewrite andb_false_r. }
  destruct (isSameColor _ _ _ _); rewrite write4_inside by done;
    rewrite lookup_replicate_2 by lia; cbn [fmap option_fmap option_map];
    by destruct k as [|[|[|[|k]]]]; try lia.
Qed.

Lemma separation_plate_data (img : ImageData) (marks : bool) (c : ReducedColor) :
  length (data img) = 4 * (width img * height img) →
  plate_hex (separationPlate img marks c) = hex c ∧
  ∀ p k, p < width img * height img → k < 4 →
    plate_data (separationPlate img marks c) !! (4 * p + k)
    = Some (if (k =? 3) && inked (data img) (hexToRgb (hex c)) p
            then 255%Z else 0%Z).
Proof.
  intros Hlen. unfold separationPlate.
  rewrite Hlen, pixelSteps_exact, plateLoop_split.
  cbn [plate_hex plate_data]. split; [done|].
  intros p k Hp Hk. by apply plate_lookup.
Qed.

(** X25. Plate [i] belongs to colour [i] and records whether registration
    marks are stroked on it (by default they are); its raster, as written
    on the canvas before any mark, inks in black at full alpha exactly the
    pixels of alpha 20 or more that have that colour and leaves every
    other pixel transparent; the plate counts the inked pixels. *)
Theorem separation_plate_inks_its_colour
    (img : ImageData) (colors' : list ReducedColor) (addRegistrationMarks : option bool)
    (i : nat) (c : ReducedColor) :
  length (data img) = 4 * (width img * height img) →
  colors' !! i = Some c →
  ∃ pl, generateSeparationPlates img colors' addRegistrationMarks !! i = Some pl ∧
    plate_hex pl = hex c ∧
    plate_width pl = width img ∧ plate_height pl = height img ∧
    plate_marks pl = default true addRegistrationMarks ∧
    length (plate_data pl) = 4 * (width img * height img) ∧
    plate_count pl
    = length (filter (λ p, inked (data img) (hexToRgb (hex c)) p = true)
                (seq 0 (width img * height img))) ∧
    ∀ p k, p < width img * height img → k < 4 →
      plate_data pl !! (4 * p + k)
      = Some (if (k =? 3) && inked (data img) (hexToRgb (hex c)) p
              then 255%Z else 0%Z).
Proof.
  intros Hlen Hc.
  exists (separationPlate img (default true addRegistrationMarks) c).
  split. { unfold generateSeparationPlates. by rewrite list_lookup_fmap, Hc. }
  unfold separationPlate.
  rewrite Hlen, pixelSteps_exact, plateLoop_split.
  cbn [plate_hex plate_width plate_height plate_data plate_marks plate_count].
  split_and!; try done.
  - rewrite (pixelLoop_length _ (plateData_length (data img) (hexToRgb (hex c)))).
    apply length_replicate.
  - intros p k Hp Hk. by apply plate_lookup.
Qed.

Lemma separation_plate_inks_its_colour_witness :
  ∃ pl, generateSeparationPlates two_inks
          [{| hex := "#FF0000"; rc_count := 2 |}; {| hex := "#00FF00"; rc_count := 1 |}]
          None !! 1 = Some pl ∧
    plate_hex pl = "#00FF00"%string ∧
    plate_width pl = 2 ∧ plate_height pl = 2 ∧
    plate_marks pl = default true None ∧
    length (plate_data pl) = 4 * (2 * 2) ∧
    plate_count pl
    = length (filter (λ p, inked (data two_inks) (hexToRgb "#00FF00") p = true)
                (seq 0 (2 * 2))) ∧
    ∀ p k, p < 2 * 2 → k < 4 →
      plate_data pl !! (4 * p + k)
      = Some (if (k =? 3) && inked (data two_inks) (hexToRgb "#00FF00") p
              then 255%Z else 0%Z).
Proof.
  apply (separation_plate_inks_its_colour two_inks
           [{| hex := "#FF0000"; rc_count := 2 |}; {| hex := "#00FF00"; rc_count := 1 |}]
           None 1 {| hex := "#00FF00"; rc_count := 1 |}); reflexivity.
Defined.

Lemma strictEq_true (x n : option Z) : strictEq x n = true → n = x ∧ is_Some x.
Proof.
  destruct x as [a|], n as [c|]; simpl; try done.
  intros ->%Z.eqb_eq. eauto.
Qed.

Lemma inked_same_colour (d : list Z) (rgb1 rgb2 : ParsedRGB) (p : nat) :
  inked d rgb1 p = true → inked d rgb2 p = true → rgb1 = rgb2.
Proof.
  unfold inked, isSameColor. intros H1 H2.
  repeat match goal with
  | H : _ && _ = true |- _ => apply andb_prop in H as [? ?]
  | H : strictEq _ _ = true |- _ => apply strictEq_true in H as [? _]
  end.
  destruct rgb1, rgb2; simpl in *; congruence.
Qed.

(** X26. Before the registration marks are stroked on the plate canvases, the
    rasters of two plates of different colours never ink the same pixel:
    on one of the two rasters the pixel's alpha is [0].  (The marks, which
    are on by default, are stroked afterwards over every plate alike and
    are no part of these rasters.) *)
Theorem separation_rasters_never_overlap
    (img : ImageData) (colors' : list ReducedColor) (addRegistrationMarks : option bool)
    (i j : nat) (pi pj : SeparationPlate) (p : nat) :
  length (data img) = 4 * (width img * height img) →
  generateSeparationPlates img colors' addRegistrationMarks !! i = Some pi →
  generateSeparationPlates img colors' addRegistrationMarks !! j = Some pj →
  hexToRgb (plate_hex pi) ≠ hexToRgb (plate_hex pj) →
  p < width img * height img →
  plate_data pi !! (4 * p + 3) = Some 0%Z ∨ plate_data pj !! (4 * p + 3) = Some 0%Z.
Proof.
  intros Hlen Hi Hj Hne Hp.
  unfold generateSeparationPlates in Hi, Hj.
  apply list_lookup_fmap_Some in Hi as (ci & -> & Hci).
  apply list_lookup_fmap_Some in Hj as (cj & -> & Hcj).
  destruct (separation_plate_data img (default true addRegistrationMarks) ci)
    as [Hhi Hdi]; [done|].
  destruct (separation_plate_data img (default true addRegistrationMarks) cj)
    as [Hhj Hdj]; [done|].
  rewrite Hhi, Hhj in Hne.
  rewrite Hdi, Hdj by (done || lia). cbn [Nat.eqb andb].
  destruct (inked (data img) (hexToRgb (hex ci)) p) eqn:H1; [|by left].
  destruct (inked (data img) (hexToRgb (hex cj)) p) eqn:H2; [|by right].
  exfalso. apply Hne. by eapply inked_same_colour.
Qed.

Lemma separation_rasters_never_overlap_witness :
  plate_data (separationPlate two_inks true {| hex := "#FF0000"; rc_count := 2 |})
    !! (4 * 0 + 3) = Some 0%Z
  ∨ plate_data (separationPlate two_inks true {| hex := "#00FF00"; rc_count := 1 |})
    !! (4 * 0 + 3) = Some 0%Z.
Proof.
  apply (separation_rasters_never_overlap two_inks
           [{| hex := "#FF0000"; rc_count := 2 |}; {| hex := "#00FF00"; rc_count := 1 |}]
           None 0 1
           (separationPlate two_inks true {| hex := "#FF0000"; rc_count := 2 |})
           (separationPlate two_inks true {| hex := "#00FF00"; rc_count := 1 |}) 0);
    [reflexivity | reflexivity | reflexivity | vm_compute; discriminate | simpl; lia].
Defined.
End Plates.

(* ===================================================================== *)
(** * Majority filter *)
(* ===================================================================== *)

Section Majority.
Import Imaging.

Lemma majorityPixel_length (src : list Z) (w x y : nat) (out : list Z) :
  length (majorityPixel src w x y out) = length out.
Proof.
  unfold majorityPixel, getPixel.
  destruct (below20 _); [done|].
  destruct (5 <=? _); [|done].
  destruct (bestColor _ _).1 as [[br bg] bb]. apply length_write4.
Qed.

Lemma majorityPixel_other (src : list Z) (w x y : nat) (out : list Z) (j : nat) :
  j < (y * w + x) * 4 ∨ (y * w + x) * 4 + 4 ≤ j →
  majorityPixel src w x y out !! j = out !! j.
Proof.
  intros Hj. unfold majorityPixel, getPixel.
  destruct (below20 _); [done|].
  destruct (5 <=? _); [|done].
  destruct (bestColor _ _).1 as [[br bg] bb]. by apply write4_outside.
Qed.

Lemma majorityPixel_transparent (src : list Z) (w x y : nat) (out : list Z) :
  below20 (src !! ((y * w + x) * 4 + 3)) = true →
  majorityPixel src w x y out = out.
Proof. intros Ha. unfold majorityPixel, getPixel. by rewrite Ha. Qed.

Lemma majorityPass_length (w h : nat) (src : list Z) :
  length (majorityPass w h src) = length src.
Proof.
  unfold majorityPass. rewrite for_from_shift.
  apply (for_lt_ind (λ _ d, length d = length src)); [done|].
  intros j d _ Hd. rewrite for_from_shift.
  apply (for_lt_ind (λ _ d', length d' = length src)); [done|].
  intros i d' _ Hd'. by rewrite majorityPixel_length.
Qed.

(** One pass keeps the bytes of the border pixels and of the pixels of
    alpha below 20. *)
Lemma majorityPass_keeps (w h : nat) (src : list Z) (x y k : nat) :
  x < w → k < 4 →
  x = 0 ∨ y = 0 ∨ w ≤ x + 1 ∨ h ≤ y + 1
    ∨ below20 (src !! ((y * w + x) * 4 + 3)) = true →
  majorityPass w h src !! ((y * w + x) * 4 + k) = src !! ((y * w + x) * 4 + k).
Proof.
  intros Hx Hk Hcase. unfold majorityPass. rewrite for_from_shift.
  apply (for_lt_ind (λ _ d, d !! ((y * w + x) * 4 + k) = src !! ((y * w + x) * 4 + k)));
    [done|].
  intros j d Hj Hd. rewrite for_from_shift.
  apply (for_lt_ind (λ _ d', d' !! ((y * w + x) * 4 + k) = src !! ((y * w + x) * 4 + k)));
    [done|].
  intros i d' Hi Hd'.
  destruct (decide ((1 + j) * w + (1 + i) = y * w + x)) as [Heq|Hne].
  - destruct (grid_index_inj w (1 + i) (1 + j) x y ltac:(lia) Hx Heq) as [<- <-].
    rewrite majorityPixel_transparent; [done|].
    destruct Hcase as [?|[?|[?|[?|Ha]]]]; try lia. done.
  - rewrite majorityPixel_other; [done|]. lia.
Qed.

(** X27. The majority filter keeps the size of the buffer and, whatever the
    number of passes, never touches a pixel on the border of the image or
    a pixel of alpha below 20. *)
Theorem majorityFilter_keeps_border_and_transparent
    (img : ImageData) (passes x y : nat) :
  x < width img → y < height img →
  x = 0 ∨ y = 0 ∨ x = width img - 1 ∨ y = height img - 1
    ∨ below20 (data img !! ((y * width img + x) * 4 + 3)) = true →
  length (data (majorityFilter img passes)) = length (data img) ∧
  ∀ k, k < 4 →
    data (majorityFilter img passes) !! ((y * width img + x) * 4 + k)
    = data img !! ((y * width img + x) * 4 + k).
Proof.
  intros Hx Hy Hcase. unfold majorityFilter. cbn [data].
  induction passes as [|n [IHlen IH]]; [done|].
  rewrite for_lt_S. split; [by rewrite majorityPass_length|].
  intros k Hk. rewrite majorityPass_keeps; [by apply IH|done|done|].
  destruct Hcase as [?|[?|[?|[?|Ha]]]]; [by left|by right; left|right; right; left; lia
    |right; right; right; left; lia|].
  do 4 right. rewrite IH by lia. done.
Qed.

Lemma majorityFilter_keeps_border_and_transparent_witness :
  length (data (majorityFilter plus_3x3 2)) = length (data plus_3x3) ∧
  ∀ k, k < 4 →
    data (majorityFilter plus_3x3 2) !! ((0 * width plus_3x3 + 1) * 4 + k)
    = data plus_3x3 !! ((0 * width plus_3x3 + 1) * 4 + k).
Proof.
  apply (majorityFilter_keeps_border_and_transparent plus_3x3 2 1 0);
    [simpl; lia | simpl; lia | right; left; reflexivity].
Defined.

(** The filter does repaint: the centre of [plus_3x3] takes the colour of
    its five-pixel majority. *)
Example majorityFilter_repaints_centre :
  data (majorityFilter plus_3x3 1)
  = [9; 9; 9; 255;  1; 1; 1; 255;  9; 9; 9; 255;
     1; 1; 1; 255;  1; 1; 1; 255;  1; 1; 1; 255;
     9; 9; 9; 255;  1; 1; 1; 255;  1; 1; 1; 255]%Z.
Proof. vm_compute. reflexivity. Qed.
End Majority.

(* ===================================================================== *)
(** * Speck removal: termination *)
(* ===================================================================== *)

Section FoldInvariant.
Context {A B : Type}.

Lemma fold_left_inv (P : A → Prop) (f : A → B → A) (l : list B) (a : A) :
  P a → (∀ s x, P s → P (f s x)) → P (fold_left f l a).
Proof.
  intros Ha Hstep. revert a Ha. induction l as [|x l IH]; intros a Ha; [done|].
  simpl. apply IH. by apply Hstep.
Qed.
End FoldInvariant.

Section IndexMap.
Import Imaging.

Lemma toInt16_small (z : Z) : (-32768 ≤ z < 32768)%Z → toInt16 z = z.
Proof. intros Hz. unfold toInt16. rewrite Z.mod_small; lia. Qed.

Lemma paletteIndexFrom_range (r' g' b' : option Z) (pal : list ParsedRGB) (i0 : nat) :
  paletteIndexFrom i0 r' g' b' pal = (-1)%Z
  ∨ (Z.of_nat i0 ≤ paletteIndexFrom i0 r' g' b' pal < Z.of_nat (i0 + length pal))%Z.
Proof.
  revert i0. induction pal as [|c pal IH]; intros i0; cbn [paletteIndexFrom]; [by left|].
  destruct (_ && _); [right; simpl; lia|].
  destruct (IH (S i0)) as [->|Hr]; [by left|right]. simpl. lia.
Qed.

Lemma buildIndexMap_spec (w h : nat) (d : list Z) (pal : list ParsedRGB) :
  (Z.of_nat (length pal) ≤ 32768)%Z →
  length (buildIndexMap w h d pal) = w * h ∧
  ∀ i v, buildIndexMap w h d pal !! i = Some v →
         (-1 ≤ v < Z.of_nat (length pal))%Z.
Proof.
  intros Hpal.
  pose (f := λ x y : nat,
    if below20 (d !! ((y * w + x) * 4 + 3)) then toInt16 (-1)
    else toInt16 (pixelToPaletteIndex (d !! ((y * w + x) * 4))
                    (d !! ((y * w + x) * 4 + 1)) (d !! ((y * w + x) * 4 + 2)) pal)).
  assert (Heq : buildIndexMap w h d pal = JS.fillGrid w h f (replicate (w * h) 0%Z)).
  { unfold buildIndexMap, JS.fillGrid.
    apply for_lt_ext. intros y m _. apply for_lt_ext. intros x m' _.
    unfold f, idx. by destruct (below20 _). }
  rewrite Heq.
  destruct (fillGrid_spec w h f (replicate (w * h) 0%Z)) as [Hlen Hcells];
    [apply length_replicate|].
  split; [done|]. intros i v Hv.
  assert (Hi : i < w * h) by (rewrite <- Hlen; by eapply lookup_lt_Some).
  destruct (grid_index_cell _ _ _ Hi) as (x & y & Hx & Hy & ->).
  rewrite Hcells in Hv by done. injection Hv as <-. unfold f.
  destruct (below20 _).
  - rewrite toInt16_small by lia. lia.
  - unfold pixelToPaletteIndex.
    destruct (paletteIndexFrom_range (d !! ((y * w + x) * 4))
                (d !! ((y * w + x) * 4 + 1)) (d !! ((y * w + x) * 4 + 2)) pal 0)
      as [->|Hr].
    + rewrite toInt16_small by lia. lia.
    + rewrite toInt16_small by lia. lia.
Qed.
End IndexMap.

Section FloodFill.
Import Imaging.
Variables (w h : nat) (map : list Z) (colorIndex : Z).

Lemma inside_pointIdx (n : Point) : outside w h n = false → pointIdx w n < w * h.
Proof.
  destruct n as [x y]. unfold outside, pointIdx, idx. cbn [fst snd].
  intros Ho. apply orb_false_elim in Ho as [Ho Hy].
  apply orb_false_elim in Ho as [Ho Hx].
  apply orb_false_elim in Ho as [Hx0 Hy0].
  apply Z.ltb_ge in Hx0, Hy0. apply Z.leb_gt in Hx, Hy.
  assert (Z.to_nat x < w) by lia. assert (Z.to_nat y < h) by lia. nia.
Qed.

Lemma unvisited_le (v : list nat) : unvisited v ≤ length v.
Proof. apply length_filter. Qed.

Lemma unvisited_insert (v : list nat) (i : nat) :
  i < length v → JS.truthy (v !! i) = false →
  unvisited (<[i := 1]> v) + 1 = unvisited v.
Proof.
  unfold unvisited. revert i. induction v as [|a v IH]; intros i Hi Ht; simpl in Hi; [lia|].
  destruct i as [|i].
  - cbn [insert list_insert]. rewrite !filter_cons.
    simpl in Ht.
    rewrite (decide_False (P := JS.truthy (Some 1) = false)) by done.
    rewrite (decide_True (P := JS.truthy (Some a) = false)) by done.
    cbn [length]. lia.
  - cbn [insert list_insert]. rewrite !filter_cons.
    specialize (IH i ltac:(lia) Ht).
    destruct (decide (JS.truthy (Some a) = false)); cbn [length Nat.add];
      [f_equal|]; exact IH.
Qed.

Lemma visitNeighbour_step (visited : list nat) (queue cluster : list Point) (n : Point) :
  length visited = w * h →
  Forall (cellOf w h map colorIndex) cluster →
  ∃ visited' queue' cluster',
    visitNeighbour w h map colorIndex (visited, queue, cluster) n
      = (visited', queue', cluster') ∧
    length visited' = w * h ∧
    length queue' + unvisited visited' ≤ length queue + unvisited visited ∧
    length cluster ≤ length cluster' ∧
    Forall (cellOf w h map colorIndex) cluster'.
Proof.
  intros Hlen Hcl. unfold visitNeighbour.
  destruct (outside w h n) eqn:Hout; [by eexists _, _, _|].
  destruct (JS.truthy (visited !! pointIdx w n)) eqn:Ht; [by eexists _, _, _|].
  pose proof (inside_pointIdx n Hout) as Hin.
  pose proof (unvisited_insert visited (pointIdx w n) ltac:(lia) Ht) as Hu.
  destruct (decide (map !! pointIdx w n = Some colorIndex)) as [Hm|Hm].
  - eexists _, _, _. split; [done|]. rewrite length_insert.
    split_and!; [done|simpl; lia|rewrite length_app; lia|].
    apply Forall_app. split; [done|]. by apply Forall_singleton.
  - eexists _, _, _. split; [done|]. rewrite length_insert.
    split_and!; [done|lia|done|done].
Qed.

Lemma visitNeighbours_fold (ns : list Point) :
  ∀ (visited : list nat) (queue cluster : list Point),
  length visited = w * h →
  Forall (cellOf w h map colorIndex) cluster →
  ∃ visited' queue' cluster',
    fold_left (visitNeighbour w h map colorIndex) ns (visited, queue, cluster)
      = (visited', queue', cluster') ∧
    length visited' = w * h ∧
    length queue' + unvisited visited' ≤ length queue + unvisited visited ∧
    length cluster ≤ length cluster' ∧
    Forall (cellOf w h map colorIndex) cluster'.
Proof.
  induction ns as [|n ns IH]; intros visited queue cluster Hlen Hcl.
  { by eexists _, _, _. }
  cbn [fold_left].
  destruct (visitNeighbour_step visited queue cluster n Hlen Hcl)
    as (v1 & q1 & c1 & -> & Hlen1 & Hm1 & Hg1 & Hcl1).
  destruct (IH v1 q1 c1 Hlen1 Hcl1) as (v2 & q2 & c2 & -> & Hlen2 & Hm2 & Hg2 & Hcl2).
  eexists _, _, _. split; [done|]. split_and!; [done|lia|lia|done].
Qed.

Lemma floodFill_unfold (fuel : nat) (visited : list nat) (cur : Point)
    (queue cluster : list Point) :
  floodFill (S fuel) w h map colorIndex visited (cur :: queue) cluster
  = let '(visited, queue, cluster) :=
      fold_left (visitNeighbour w h map colorIndex) (neighbors4 cur)
        (visited, queue, cluster) in
    floodFill fuel w h map colorIndex visited queue cluster.
Proof. reflexivity. Qed.

(** The flood fill finishes within as many pops as there are queued and
    unvisited cells. *)
Lemma floodFill_returns (fuel : nat) :
  ∀ (visited : list nat) (queue cluster : list Point),
  length visited = w * h →
  length queue + unvisited visited ≤ fuel →
  Forall (cellOf w h map colorIndex) cluster →
  ∃ visited' cluster',
    floodFill fuel w h map colorIndex visited queue cluster = Some (visited', cluster') ∧
    length visited' = w * h ∧
    length cluster ≤ length cluster' ∧
    Forall (cellOf w h map colorIndex) cluster'.
Proof.
  induction fuel as [|fuel IH]; intros visited queue cluster Hlen Hfuel Hcl.
  - destruct queue as [|cur queue]; [|simpl in Hfuel; lia].
    by eexists _, _.
  - destruct queue as [|cur queue]; [by eexists _, _|].
    rewrite floodFill_unfold.
    destruct (visitNeighbours_fold (neighbors4 cur) visited queue cluster Hlen Hcl)
      as (v1 & q1 & c1 & -> & Hlen1 & Hm1 & Hg1 & Hcl1).
    destruct (IH v1 q1 c1 Hlen1 ltac:(simpl in Hfuel; lia) Hcl1)
      as (v2 & c2 & -> & Hlen2 & Hg2 & Hcl2).
    eexists _, _. split; [done|]. split_and!; [done|lia|done].
Qed.
End FloodFill.

Section SpeckRemoval.
Import Imaging.

(** The flood fill that [speckCell] starts at cell [(x, y)]. *)
Lemma floodFill_start (w h : nat) (map : list Z) (ci : Z) (x y : nat) (visited : list nat) :
  x < w → y < h → length visited = w * h →
  map !! idx x y w = Some ci →
  ∃ v' cl,
    floodFill (S (w * h)) w h map ci (<[idx x y w := 1]> visited)
      [(Z.of_nat x, Z.of_nat y)] [(Z.of_nat x, Z.of_nat y)] = Some (v', cl) ∧
    length v' = w * h ∧ 1 ≤ length cl ∧ Forall (cellOf w h map ci) cl.
Proof.
  intros Hx Hy Hvis Hci.
  apply (floodFill_returns w h map ci (S (w * h)) (<[idx x y w := 1]> visited)
           [(Z.of_nat x, Z.of_nat y)] [(Z.of_nat x, Z.of_nat y)]).
  - by rewrite length_insert.
  - pose proof (unvisited_le (<[idx x y w := 1]> visited)) as Hu.
    rewrite length_insert in Hu. simpl. lia.
  - apply Forall_singleton. split.
    + unfold outside.
      destruct (Z.ltb_spec (Z.of_nat x) 0); [lia|].
      destruct (Z.ltb_spec (Z.of_nat y) 0); [lia|].
      destruct (Z.leb_spec (Z.of_nat w) (Z.of_nat x)); [lia|].
      destruct (Z.leb_spec (Z.of_nat h) (Z.of_nat y)); [lia|]. done.
    + unfold pointIdx. cbn [fst snd]. by rewrite !Nat2Z.id.
Qed.

Lemma tally_keys (P : Z → Prop) (c : Z) (l : list (Z * nat)) :
  P c → Forall (λ e, P e.1) l → Forall (λ e, P e.1) (tally c l).
Proof.
  intros Hc. induction l as [|[c' n] l IH]; intros Hl; cbn [tally].
  - by apply Forall_singleton.
  - apply Forall_cons in Hl as [Hc' Hl].
    destruct (c' =? c)%Z; apply Forall_cons; split; try done. by apply IH.
Qed.

Lemma borderTally_keys (w h : nat) (map : list Z) (colorIndex : Z)
    (cluster : list Point) (bound : Z) :
  (∀ i v, map !! i = Some v → (v < bound)%Z) →
  Forall (λ e, (0 ≤ e.1 < bound)%Z) (borderTally w h map colorIndex cluster).
Proof.
  intros Hmap. unfold borderTally.
  apply (fold_left_inv (Forall (λ e : Z * nat, (0 ≤ e.1 < bound)%Z))); [constructor|].
  intros bc pt Hbc.
  apply (fold_left_inv (Forall (λ e : Z * nat, (0 ≤ e.1 < bound)%Z))); [done|].
  intros bc' n Hbc'.
  destruct (outside w h n); [done|].
  destruct (map !! pointIdx w n) as [c|] eqn:Hc; [|done].
  destruct (Z.ltb_spec c 0); [done|]. cbn [orb].
  destruct (c =? colorIndex)%Z; [done|].
  apply (tally_keys (λ c, (0 ≤ c < bound)%Z)); [|done].
  split; [done|]. by eapply Hmap.
Qed.

Lemma chooseReplacement_range (colorIndex : Z) (bc : list (Z * nat)) (bound : Z) :
  (0 ≤ colorIndex < bound)%Z →
  Forall (λ e, (0 ≤ e.1 < bound)%Z) bc →
  (0 ≤ chooseReplacement colorIndex bc < bound)%Z.
Proof.
  intros Hc Hbc. unfold chooseReplacement.
  revert Hbc. generalize (-1)%Z as best. revert colorIndex Hc.
  induction bc as [|[c cnt] bc IH]; intros rep Hrep best Hbc; [done|].
  apply Forall_cons in Hbc as [Hc Hbc]. cbn [fold_left].
  destruct (best <? Z.of_nat cnt)%Z; by apply IH.
Qed.

Lemma repaint_fold (w : nat) (repRgb : ParsedRGB) (cluster : list Point) (st : SpeckState) :
  let st' := fold_left (λ st pt,
                {| sp_data := paint repRgb (pointIdx w pt * 4) (sp_data st);
                   sp_visited := sp_visited st;
                   removedPixels := S (removedPixels st) |}) cluster st in
  length (sp_data st') = length (sp_data st) ∧
  sp_visited st' = sp_visited st ∧
  removedPixels st' = removedPixels st + length cluster.
Proof.
  revert st. induction cluster as [|pt cluster IH]; intros st; cbn [fold_left length].
  { split_and!; [done|done|lia]. }
  destruct (IH {| sp_data := paint repRgb (pointIdx w pt * 4) (sp_data st);
                  sp_visited := sp_visited st;
                  removedPixels := S (removedPixels st) |}) as (Hd & Hv & Hr).
  cbv zeta in *. rewrite Hd, Hv, Hr. cbn [sp_data sp_visited removedPixels].
  unfold paint. rewrite length_write4. split_and!; [done|done|lia].
Qed.

Lemma speckCell_returns (w h : nat) (map : list Z) (pal : list ParsedRGB)
    (minClusterSize x y : nat) (st : SpeckState) :
  length map = w * h →
  (∀ i v, map !! i = Some v → (v < Z.of_nat (length pal))%Z) →
  x < w → y < h →
  length (sp_visited st) = w * h →
  ∃ st', speckCell w h map pal minClusterSize x y st = Some st' ∧
         length (sp_visited st') = w * h ∧
         length (sp_data st') = length (sp_data st) ∧
         removedPixels st ≤ removedPixels st'.
Proof.
  intros Hmaplen Hmap Hx Hy Hvis. unfold speckCell. cbv zeta.
  destruct (JS.truthy (sp_visited st !! idx x y w));
    [exists st; split_and!; [reflexivity|done|done|lia]|].
  assert (Hstart : idx x y w < w * h) by (unfold idx; nia).
  destruct (lookup_lt_is_Some_2 map (idx x y w)) as [ci Hci]; [lia|].
  rewrite Hci. change (default 0%Z (Some ci)) with ci.
  destruct (Z.ltb_spec ci 0) as [Hneg|Hpos].
  { eexists. split; [reflexivity|]. cbn [sp_visited sp_data removedPixels].
    rewrite length_insert. split_and!; [done|done|lia]. }
  destruct (floodFill_start w h map ci x y (sp_visited st) Hx Hy Hvis Hci)
    as (v' & cl & Hff & Hv' & _ & Hcl).
  destruct (floodFill _ _ _ _ _ _ _ _) as [[v'' cl'']|]; [|discriminate Hff].
  injection Hff as -> ->.
  cbn [mbind option_bind].
  destruct (minClusterSize <=? length cl).
  { eexists. split; [reflexivity|]. cbn [sp_visited sp_data removedPixels].
    split_and!; [done|done|lia]. }
  pose proof (chooseReplacement_range ci (borderTally w h map ci cl)
                (Z.of_nat (length pal))
                ltac:(split; [done|by eapply Hmap])
                (borderTally_keys w h map ci cl _ Hmap)) as Hrep.
  destruct (lookup_lt_is_Some_2 pal
              (Z.to_nat (chooseReplacement ci (borderTally w h map ci cl))))
    as [repRgb ->]; [lia|].
  cbn [mbind option_bind]. eexists. split; [reflexivity|].
  destruct (repaint_fold w repRgb cl
              {| sp_data := sp_data st; sp_visited := v';
                 removedPixels := removedPixels st |}) as (Hd & Hv & Hr).
  cbv zeta in Hd, Hv, Hr. rewrite Hd, Hv, Hr.
  cbn [sp_data sp_visited removedPixels]. split_and!; [done|done|lia].
Qed.

(** X28. Speck removal always returns: every flood fill finishes within its
    bound and every replacement is a palette entry; the raster keeps its
    size. *)
Theorem removeSpecks_always_returns
    (img : ImageData) (paletteHex : list string) (minClusterSize : nat) :
  (Z.of_nat (length paletteHex) ≤ 32768)%Z →
  ∃ out removed,
    removeSpecks img paletteHex minClusterSize = Some (out, removed) ∧
    width out = width img ∧ height out = height img ∧
    length (data out) = length (data img).
Proof.
  intros Hpal. unfold removeSpecks.
  set (w := width img). set (h := height img).
  set (pal := buildPaletteRgb paletteHex).
  destruct (buildIndexMap_spec w h (data img) pal) as [Hmaplen Hmap].
  { unfold pal, buildPaletteRgb. by rewrite length_fmap. }
  set (map := buildIndexMap w h (data img) pal) in *.
  pose (P := λ (_ : nat) (st : option SpeckState),
    ∃ s, st = Some s ∧ length (sp_visited s) = w * h ∧
         length (sp_data s) = length (data img)).
  assert (HP : P h (JS.for_lt h (λ y st,
         JS.for_lt w (λ x st,
           st ≫= speckCell w h map pal minClusterSize x y) st)
       (Some {| sp_data := data img; sp_visited := replicate (w * h) 0;
                removedPixels := 0 |}))).
  { apply for_lt_ind; unfold P.
    - eexists. split; [done|]. cbn [sp_visited sp_data].
      by rewrite length_replicate.
    - intros y st Hy IH.
      apply (for_lt_ind (λ _ st, ∃ s, st = Some s ∧ length (sp_visited s) = w * h ∧
                                      length (sp_data s) = length (data img))); [done|].
      intros x st' Hx (s & -> & Hv & Hd). cbn [mbind option_bind].
      destruct (speckCell_returns w h map pal minClusterSize x y s)
        as (s' & -> & Hv' & Hd' & _); try done.
      { intros i v Hi. apply (Hmap i v Hi). }
      exists s'. split_and!; [done|done|lia]. }
  destruct HP as (s & -> & _ & Hd). cbn [mbind option_bind].
  eexists _, _. split; [done|]. cbn [width height data]. done.
Qed.

Lemma removeSpecks_always_returns_witness :
  ∃ out removed,
    removeSpecks red_green_green ["#FF0000"; "#00FF00"]%string 2 = Some (out, removed) ∧
    width out = width red_green_green ∧ height out = height red_green_green ∧
    length (data out) = length (data red_green_green).
Proof.
  apply (removeSpecks_always_returns red_green_green ["#FF0000"; "#00FF00"]%string 2).
  simpl. lia.
Defined.
End SpeckRemoval.

(* ===================================================================== *)
(** * Speck removal: invariants *)
(* ===================================================================== *)

Section SpeckInvariants.
Import Imaging.

Lemma buildIndexMap_cells (w h : nat) (d : list Z) (pal : list ParsedRGB) :
  length (buildIndexMap w h d pal) = w * h ∧
  ∀ x y, x < w → y < h →
    buildIndexMap w h d pal !! (y * w + x)
    = Some (if below20 (d !! ((y * w + x) * 4 + 3)) then toInt16 (-1)
            else toInt16 (pixelToPaletteIndex (d !! ((y * w + x) * 4))
                            (d !! ((y * w + x) * 4 + 1))
                            (d !! ((y * w + x) * 4 + 2)) pal)).
Proof.
  pose (f := λ x y : nat,
    if below20 (d !! ((y * w + x) * 4 + 3)) then toInt16 (-1)
    else toInt16 (pixelToPaletteIndex (d !! ((y * w + x) * 4))
                    (d !! ((y * w + x) * 4 + 1)) (d !! ((y * w + x) * 4 + 2)) pal)).
  assert (Heq : buildIndexMap w h d pal = JS.fillGrid w h f (replicate (w * h) 0%Z)).
  { unfold buildIndexMap, JS.fillGrid.
    apply for_lt_ext. intros y m _. apply for_lt_ext. intros x m' _.
    unfold f, idx. by destruct (below20 _). }
  rewrite Heq.
  apply (fillGrid_spec w h f (replicate (w * h) 0%Z)), length_replicate.
Qed.

Lemma repaint_fold_keeps (w : nat) (repRgb : ParsedRGB) (cluster : list Point)
    (st : SpeckState) (cell k : nat) :
  k < 4 →
  Forall (λ pt, pointIdx w pt ≠ cell) cluster →
  sp_data (fold_left (λ st pt,
                {| sp_data := paint repRgb (pointIdx w pt * 4) (sp_data st);
                   sp_visited := sp_visited st;
                   removedPixels := S (removedPixels st) |}) cluster st)
    !! (cell * 4 + k)
  = sp_data st !! (cell * 4 + k).
Proof.
  intros Hk. revert st. induction cluster as [|pt cluster IH]; intros st Hcl; [done|].
  apply Forall_cons in Hcl as [Hpt Hcl]. cbn [fold_left].
  rewrite IH by done. cbn [sp_data]. unfold paint.
  apply write4_outside. lia.
Qed.

(** A start cell leaves the pixels of palette index [-1] as they are. *)
Lemma speckCell_keeps (w h : nat) (map : list Z) (pal : list ParsedRGB)
    (minClusterSize x y : nat) (st st' : SpeckState) (cell k : nat) :
  length map = w * h →
  x < w → y < h →
  length (sp_visited st) = w * h →
  map !! cell = Some (-1)%Z → k < 4 →
  speckCell w h map pal minClusterSize x y st = Some st' →
  length (sp_visited st') = w * h ∧
  sp_data st' !! (cell * 4 + k) = sp_data st !! (cell * 4 + k).
Proof.
  intros Hmaplen Hx Hy Hvis Hcell Hk. unfold speckCell. cbv zeta.
  destruct (JS.truthy (sp_visited st !! idx x y w)); [by intros [= <-]|].
  assert (Hstart : idx x y w < w * h) by (unfold idx; nia).
  destruct (lookup_lt_is_Some_2 map (idx x y w)) as [ci Hci]; [lia|].
  rewrite Hci. change (default 0%Z (Some ci)) with ci.
  destruct (Z.ltb_spec ci 0) as [Hneg|Hpos].
  { intros [= <-]. cbn [sp_visited sp_data]. by rewrite length_insert. }
  destruct (floodFill_start w h map ci x y (sp_visited st) Hx Hy Hvis Hci)
    as (v' & cl & Hff & Hv' & _ & Hcl).
  destruct (floodFill _ _ _ _ _ _ _ _) as [[v'' cl'']|]; [|discriminate Hff].
  injection Hff as -> ->. cbn [mbind option_bind].
  destruct (minClusterSize <=? length cl); [by intros [= <-]|].
  destruct (pal !! _) as [repRgb|]; [|done].
  cbn [mbind option_bind]. intros [= <-].
  destruct (repaint_fold w repRgb cl
              {| sp_data := sp_data st; sp_visited := v';
                 removedPixels := removedPixels st |}) as (_ & Hv & _).
  cbv zeta in Hv. rewrite Hv. cbn [sp_visited]. split; [done|].
  rewrite repaint_fold_keeps; [done|done|].
  eapply Forall_impl; [exact Hcl|].
  intros pt [_ Hpt] Heq. rewrite Heq, Hcell in Hpt. injection Hpt as <-. lia.
Qed.

(** X29. Speck removal never repaints a pixel of alpha below 20: its four
    bytes in the result are those of the input. *)
Theorem removeSpecks_keeps_transparent
    (img : ImageData) (paletteHex : list string) (minClusterSize : nat)
    (out : ImageData) (removed x y : nat) :
  removeSpecks img paletteHex minClusterSize = Some (out, removed) →
  x < width img → y < height img →
  below20 (data img !! ((y * width img + x) * 4 + 3)) = true →
  ∀ k, k < 4 →
    data out !! ((y * width img + x) * 4 + k)
    = data img !! ((y * width img + x) * 4 + k).
Proof.
  unfold removeSpecks.
  set (w := width img). set (h := height img).
  set (pal := buildPaletteRgb paletteHex).
  destruct (buildIndexMap_cells w h (data img) pal) as [Hmaplen Hcells].
  set (map := buildIndexMap w h (data img) pal) in *.
  intros Hres Hx Hy Ha k Hk.
  assert (Hcell : map !! (y * w + x) = Some (-1)%Z).
  { rewrite Hcells by done. by rewrite Ha. }
  pose (P := λ (_ : nat) (st : option SpeckState),
    ∀ s, st = Some s →
      length (sp_visited s) = w * h ∧
      sp_data s !! ((y * w + x) * 4 + k) = data img !! ((y * w + x) * 4 + k)).
  assert (HP : P h (JS.for_lt h (λ y st,
         JS.for_lt w (λ x st,
           st ≫= speckCell w h map pal minClusterSize x y) st)
       (Some {| sp_data := data img; sp_visited := replicate (w * h) 0;
                removedPixels := 0 |}))).
  { apply for_lt_ind; unfold P.
    - intros s [= <-]. cbn [sp_visited sp_data]. by rewrite length_replicate.
    - intros y' st Hy' IH.
      apply (for_lt_ind (λ _ st, ∀ s, st = Some s →
        length (sp_visited s) = w * h ∧
        sp_data s !! ((y * w + x) * 4 + k) = data img !! ((y * w + x) * 4 + k)));
        [done|].
      intros x' st' Hx' IH' s' Hs'.
      destruct st' as [s|]; [|done]. cbn [mbind option_bind] in Hs'.
      destruct (IH' s eq_refl) as [Hv Hd].
      destruct (speckCell_keeps w h map pal minClusterSize x' y' s s' (y * w + x) k
                  Hmaplen Hx' Hy' Hv Hcell Hk Hs') as [Hv' Hd'].
      split; [done|]. by rewrite Hd'. }
  destruct (JS.for_lt h _ _) as [s|]; [|done].
  cbn [mbind option_bind] in Hres. injection Hres as <- <-. cbn [data].
  by apply (HP s).
Qed.

Lemma removeSpecks_keeps_transparent_witness :
  [0; 255; 0; 255;  0; 255; 0; 200;  0; 255; 0; 10]%Z !! ((0 * width stripes + 2) * 4 + 3)
  = data stripes !! ((0 * width stripes + 2) * 4 + 3).
Proof.
  refine (removeSpecks_keeps_transparent stripes ["#FF0000"; "#00FF00"]%string 2
            {| width := 3; height := 1;
               data := [0; 255; 0; 255;  0; 255; 0; 200;  0; 255; 0; 10]%Z |} 1 2 0
            _ _ _ _ 3 _);
    [vm_compute; reflexivity | simpl; lia | simpl; lia | reflexivity | lia].
Defined.

(** A start cell does nothing to the raster when every cluster is large
    enough. *)
Lemma speckCell_large (w h : nat) (map : list Z) (pal : list ParsedRGB)
    (minClusterSize x y : nat) (st : SpeckState) :
  minClusterSize ≤ 1 →
  length map = w * h →
  x < w → y < h →
  length (sp_visited st) = w * h →
  ∃ st', speckCell w h map pal minClusterSize x y st = Some st' ∧
         length (sp_visited st') = w * h ∧
         sp_data st' = sp_data st ∧ removedPixels st' = removedPixels st.
Proof.
  intros Hmin Hmaplen Hx Hy Hvis. unfold speckCell. cbv zeta.
  destruct (JS.truthy (sp_visited st !! idx x y w)); [by exists st|].
  assert (Hstart : idx x y w < w * h) by (unfold idx; nia).
  destruct (lookup_lt_is_Some_2 map (idx x y w)) as [ci Hci]; [lia|].
  rewrite Hci. change (default 0%Z (Some ci)) with ci.
  destruct (Z.ltb_spec ci 0) as [Hneg|Hpos].
  { eexists. split; [reflexivity|]. cbn [sp_visited sp_data removedPixels].
    by rewrite length_insert. }
  destruct (floodFill_start w h map ci x y (sp_visited st) Hx Hy Hvis Hci)
    as (v' & cl & Hff & Hv' & Hone & Hcl).
  destruct (floodFill _ _ _ _ _ _ _ _) as [[v'' cl'']|]; [|discriminate Hff].
  injection Hff as -> ->. cbn [mbind option_bind].
  destruct (Nat.leb_spec minClusterSize (length cl)); [|lia].
  eexists. split; [reflexivity|]. done.
Qed.

(** X30. With a minimum cluster size of 0 or 1 speck removal returns the
    raster as it is and reports no removed pixel. *)
Theorem removeSpecks_small_threshold_is_identity
    (img : ImageData) (paletteHex : list string) (minClusterSize : nat) :
  minClusterSize ≤ 1 →
  removeSpecks img paletteHex minClusterSize
  = Some ({| width := width img; height := height img; data := data img |}, 0).
Proof.
  intros Hmin. unfold removeSpecks.
  set (w := width img). set (h := height img).
  set (pal := buildPaletteRgb paletteHex).
  destruct (buildIndexMap_cells w h (data img) pal) as [Hmaplen _].
  set (map := buildIndexMap w h (data img) pal) in *.
  pose (P := λ (_ : nat) (st : option SpeckState),
    ∃ s, st = Some s ∧ length (sp_visited s) = w * h ∧
         sp_data s = data img ∧ removedPixels s = 0).
  assert (HP : P h (JS.for_lt h (λ y st,
         JS.for_lt w (λ x st,
           st ≫= speckCell w h map pal minClusterSize x y) st)
       (Some {| sp_data := data img; sp_visited := replicate (w * h) 0;
                removedPixels := 0 |}))).
  { apply for_lt_ind; unfold P.
    - eexists. split; [done|]. cbn [sp_visited sp_data removedPixels].
      by rewrite length_replicate.
    - intros y st Hy IH.
      apply (for_lt_ind (λ _ st, ∃ s, st = Some s ∧ length (sp_visited s) = w * h ∧
                                      sp_data s = data img ∧ removedPixels s = 0));
        [done|].
      intros x st' Hx (s & -> & Hv & Hd & Hr). cbn [mbind option_bind].
      destruct (speckCell_large w h map pal minClusterSize x y s)
        as (s' & -> & Hv' & Hd' & Hr'); try done.
      exists s'. split_and!; [done|done|congruence|congruence]. }
  destruct HP as (s & -> & _ & Hd & Hr). cbn [mbind option_bind].
  by rewrite Hd, Hr.
Qed.

Lemma removeSpecks_small_threshold_is_identity_witness :
  removeSpecks red_green_green ["#FF0000"; "#00FF00"]%string 1
  = Some ({| width := width red_green_green; height := height red_green_green;
             data := data red_green_green |}, 0).
Proof.
  apply (removeSpecks_small_threshold_is_identity red_green_green
           ["#FF0000"; "#00FF00"]%string 1).
  lia.
Defined.
End SpeckInvariants.
